(** * A shallow embedding of the Sudoku engine of [sudoku.py]

    The two classes of the engine, [Cell] and [Sudoku], are embedded as
    records; their methods become functions that take the receiver first
    and, when they mutate it, return the new state of the receiver.
    Python integers are [Z]; Python lists are [list], indexed the way
    Python indexes them (negative indices count from the end, anything
    else out of range raises [IndexError]).  Exceptions and loops that
    need fuel live in the small monad [res].  [solve], the one method
    that handles several [Sudoku] objects at once (deep copies of the
    receiver), runs over an explicit object store. *)

From Stdlib Require Import ZArith Lia Ascii String DecimalString.
From stdpp Require Import base tactics option list numbers sorting.

Local Open Scope Z_scope.

(** ** Results: a value, a Python exception, or no fuel left *)

Inductive exn := IndexError | ZeroDivisionError.

Inductive res (A : Type) :=
  | Ok (a : A)
  | Raise (e : exn)
  | OutOfFuel.
Arguments Ok {A} a.
Arguments Raise {A} e.
Arguments OutOfFuel {A}.

#[global] Instance res_ret : MRet res := λ A a, Ok a.
#[global] Instance res_bind : MBind res := λ A B f m,
  match m with
  | Ok a => f a
  | Raise e => Raise e
  | OutOfFuel => OutOfFuel
  end.

(** [for x in l: body], threading the state the body mutates. *)
Fixpoint for_each {A S : Type} (l : list A) (body : S → A → res S) (s : S) : res S :=
  match l with
  | [] => Ok s
  | x :: l' => s' ← body s x; for_each l' body s'
  end.

(** ** Python built-ins *)

(** [range(lo, hi)] *)
Definition range (lo hi : Z) : list Z := seqZ lo (hi - lo).

(** The position a Python index denotes in a list of length [len]. *)
Definition py_index (len : nat) (i : Z) : res nat :=
  if bool_decide (0 ≤ i < Z.of_nat len) then Ok (Z.to_nat i)
  else if bool_decide (- Z.of_nat len ≤ i < 0) then Ok (Z.to_nat (Z.of_nat len + i))
  else Raise IndexError.

(** [l[i]] *)
Definition getitem {A : Type} (l : list A) (i : Z) : res A :=
  k ← py_index (length l) i;
  match l !! k with
  | Some x => Ok x
  | None => Raise IndexError
  end.

(** [l.remove(x)]: drops the first occurrence. *)
Fixpoint list_remove (x : Z) (l : list Z) : list Z :=
  match l with
  | [] => []
  | y :: l' => if bool_decide (x = y) then l' else y :: list_remove x l'
  end.

(** [a // b] *)
Definition floordiv (a b : Z) : res Z :=
  if bool_decide (b = 0) then Raise ZeroDivisionError else Ok (a / b).

(** [l.pop()]: the last element and the list without it. *)
Definition py_pop {A : Type} (l : list A) : option (list A * A) :=
  match reverse l with
  | [] => None
  | x :: r => Some (reverse r, x)
  end.

(** ** class Cell *)

Record Cell := mkCell {
  value : Z;
  possible : list Z;
  cell_max_val : Z
}.

(** [Cell.__init__] *)
Definition Cell_init (value max_val : Z) : Cell :=
  {| value := value;
     possible := if bool_decide (value = 0) then range 1 (max_val + 1) else [];
     cell_max_val := max_val |}.

(** [Cell.set] *)
Definition Cell_set (self : Cell) (value : Z) : Cell :=
  Cell_init value (cell_max_val self).

(** [self.possible = l], the other attributes kept. *)
Definition with_possible (self : Cell) (l : list Z) : Cell :=
  {| value := value self; possible := l; cell_max_val := cell_max_val self |}.

(** [Cell.remove_from_possible] *)
Definition remove_from_possible (self : Cell) (value : Z) : Cell :=
  if bool_decide (value ∈ possible self)
  then with_possible self (list_remove value (possible self))
  else self.

(** The decimal numeral ['%.1d' % v]. *)
Definition decimal (v : Z) : string := NilZero.string_of_int (Z.to_int v).

(** [chr(n)] for the code points the display mapping reaches. *)
Definition chr (n : Z) : string := String (ascii_of_nat (Z.to_nat n)) EmptyString.

(** [Cell.__str__] *)
Definition Cell_str (self : Cell) : string :=
  if bool_decide (value self = 0) then "_"%string
  else if bool_decide (value self < 10) then decimal (value self)
  else if bool_decide (value self < 36) then chr (value self + 55)
  else if bool_decide (value self < 65) then chr (value self + 61)
  else "*"%string.

(** ** class Sudoku *)

Record Sudoku := mkSudoku {
  box_size : Z;
  max_val : Z;
  cells_filled : Z;
  cell : list (list Cell)
}.

(** [Sudoku.__init__] *)
Definition Sudoku_init (box_size : Z) : Sudoku :=
  let max_val := box_size ^ 2 in
  {| box_size := box_size;
     max_val := max_val;
     cells_filled := 0;
     cell := (λ _, (λ _, Cell_init 0 max_val) <$> range 0 max_val) <$> range 0 max_val |}.

(** [self.cell[row][col]] *)
Definition get_cell (self : Sudoku) (row col : Z) : res Cell :=
  r ← getitem (cell self) row; getitem r col.

(** [self.cell = g], the other attributes kept. *)
Definition with_cell (self : Sudoku) (g : list (list Cell)) : Sudoku :=
  {| box_size := box_size self;
     max_val := max_val self;
     cells_filled := cells_filled self;
     cell := g |}.

(** [self.cell[row][col].m(...)] for a method [m] that mutates the cell
    in place: the cell object is reached through the two lists and
    replaced by its new state. *)
Definition update_cell (self : Sudoku) (row col : Z) (m : Cell → Cell) : res Sudoku :=
  i ← py_index (length (cell self)) row;
  match cell self !! i with
  | None => Raise IndexError
  | Some r =>
      j ← py_index (length r) col;
      match r !! j with
      | None => Raise IndexError
      | Some c =>
          Ok (with_cell self (<[i := <[j := m c]> r]> (cell self)))
      end
  end.

(** [Sudoku.remove_value_from_possibles] *)
Definition remove_value_from_possibles (self : Sudoku) (value row col : Z) : res Sudoku :=
  let rm := λ x, remove_from_possible x value in
  s1 ← for_each (range 0 (max_val self)) (λ s c, update_cell s row c rm) self;
  s2 ← for_each (range 0 (max_val s1)) (λ s r, update_cell s r col rm) s1;
  qr ← floordiv row (box_size s2);
  let box_row := qr * box_size s2 in
  qc ← floordiv col (box_size s2);
  let box_col := qc * box_size s2 in
  for_each (range box_row (box_row + box_size s2))
    (λ s r, for_each (range box_col (box_col + box_size s))
              (λ s' c, update_cell s' r c rm) s) s2.

(** [Sudoku.set_cell] *)
Definition set_cell (self : Sudoku) (value row col : Z) : res (bool * Sudoku) :=
  c ← get_cell self row col;
  if negb (bool_decide (value ∈ possible c)) then Ok (false, self)
  else
    s1 ← update_cell self row col (λ x, Cell_set x value);
    let s2 := {| box_size := box_size s1;
                 max_val := max_val s1;
                 cells_filled := cells_filled s1 + 1;
                 cell := cell s1 |} in
    s3 ← remove_value_from_possibles s2 value row col;
    Ok (true, s3).

(** The pairs [(r, c)] in the order [for r in rows: for c in cols] visits them. *)
Fixpoint pairs (rows cols : list Z) : list (Z * Z) :=
  match rows with
  | [] => []
  | r :: rows' => ((λ c, (r, c)) <$> cols) ++ pairs rows' cols
  end.

(** The cells in the order the two nested [for row/for col] loops of the
    scanning methods visit them. *)
Definition coords (self : Sudoku) : list (Z * Z) :=
  pairs (range 0 (max_val self)) (range 0 (max_val self)).

(** A row-major scan that returns at the first cell satisfying [p]. *)
Fixpoint scan (self : Sudoku) (p : Cell → bool) (l : list (Z * Z)) : res (option (Z * Z)) :=
  match l with
  | [] => Ok None
  | (r, c) :: l' =>
      x ← get_cell self r c;
      if p x then Ok (Some (r, c)) else scan self p l'
  end.

(** [Sudoku.find_one_possible]; [None] stands for the pair [(None, None)]. *)
Definition find_one_possible (self : Sudoku) : res (option (Z * Z)) :=
  scan self (λ x, bool_decide (length (possible x) = 1%nat)) (coords self).

(** [Sudoku.find_lowest_possibles] *)
Definition find_lowest_possibles (self : Sudoku) : res (Z * Z) :=
  acc ← for_each (coords self)
    (λ '(low_row, low_col, low_poss) '(row, col),
       x ← get_cell self row col;
       let len_possible := Z.of_nat (length (possible x)) in
       if bool_decide (len_possible > 0) && bool_decide (len_possible < low_poss)
       then Ok (row, col, len_possible)
       else Ok (low_row, low_col, low_poss))
    (-1, -1, max_val self + 1);
  Ok (acc.1.1, acc.1.2).

(** [Sudoku.fill_in_all_knowns]; the [while] loop runs on fuel. *)
Fixpoint fill_in_all_knowns (fuel : nat) (self : Sudoku) : res Sudoku :=
  match fuel with
  | O => OutOfFuel
  | S fuel' =>
      o ← find_one_possible self;
      match o with
      | None => Ok self
      | Some (row, col) =>
          x ← get_cell self row col;
          value ← getitem (possible x) 0;
          r ← set_cell self value row col;
          fill_in_all_knowns fuel' r.2
      end
  end.

(** [Sudoku.reached_dead_end] *)
Definition reached_dead_end (self : Sudoku) : res bool :=
  o ← scan self (λ x, bool_decide (value x = 0) && bool_decide (length (possible x) = 0%nat))
         (coords self);
  Ok (bool_decide (is_Some o)).

(** [Sudoku.solved] *)
Definition solved (self : Sudoku) : res bool :=
  o ← scan self (λ x, bool_decide (value x = 0)) (coords self);
  Ok (negb (bool_decide (is_Some o))).

(** ** The object store

    [solve] works on deep copies of its receiver.  A store holds the
    state of every [Sudoku] object alive; a reference is a position in
    it.  A [Sudoku] owns its grid and cells (no two boards ever share a
    cell), so the state of a board object is a [Sudoku] value. *)

Abbreviation ref := nat (only parsing).
Abbreviation store := (list Sudoku) (only parsing).

Definition deref (h : store) (p : ref) : res Sudoku :=
  match h !! p with
  | Some b => Ok b
  | None => Raise IndexError
  end.

(** [copy.deepcopy(p)]: a new object with the state of [p]. *)
Definition deepcopy (p : ref) (h : store) : res (ref * store) :=
  b ← deref h p; Ok (length h, h ++ [b]).

(** [p.m(...)] for a method [m] that mutates board [p] in place. *)
Definition invoke (p : ref) (m : Sudoku → res Sudoku) (h : store) : res store :=
  b ← deref h p; b' ← m b; Ok (<[p := b']> h).

(** The body of the [for value in ...] loop of [solve]: a deep copy of
    [p] receives the value and is pushed. *)
Definition fork (p : ref) (row col : Z) (st : list ref * store) (value : Z)
    : res (list ref * store) :=
  let '(puzzles, h) := st in
  '(forked_puzzle, h1) ← deepcopy p h;
  h2 ← invoke forked_puzzle (λ b, r ← set_cell b value row col; Ok r.2) h1;
  Ok (puzzles ++ [forked_puzzle], h2).

(** The [for value in ...] loop of [solve]: one fork per candidate. *)
Definition fork_all (p : ref) (row col : Z) (values : list Z)
    (puzzles : list ref) (h : store) : res (list ref * store) :=
  for_each values (fork p row col) (puzzles, h).

(** The [while] loop of [solve].  [puzzles] is the work list, [puzzle]
    the variable the method returns at the end (unbound before the first
    turn, which always takes place).  The source calls
    [reached_dead_end] in two successive [elif] tests; it only reads the
    board, so the second call returns what the first returned. *)
Fixpoint solve_loop (fuel : nat) (puzzles : list ref) (puzzle : option ref)
    (h : store) : res (option ref * store) :=
  match fuel with
  | O => OutOfFuel
  | S fuel' =>
      match py_pop puzzles with
      | None => Ok (puzzle, h)
      | Some (puzzles, puzzle) =>
          h ← invoke puzzle (fill_in_all_knowns (S fuel')) h;
          b ← deref h puzzle;
          is_solved ← solved b;
          if (is_solved : bool) then solve_loop fuel' [] (Some puzzle) h
          else
            dead ← reached_dead_end b;
            if (dead : bool) && bool_decide (length puzzles = 0%nat)
            then solve_loop fuel' puzzles None h
            else if dead then solve_loop fuel' puzzles (Some puzzle) h
            else
              '(row, col) ← find_lowest_possibles b;
              c ← get_cell b row col;
              '(puzzles, h) ← fork_all puzzle row col (possible c) puzzles h;
              solve_loop fuel' puzzles (Some puzzle) h
      end
  end.

(** [Sudoku.solve] *)
Definition solve (fuel : nat) (self : ref) (h : store) : res (option ref * store) :=
  '(p, h) ← deepcopy self h;
  solve_loop fuel [p] None h.

(** ** [Sudoku.__str__] *)

(** [''.join(l)] *)
Definition join (l : list string) : string := fold_right String.append EmptyString l.

(** The string ['\n'] *)
Definition newline : string := String (ascii_of_nat 10) EmptyString.

(** [Sudoku.__str__] *)
Definition Sudoku_str (self : Sudoku) : string :=
  join (mjoin ((λ row : list Cell,
                  ((λ c, String.append (Cell_str c) " ") <$> row) ++ [newline])
               <$> cell self)).

(** * Vocabulary of the specification

    The predicates and measures the lemmas and the claims are stated
    with, and the concrete boards they are tried on. *)

(** ** Positions *)

(** The indices Python accepts for a list of length [n] ... *)
Definition in_bounds (n : nat) (i : Z) : Prop := - Z.of_nat n ≤ i < Z.of_nat n.

(** ... and the position each of them denotes. *)
Definition norm (n : nat) (i : Z) : nat :=
  if bool_decide (0 ≤ i) then Z.to_nat i else Z.to_nat (Z.of_nat n + i).

(** The cell at row [i], column [j] of a grid, counted from 0. *)
Definition cell_at (g : list (list Cell)) (i j : nat) : option Cell :=
  r ← g !! i; r !! j.

(** An [n] by [n] grid. *)
Definition square (n : nat) (g : list (list Cell)) : Prop :=
  length g = n ∧ ∀ i r, g !! i = Some r → length r = n.

(** Every loop of [remove_value_from_possibles] invokes one cell method
    at a list of positions.  [Upd n m L s s'] says what such a loop over
    the positions [L] makes of a board [s] of side [n]: each cell has
    received the method [m] as often as [L] visits it. *)
Section update_relation.
Context (n : nat) (m : Cell → Cell).

Definition hits (L : list (Z * Z)) (i j : nat) : nat :=
  length (filter (λ p, norm n p.1 = i ∧ norm n p.2 = j) L).

Definition Upd (L : list (Z * Z)) (s s' : Sudoku) : Prop :=
  box_size s' = box_size s ∧ max_val s' = max_val s ∧
  cells_filled s' = cells_filled s ∧ square n (cell s') ∧
  ∀ i j, cell_at (cell s') i j = Nat.iter (hits L i j) m <$> cell_at (cell s) i j.

End update_relation.

(** ** Boards *)

(** Candidate lists are kept in ascending order, without repetition. *)
Definition ascending (l : list Z) : Prop := StronglySorted Z.lt l.

(** The side of the grid. *)
Definition dim (s : Sudoku) : nat := Z.to_nat (max_val s).

(** The shape [Sudoku.__init__] gives a board, for a box size that is
    not negative. *)
Definition wf (s : Sudoku) : Prop :=
  0 ≤ box_size s ∧ max_val s = box_size s ^ 2 ∧ square (dim s) (cell s).

(** Rows [i] and [i'] (or columns) cross the same box. *)
Definition same_box (b : Z) (i i' : nat) : Prop :=
  Z.of_nat i / b = Z.of_nat i' / b.

(** Position [(i', j')] shares a row, a column or a box with [(i, j)]. *)
Definition peers (b : Z) (i j i' j' : nat) : Prop :=
  i' = i ∨ j' = j ∨ (same_box b i i' ∧ same_box b j j').

(** The positions [remove_value_from_possibles] visits, in order. *)
Definition visited (s : Sudoku) (row col : Z) : list (Z * Z) :=
  let b := box_size s in
  ((λ c, (row, c)) <$> range 0 (max_val s)) ++
  ((λ r, (r, col)) <$> range 0 (max_val s)) ++
  pairs (range (row / b * b) (row / b * b + b)) (range (col / b * b) (col / b * b + b)).

(** What a successful [set_cell(v, row, col)] makes of a board: the cell
    is filled, every other cell has lost [v] as often as the three loops
    of [remove_value_from_possibles] visit it. *)
Definition assigned (s : Sudoku) (v row col : Z) (s' : Sudoku) : Prop :=
  box_size s' = box_size s ∧ max_val s' = max_val s ∧
  cells_filled s' = cells_filled s + 1 ∧ square (dim s) (cell s') ∧
  ∀ i j c, cell_at (cell s) i j = Some c →
    cell_at (cell s') i j =
    Some (if decide (i = norm (dim s) row ∧ j = norm (dim s) col)
          then mkCell v [] (cell_max_val c)
          else Nat.iter (hits (dim s) (visited s row col) i j)
                 (λ x, remove_from_possible x v) c).

(** The positions of a grid of side [n]. *)
Definition positions (n : nat) : list (nat * nat) := cprod (seq 0 n) (seq 0 n).

(** 1 when the cell at [p] still has a candidate. *)
Definition open_at (g : list (list Cell)) (p : nat * nat) : nat :=
  match cell_at g p.1 p.2 with
  | Some c => if decide (possible c = []) then 0 else 1
  | None => 0
  end.

(** The number of cells that still have a candidate. *)
Definition open (s : Sudoku) : nat :=
  sum_list_with (open_at (cell s)) (positions (dim s)).

(** ** The board invariant *)

(** Per cell: candidates ascending and within [1..N], none left once the
    cell has a value, values within [0..N]. *)
Definition cells_ok (s : Sudoku) : Prop :=
  ∀ i j c, cell_at (cell s) i j = Some c →
    ascending (possible c) ∧
    (∀ w, w ∈ possible c → 1 ≤ w ≤ max_val s) ∧
    (value c ≠ 0 → possible c = []) ∧
    0 ≤ value c ≤ max_val s.

(** The value of a filled cell is no candidate of any cell that shares a
    row, a column or a box with it. *)
Definition eliminated (s : Sudoku) : Prop :=
  ∀ i j c i' j' c',
    cell_at (cell s) i j = Some c → cell_at (cell s) i' j' = Some c' →
    peers (box_size s) i j i' j' → value c ≠ 0 → value c ∉ possible c'.

(** No two cells sharing a row, a column or a box hold equal non-zero values. *)
Definition peer_unique (s : Sudoku) : Prop :=
  ∀ i j c i' j' c',
    cell_at (cell s) i j = Some c → cell_at (cell s) i' j' = Some c' →
    (i, j) ≠ (i', j') → peers (box_size s) i j i' j' →
    value c ≠ 0 → value c ≠ value c'.

(** A solved board: every cell has a value. *)
Definition full (s : Sudoku) : Prop :=
  ∀ i j x, cell_at (cell s) i j = Some x → value x ≠ 0.

(** [cells_filled] never exceeds the number of cells that are closed. *)
Definition counted (s : Sudoku) : Prop :=
  0 ≤ cells_filled s ∧
  cells_filled s + Z.of_nat (open s) ≤ Z.of_nat (dim s * dim s).

(** What every reachable board satisfies. *)
Record Inv (s : Sudoku) : Prop := {
  inv_wf : wf s;
  inv_cells : cells_ok s;
  inv_elim : eliminated s;
  inv_unique : peer_unique s;
  inv_count : counted s
}.

(** The boards a program can hold: a fresh board, of a box size that is
    not negative, and what [set_cell] (whether it succeeds or not) and
    [fill_in_all_knowns] make of a board it holds.  The boards [solve]
    returns are among them ([solve_boards_reachable]). *)
Inductive reachable : Sudoku → Prop :=
  | reach_init (bs : Z) :
      0 ≤ bs → reachable (Sudoku_init bs)
  | reach_set_cell (s : Sudoku) (v row col : Z) (ok : bool) (s' : Sudoku) :
      reachable s → set_cell s v row col = Ok (ok, s') → reachable s'
  | reach_fill (s : Sudoku) (fuel : nat) (s' : Sudoku) :
      reachable s → fill_in_all_knowns fuel s = Ok s' → reachable s'.

(** The turns of the loop of [fill_in_all_knowns] from board [s] to the
    board [s'] it returns, [k] of them: each turn takes the cell
    [find_one_possible] finds, passes the one candidate of that cell to
    [set_cell], which returns [True] and adds one to [cells_filled]; the
    loop ends on the board on which the scan finds no cell. *)
Inductive fill_run : Sudoku → nat → Sudoku → Prop :=
  | fill_run_done (s : Sudoku) :
      find_one_possible s = Ok None → fill_run s 0 s
  | fill_run_turn (s : Sudoku) (r c : Z) (x : Cell) (w : Z) (s1 : Sudoku)
        (k : nat) (s' : Sudoku) :
      find_one_possible s = Ok (Some (r, c)) →
      get_cell s r c = Ok x → possible x = [w] →
      getitem (possible x) 0 = Ok w →
      set_cell s w r c = Ok (true, s1) →
      cells_filled s1 = cells_filled s + 1 →
      fill_run s1 k s' → fill_run s (S k) s'.

(** ** [solve] on board values

    The store only matters to [solve] through the boards its work list
    refers to.  [solve_boards] is the loop of [solve] over the list of
    those boards; [solve_loop_refines] shows that [solve_loop] computes
    what [solve_boards] computes, in fresh objects. *)

(** The boards the [for value in ...] loop pushes. *)
Fixpoint fork_boards (b : Sudoku) (row col : Z) (values : list Z) : res (list Sudoku) :=
  match values with
  | [] => Ok []
  | value :: values' =>
      r ← set_cell b value row col;
      forks ← fork_boards b row col values';
      Ok (r.2 :: forks)
  end.

(** The [while] loop of [solve], on the boards themselves. *)
Fixpoint solve_boards (fuel : nat) (stack : list Sudoku) (cur : option Sudoku)
    : res (option Sudoku) :=
  match fuel with
  | O => OutOfFuel
  | S fuel' =>
      match py_pop stack with
      | None => Ok cur
      | Some (rest, b0) =>
          b ← fill_in_all_knowns (S fuel') b0;
          is_solved ← solved b;
          if (is_solved : bool) then solve_boards fuel' [] (Some b)
          else
            dead ← reached_dead_end b;
            if (dead : bool) && bool_decide (length rest = 0%nat)
            then solve_boards fuel' rest None
            else if dead then solve_boards fuel' rest (Some b)
            else
              '(row, col) ← find_lowest_possibles b;
              c ← get_cell b row col;
              forks ← fork_boards b row col (possible c);
              solve_boards fuel' (rest ++ forks) (Some b)
      end
  end.

(** The work list [puzzles] of a store [h] refers to the boards [stack]. *)
Definition refers (h : store) (puzzles : list ref) (stack : list Sudoku) : Prop :=
  NoDup puzzles ∧ Forall2 (λ p b, h !! p = Some b) puzzles stack.

(** The same for the variable [puzzle]. *)
Definition refers_opt (h : store) (puzzle : option ref) (cur : option Sudoku) : Prop :=
  match puzzle, cur with
  | Some p, Some b => h !! p = Some b
  | None, None => True
  | _, _ => False
  end.

(** Two outcomes agree: the same exception, the same lack of fuel, or
    results related by [R]. *)
Definition agree {A B : Type} (R : A → B → Prop) (x : res A) (y : res B) : Prop :=
  match x, y with
  | Ok a, Ok b => R a b
  | Raise e, Raise e' => e = e'
  | OutOfFuel, OutOfFuel => True
  | _, _ => False
  end.

(** What [solve_loop] leaves behind: the result refers to the board
    [solve_boards] returns, the store has only grown, and only the
    objects of the work list have changed. *)
Definition result_rel (h : store) (puzzles : list ref)
    (out : option ref * store) (rb : option Sudoku) : Prop :=
  refers_opt out.2 out.1 rb ∧ (length h ≤ length out.2)%nat ∧
  ∀ l, (l < length h)%nat → l ∉ puzzles → out.2 !! l = h !! l.

(** A bound on the turns of the loop that a branch with [n] open cells
    can cause, when no cell has more than [K] candidates. *)
Fixpoint turns (K n : nat) : nat :=
  match n with
  | O => 1
  | S n' => S (turns K n') + K * turns K n'
  end.

(** The turns a whole work list can cause. *)
Definition cost (K : nat) (stack : list Sudoku) : nat :=
  sum_list_with (λ b, turns K (open b)) stack.

(** What [solve] may return. *)
Definition good (r : option Sudoku) : Prop :=
  match r with
  | None => True
  | Some b => Inv b ∧ full b
  end.

(** ** Concrete boards *)

(** A caller assigning clues one after the other, as [populate] does. *)
Definition assign_all (s : Sudoku) (clues : list (Z * Z * Z)) : res Sudoku :=
  for_each clues (λ s '(v, row, col), r ← set_cell s v row col; Ok r.2) s.

(** The 4 by 4 board with 1 and 2 in the first row and 3 and 4 in the
    second half of the second row: the last two cells of the first row
    have no value and no candidate. *)
Definition stuck_board : Sudoku :=
  match assign_all (Sudoku_init 2) [(1, 0, 0); (2, 0, 1); (3, 1, 2); (4, 1, 3)] with
  | Ok s => s
  | _ => Sudoku_init 2
  end.

(** A 4 by 4 board with every cell but the last one filled. *)
Definition almost_board : Sudoku :=
  match assign_all (Sudoku_init 2)
          [(1, 0, 0); (2, 0, 1); (3, 0, 2); (4, 0, 3);
           (3, 1, 0); (4, 1, 1); (1, 1, 2); (2, 1, 3);
           (2, 2, 0); (1, 2, 1); (4, 2, 2); (3, 2, 3);
           (4, 3, 0); (3, 3, 1); (2, 3, 2)] with
  | Ok s => s
  | _ => Sudoku_init 2
  end.

(** The outcome of solving the empty 4 by 4 board in a store that holds
    nothing else. *)
Definition empty4_solved : option ref * store :=
  Eval vm_compute in
    match solve 100 0%nat [Sudoku_init 2] with
    | Ok out => out
    | _ => (None, [])
    end.

(** The candidate invariant in its two-way form: a cell has a value
    exactly when it has no candidate left. *)
Definition value_iff_no_candidates (s : Sudoku) : Prop :=
  ∀ i j c, cell_at (cell s) i j = Some c → value c ≠ 0 ↔ possible c = [].

(** The outcome of solving the empty 4 by 4 board again, with more fuel
    and in a store that holds another board as well. *)
Definition empty4_solved_again : option ref * store :=
  Eval vm_compute in
    match solve 200 1%nat [Sudoku_init 1; Sudoku_init 2] with
    | Ok out => out
    | _ => (None, [])
    end.

(** Two results of [solve] are the same: both [None], or references to
    equal boards. *)
Definition same_result (out1 out2 : option ref * store) : Prop :=
  match out1.1, out2.1 with
  | None, None => True
  | Some p1, Some p2 => ∃ b', out1.2 !! p1 = Some b' ∧ out2.2 !! p2 = Some b'
  | _, _ => False
  end.

(** The forks of the empty 4 by 4 board at its first cell. *)
Definition first_cell_forks : list ref * store :=
  Eval vm_compute in
    match fork_all 0%nat 0 0 [1; 2; 3; 4] [] [Sudoku_init 2] with
    | Ok out => out
    | _ => ([], [])
    end.

(** ** Display *)

(** The symbol at place [k] of an alphabet, as a string. *)
Definition symbol (alphabet : string) (k : Z) : string :=
  match String.get (Z.to_nat k) alphabet with
  | Some a => String a EmptyString
  | None => EmptyString
  end.

(** [Cell.__str__] looks at the value only. *)
Definition str_of_value (v : Z) : string := Cell_str (mkCell v [] 0).

(** ** Completions, progress and counting *)

(** An empty cell lacks a value of 1..N as a candidate only when a cell
    of its row, column or box holds that value. *)
Definition exact (s : Sudoku) : Prop :=
  ∀ i j c w,
    cell_at (cell s) i j = Some c → value c = 0 →
    1 ≤ w ≤ max_val s → w ∉ possible c →
    ∃ i' j' c', peers (box_size s) i j i' j' ∧
                cell_at (cell s) i' j' = Some c' ∧ value c' = w.

(** A completed grid for box size [b] and side [n]: every position
    holds a value of 1..n and no two positions that share a row, a column
    or a box hold the same value. *)
Definition valid_solution (b : Z) (n : nat) (sol : nat → nat → Z) : Prop :=
  (∀ i j, (i < n)%nat → (j < n)%nat → 1 ≤ sol i j ≤ Z.of_nat n) ∧
  ∀ i j i' j',
    (i < n)%nat → (j < n)%nat → (i' < n)%nat → (j' < n)%nat →
    (i, j) ≠ (i', j') → peers b i j i' j' → sol i j ≠ sol i' j'.

(** [sol] is a completion of board [s]: a completed grid that has the
    value of every filled cell of [s] in its place. *)
Definition completes (sol : nat → nat → Z) (s : Sudoku) : Prop :=
  valid_solution (box_size s) (dim s) sol ∧
  ∀ i j c, cell_at (cell s) i j = Some c → value c ≠ 0 → sol i j = value c.

(** Board [s'] is board [s] further along: the same grid, every value of
    [s] still in its cell, no candidate that [s] did not have. *)
Definition keeps (s s' : Sudoku) : Prop :=
  box_size s' = box_size s ∧ max_val s' = max_val s ∧
  cells_filled s ≤ cells_filled s' ∧
  ∀ i j c, cell_at (cell s) i j = Some c →
    ∃ c', cell_at (cell s') i j = Some c' ∧
          (value c ≠ 0 → value c' = value c) ∧
          possible c' `sublist_of` possible c.

(** The values of a board, by position (0 where there is no cell). *)
Definition values_of (s : Sudoku) (i j : nat) : Z :=
  match cell_at (cell s) i j with
  | Some c => value c
  | None => 0
  end.

#[global] Instance peers_dec (b : Z) (i j i' j' : nat) : Decision (peers b i j i' j').
Proof. unfold peers, same_box. apply _. Defined.

(** [completes], as a test that runs. *)
Definition completesb (sol : nat → nat → Z) (s : Sudoku) : bool :=
  let ps := positions (dim s) in
  forallb (λ p, bool_decide (1 ≤ sol p.1 p.2 ≤ Z.of_nat (dim s))) ps &&
  forallb (λ p, forallb (λ q,
             bool_decide (p ≠ q → peers (box_size s) p.1 p.2 q.1 q.2 →
                          sol p.1 p.2 ≠ sol q.1 q.2)) ps) ps &&
  forallb (λ p, match cell_at (cell s) p.1 p.2 with
                | Some c => bool_decide (value c ≠ 0 → sol p.1 p.2 = value c)
                | None => true
                end) ps.

(** The grid that completes [almost_board]. *)
Definition solution4 (i j : nat) : Z :=
  nth j (nth i [[1; 2; 3; 4]; [3; 4; 1; 2]; [2; 1; 4; 3]; [4; 3; 2; 1]] []) 0.

(** The outcome of solving [stuck_board]. *)
Definition stuck_solved : option ref * store :=
  Eval vm_compute in
    match solve 100 0%nat [stuck_board] with
    | Ok out => out
    | _ => (Some 0%nat, [])
    end.

(** 1 when the cell at [p] has a value. *)
Definition filled_at (g : list (list Cell)) (p : nat * nat) : nat :=
  match cell_at g p.1 p.2 with
  | Some c => if decide (value c = 0) then 0 else 1
  | None => 0
  end.

(** The number of cells that have a value. *)
Definition filled (s : Sudoku) : nat :=
  sum_list_with (filled_at (cell s)) (positions (dim s)).

(** [fill_in_all_knowns] run on [almost_board]. *)
Definition almost_filled : Sudoku :=
  Eval vm_compute in
    match fill_in_all_knowns 5 almost_board with
    | Ok s => s
    | _ => almost_board
    end.

(** Row-major order on positions: [p] is visited before [q]. *)
Definition before (p q : Z * Z) : Prop :=
  p.1 < q.1 ∨ (p.1 = q.1 ∧ p.2 < q.2).

(** * Verification *)

(** ** The result monad *)

Lemma bind_Ok {A B : Type} (m : res A) (f : A → res B) (b : B) :
  m ≫= f = Ok b ↔ ∃ a, m = Ok a ∧ f a = Ok b.
Proof.
  destruct m as [a| |]; simpl; split.
  - eauto.
  - intros (a' & [= <-] & ?); done.
  - done.
  - intros (? & ? & _); done.
  - done.
  - intros (? & ? & _); done.
Qed.

Lemma bind_Ok_l {A B : Type} (m : res A) (f : A → res B) (a : A) :
  m = Ok a → m ≫= f = f a.
Proof. by intros ->. Qed.

(** Inverts hypotheses of the form [m ≫= f = Ok b]. *)
Ltac inv_bind :=
  repeat match goal with
  | H : _ ≫= _ = Ok _ |- _ => apply bind_Ok in H; destruct H as (? & ? & H)
  | H : Ok _ = Ok _ |- _ => injection H as H
  | H : Raise _ = Ok _ |- _ => discriminate H
  | H : OutOfFuel = Ok _ |- _ => discriminate H
  | H : mret _ = Ok _ |- _ => injection H as H
  end.

Lemma for_each_app {A S : Type} (l1 l2 : list A) (body : S → A → res S) (s : S) :
  for_each (l1 ++ l2) body s = s' ← for_each l1 body s; for_each l2 body s'.
Proof.
  revert s; induction l1 as [|x l1 IH]; intros s; simpl; [done|].
  destruct (body s x) as [s'| |]; simpl; auto.
Qed.

(** ** Python indexing *)

Lemma py_index_Ok (n : nat) (i : Z) (k : nat) :
  py_index n i = Ok k ↔ in_bounds n i ∧ k = norm n i.
Proof.
  unfold py_index, in_bounds, norm.
  repeat case_bool_decide; split; try intros [= <-]; try intros [? ->];
    try done; try lia.
Qed.

Lemma py_index_in (n : nat) (i : Z) :
  in_bounds n i → py_index n i = Ok (norm n i).
Proof. intros; by apply py_index_Ok. Qed.

Lemma py_index_out (n : nat) (i : Z) :
  ¬ in_bounds n i → py_index n i = Raise IndexError.
Proof.
  unfold py_index, in_bounds. intros; repeat case_bool_decide; try done; lia.
Qed.

Lemma norm_lt (n : nat) (i : Z) : in_bounds n i → (norm n i < n)%nat.
Proof. unfold in_bounds, norm. intros; case_bool_decide; lia. Qed.

Lemma norm_nat (n k : nat) : norm n (Z.of_nat k) = k.
Proof. unfold norm. case_bool_decide; lia. Qed.

Lemma in_bounds_nat (n k : nat) : (k < n)%nat → in_bounds n (Z.of_nat k).
Proof. unfold in_bounds; lia. Qed.

Lemma getitem_Ok {A : Type} (l : list A) (i : Z) (x : A) :
  getitem l i = Ok x ↔ in_bounds (length l) i ∧ l !! norm (length l) i = Some x.
Proof.
  unfold getitem. split.
  - intros H. apply bind_Ok in H as (k & Hk & H).
    apply py_index_Ok in Hk as [? ->]. by destruct (l !! _); simplify_eq.
  - intros [? H]. rewrite (py_index_in _ _ H0); simpl. by rewrite H.
Qed.

Lemma getitem_Raise {A : Type} (l : list A) (i : Z) :
  ¬ in_bounds (length l) i → getitem l i = Raise IndexError.
Proof. intros H. unfold getitem. by rewrite py_index_out. Qed.

Lemma elem_of_range (lo hi x : Z) : x ∈ range lo hi ↔ lo ≤ x < hi.
Proof. unfold range. rewrite elem_of_seqZ. lia. Qed.

Lemma py_pop_app {A : Type} (l : list A) (x : A) : py_pop (l ++ [x]) = Some (l, x).
Proof. unfold py_pop. rewrite reverse_app; simpl. by rewrite reverse_involutive. Qed.

Lemma py_pop_nil {A : Type} : py_pop (@nil A) = None.
Proof. done. Qed.

Lemma py_pop_Some {A : Type} (l l' : list A) (x : A) :
  py_pop l = Some (l', x) ↔ l = l' ++ [x].
Proof.
  split; [|intros ->; apply py_pop_app].
  unfold py_pop. destruct (reverse l) as [|y r] eqn:E; [done|].
  intros [= <- <-]. rewrite <- (reverse_involutive l), E.
  by rewrite reverse_cons.
Qed.

Lemma py_pop_None {A : Type} (l : list A) : py_pop l = None ↔ l = [].
Proof.
  split; [|by intros ->].
  destruct l as [|x l] using rev_ind; [done|]. by rewrite py_pop_app.
Qed.

(** ** Grids seen as partial functions on positions *)

Lemma square_cell_at (n : nat) (g : list (list Cell)) (i j : nat) :
  square n g → (i < n)%nat → (j < n)%nat → is_Some (cell_at g i j).
Proof.
  intros [Hl Hr] Hi Hj. unfold cell_at.
  destruct (lookup_lt_is_Some_2 g i) as [r Hri]; [lia|].
  rewrite Hri; simpl. apply lookup_lt_is_Some_2. rewrite (Hr _ _ Hri); lia.
Qed.

Lemma cell_at_lt (n : nat) (g : list (list Cell)) (i j : nat) (c : Cell) :
  square n g → cell_at g i j = Some c → (i < n)%nat ∧ (j < n)%nat.
Proof.
  intros [Hl Hr]. unfold cell_at. destruct (g !! i) as [r|] eqn:Hri; [|done].
  simpl; intros Hj. pose proof (Hr _ _ Hri).
  apply lookup_lt_Some in Hri, Hj. lia.
Qed.

Lemma get_cell_Ok (n : nat) (s : Sudoku) (row col : Z) (c : Cell) :
  square n (cell s) →
  get_cell s row col = Ok c ↔
  in_bounds n row ∧ in_bounds n col ∧ cell_at (cell s) (norm n row) (norm n col) = Some c.
Proof.
  intros [Hl Hr]. unfold get_cell, cell_at. split.
  - intros H. apply bind_Ok in H as (r & Hrow & Hc).
    apply getitem_Ok in Hrow as [? Hrow], Hc as [? Hc].
    rewrite Hl in *. rewrite (Hr _ _ Hrow) in *. rewrite Hrow; simpl. done.
  - intros (? & ? & H). destruct (cell s !! _) as [r|] eqn:E; [|done].
    simpl in H. rewrite (bind_Ok_l _ _ r); [|apply getitem_Ok; by rewrite Hl].
    apply getitem_Ok. by rewrite (Hr _ _ E).
Qed.

Lemma elem_of_pairs (rows cols : list Z) (r c : Z) :
  (r, c) ∈ pairs rows cols ↔ r ∈ rows ∧ c ∈ cols.
Proof.
  induction rows as [|r' rows IH]; simpl.
  - rewrite elem_of_nil. split; [done|]. intros [H _]; by apply elem_of_nil in H.
  - rewrite elem_of_app, list_elem_of_fmap, IH, elem_of_cons. split.
    + intros [(c' & [= -> ->] & ?)|[? ?]]; auto.
    + intros [[->|?] ?]; eauto.
Qed.

Lemma cell_at_insert (g : list (list Cell)) (i j i' j' : nat) (r : list Cell) (x : Cell) :
  g !! i = Some r → (j < length r)%nat →
  cell_at (<[i := <[j := x]> r]> g) i' j' =
  if decide (i' = i ∧ j' = j) then Some x else cell_at g i' j'.
Proof.
  intros Hr Hj. pose proof (lookup_lt_Some _ _ _ Hr). unfold cell_at.
  destruct (decide (i' = i)) as [->|Hi].
  - rewrite list_lookup_insert_eq by done. rewrite Hr; simpl.
    destruct (decide (j' = j)) as [->|Hj'].
    + rewrite list_lookup_insert_eq by done. by rewrite decide_True.
    + rewrite list_lookup_insert_ne by done. rewrite decide_False; [done|tauto].
  - rewrite list_lookup_insert_ne by done. rewrite decide_False; [done|tauto].
Qed.

Lemma square_insert (n : nat) (g : list (list Cell)) (i j : nat) (r : list Cell) (x : Cell) :
  square n g → g !! i = Some r → square n (<[i := <[j := x]> r]> g).
Proof.
  intros [Hl Hr] Hi. split; [by rewrite length_insert|].
  intros i' r' H'. destruct (decide (i' = i)) as [->|].
  - rewrite list_lookup_insert_eq in H' by (by eapply lookup_lt_Some).
    injection H' as <-. rewrite length_insert. eauto.
  - rewrite list_lookup_insert_ne in H' by done. eauto.
Qed.

(** ** Loops of cell updates

    Every loop of [remove_value_from_possibles] invokes one cell method
    at a list of positions.  [Upd L s s'] says what such a loop over the
    positions [L] makes of board [s]: each cell has received the method as
    often as [L] visits it. *)

Section updates.
Context (n : nat) (m : Cell → Cell).
Local Abbreviation hits := (hits n).
Local Abbreviation Upd := (Upd n m).

Lemma hits_app (L1 L2 : list (Z * Z)) (i j : nat) :
  hits (L1 ++ L2) i j = (hits L1 i j + hits L2 i j)%nat.
Proof. unfold hits. by rewrite list.filter_app, length_app. Qed.

Lemma hits_pos (L : list (Z * Z)) (i j : nat) :
  (0 < hits L i j)%nat ↔ ∃ p, p ∈ L ∧ norm n p.1 = i ∧ norm n p.2 = j.
Proof.
  unfold hits. split.
  - intros H. destruct (filter _ L) as [|p l] eqn:E; [simpl in H; lia|].
    exists p.
    assert (p ∈ filter (λ p, norm n p.1 = i ∧ norm n p.2 = j) L) as Hin
      by (rewrite E; by left).
    apply list_elem_of_filter in Hin. tauto.
  - intros (p & Hp & H).
    assert (p ∈ filter (λ p, norm n p.1 = i ∧ norm n p.2 = j) L) as Hin
      by (by apply list_elem_of_filter).
    destruct (filter _ L); [by apply elem_of_nil in Hin|simpl; lia].
Qed.

Lemma Upd_nil (s : Sudoku) : square n (cell s) → Upd [] s s.
Proof.
  intros ?. unfold Upd. split_and!; try done. intros i j; simpl.
  by destruct (cell_at _ _ _).
Qed.

Lemma Upd_app (L1 L2 : list (Z * Z)) (s s1 s2 : Sudoku) :
  Upd L1 s s1 → Upd L2 s1 s2 → Upd (L1 ++ L2) s s2.
Proof.
  intros (? & ? & ? & ? & Hs1) (? & ? & ? & ? & Hs2).
  unfold Upd. split_and!; try congruence; try done.
  intros i j. rewrite Hs2, Hs1, hits_app.
  destruct (cell_at (cell s) i j); simpl; [|done].
  by rewrite Nat.add_comm, Nat.iter_add.
Qed.

Lemma update_cell_Upd (s : Sudoku) (r c : Z) :
  square n (cell s) → in_bounds n r → in_bounds n c →
  ∃ s', update_cell s r c m = Ok s' ∧ Upd [(r, c)] s s'.
Proof.
  intros Hsq Hr Hc. pose proof Hsq as [Hl Hrow].
  destruct (square_cell_at n (cell s) (norm n r) (norm n c) Hsq) as [x Hx];
    [by apply norm_lt..|].
  unfold cell_at in Hx. destruct (cell s !! norm n r) as [rw|] eqn:Erw; [|done].
  simpl in Hx. pose proof (Hrow _ _ Erw) as Hlen.
  unfold update_cell. rewrite Hl, (py_index_in _ _ Hr); simpl.
  rewrite Erw, Hlen, (py_index_in _ _ Hc); simpl. rewrite Hx.
  eexists; split; [done|]. unfold Upd. split_and!; simpl; try done.
  - by apply square_insert.
  - intros i j. rewrite cell_at_insert; [|done|apply lookup_lt_Some in Hx; lia].
    unfold hits. simpl. rewrite filter_cons, filter_nil. simpl.
    destruct (decide (i = norm n r ∧ j = norm n c)) as [[-> ->]|Hne].
    + rewrite decide_True by done. simpl. unfold cell_at. rewrite Erw; simpl.
      by rewrite Hx.
    + rewrite decide_False by (intros [<- <-]; by apply Hne). simpl.
      by destruct (cell_at (cell s) i j).
Qed.

Lemma for_each_Upd {A : Type} (l : list A) (pos : A → Z * Z) (s : Sudoku) :
  square n (cell s) →
  Forall (λ a, in_bounds n (pos a).1 ∧ in_bounds n (pos a).2) l →
  ∃ s', for_each l (λ s a, update_cell s (pos a).1 (pos a).2 m) s = Ok s' ∧
        Upd (pos <$> l) s s'.
Proof.
  revert s. induction l as [|a l IH]; intros s Hsq Hall; simpl.
  - eexists; split; [done|]. by apply Upd_nil.
  - apply Forall_cons_1 in Hall as [[Ha1 Ha2] Hall].
    destruct (update_cell_Upd s _ _ Hsq Ha1 Ha2) as (s1 & E1 & H1).
    destruct (IH s1) as (s' & E2 & H2); [apply H1|done|].
    exists s'; split; [by rewrite E1|].
    destruct (pos a) as [r c] eqn:E. simpl in H1.
    by apply (Upd_app [(r, c)] _ s s1 s').
Qed.

(** The two nested loops over a box. *)
Lemma for_each_box_Upd (rows : list Z) (lo : Z) (s : Sudoku) :
  square n (cell s) →
  Forall (in_bounds n) rows →
  Forall (in_bounds n) (range lo (lo + box_size s)) →
  ∃ s', for_each rows
          (λ s r, for_each (range lo (lo + box_size s))
                    (λ s' c, update_cell s' r c m) s) s = Ok s' ∧
        Upd (pairs rows (range lo (lo + box_size s))) s s'.
Proof.
  revert s. induction rows as [|r rows IH]; intros s Hsq Hrows Hcols; simpl.
  - eexists; split; [done|]. by apply Upd_nil.
  - apply Forall_cons_1 in Hrows as [Hr Hrows].
    destruct (for_each_Upd (range lo (lo + box_size s)) (λ c, (r, c)) s Hsq)
      as (s1 & E1 & H1).
    { eapply list.Forall_impl; [exact Hcols|]. simpl; auto. }
    simpl in E1.
    assert (box_size s1 = box_size s) as Eb by apply H1.
    destruct (IH s1) as (s' & E2 & H2); [apply H1|done|by rewrite Eb|].
    exists s'; split; [by rewrite E1|].
    rewrite Eb in H2. by eapply Upd_app.
Qed.
End updates.

(** ** Candidate lists *)

Lemma list_remove_sublist (x : Z) (l : list Z) : list_remove x l `sublist_of` l.
Proof.
  induction l as [|y l IH]; simpl; [done|].
  case_bool_decide; [by apply sublist_cons|by apply sublist_skip].
Qed.

Lemma ascending_sublist (l1 l2 : list Z) :
  l1 `sublist_of` l2 → ascending l2 → ascending l1.
Proof.
  unfold ascending. induction 1 as [|x l1 l2 Hsub IH|x l1 l2 Hsub IH];
    rewrite ?StronglySorted_cons; [done|..].
  - intros [Hall ?]. split; [|auto].
    apply list.Forall_forall. intros y Hy.
    apply (proj1 (list.Forall_forall _ _) Hall). by eapply elem_of_sublist.
  - intros [_ ?]; auto.
Qed.

Lemma ascending_NoDup (l : list Z) : ascending l → NoDup l.
Proof.
  unfold ascending. induction l as [|x l IH]; [constructor|].
  rewrite StronglySorted_cons, NoDup_cons. intros [Hall ?]. split; [|auto].
  intros Hx. apply (proj1 (list.Forall_forall _ _) Hall) in Hx. lia.
Qed.

Lemma ascending_seqZ (k : nat) (lo : Z) : ascending (seqZ lo (Z.of_nat k)).
Proof.
  revert lo. induction k as [|k IH]; intros lo.
  - rewrite seqZ_nil by lia. constructor.
  - rewrite seqZ_cons by lia. apply StronglySorted_cons. split.
    + apply list.Forall_forall. intros y Hy. apply elem_of_seqZ in Hy. lia.
    + replace (Z.pred (Z.of_nat (S k))) with (Z.of_nat k) by lia. apply IH.
Qed.

Lemma ascending_range (lo hi : Z) : ascending (range lo hi).
Proof.
  unfold range. destruct (decide (hi - lo ≤ 0)).
  - rewrite seqZ_nil by done. constructor.
  - rewrite <- (Z2Nat.id (hi - lo)) by lia. apply ascending_seqZ.
Qed.

Lemma list_remove_notin (x : Z) (l : list Z) : NoDup l → x ∉ list_remove x l.
Proof.
  induction l as [|y l IH]; simpl; [intros _; apply not_elem_of_nil|].
  rewrite NoDup_cons. intros [Hy Hl]. case_bool_decide as E.
  - by subst.
  - rewrite not_elem_of_cons. auto.
Qed.

Lemma list_remove_other (x y : Z) (l : list Z) :
  y ≠ x → y ∈ list_remove x l ↔ y ∈ l.
Proof.
  intros Hne. induction l as [|z l IH]; simpl; [done|].
  case_bool_decide as E.
  - subst z. rewrite elem_of_cons. split; [auto|]. by intros [?|?].
  - by rewrite !elem_of_cons, IH.
Qed.

(** What repeated [remove_from_possible(v)] makes of a cell. *)
Section elimination.
Context (v : Z).
Let rm : Cell → Cell := λ x, remove_from_possible x v.

Lemma rm_value (c : Cell) : value (rm c) = value c.
Proof. unfold rm, remove_from_possible. by case_bool_decide. Qed.

Lemma rm_max (c : Cell) : cell_max_val (rm c) = cell_max_val c.
Proof. unfold rm, remove_from_possible. by case_bool_decide. Qed.

Lemma rm_sublist (c : Cell) : possible (rm c) `sublist_of` possible c.
Proof.
  unfold rm, remove_from_possible. case_bool_decide; simpl; [|done].
  apply list_remove_sublist.
Qed.

Lemma rm_notin (c : Cell) : NoDup (possible c) → v ∉ possible (rm c).
Proof.
  unfold rm, remove_from_possible. case_bool_decide; simpl; [|done].
  apply list_remove_notin.
Qed.

Lemma rm_other (c : Cell) (w : Z) : w ≠ v → w ∈ possible (rm c) ↔ w ∈ possible c.
Proof.
  unfold rm, remove_from_possible. case_bool_decide; simpl; [|done].
  apply list_remove_other.
Qed.

Lemma rm_absent (c : Cell) : v ∉ possible c → rm c = c.
Proof. unfold rm, remove_from_possible. by case_bool_decide. Qed.

Lemma iter_rm_value (k : nat) (c : Cell) : value (Nat.iter k rm c) = value c.
Proof. induction k; simpl; [done|]. by rewrite rm_value. Qed.

Lemma iter_rm_max (k : nat) (c : Cell) :
  cell_max_val (Nat.iter k rm c) = cell_max_val c.
Proof. induction k; simpl; [done|]. by rewrite rm_max. Qed.

Lemma iter_rm_sublist (k : nat) (c : Cell) :
  possible (Nat.iter k rm c) `sublist_of` possible c.
Proof.
  induction k; simpl; [done|]. etrans; [apply rm_sublist|done].
Qed.

Lemma iter_rm_notin (k : nat) (c : Cell) :
  NoDup (possible c) → (0 < k)%nat → v ∉ possible (Nat.iter k rm c).
Proof.
  intros Hnd Hk. destruct k as [|k]; [lia|]. simpl. apply rm_notin.
  eapply sublist_NoDup; first [apply iter_rm_sublist|done].
Qed.

Lemma iter_rm_other (k : nat) (c : Cell) (w : Z) :
  w ≠ v → w ∈ possible (Nat.iter k rm c) ↔ w ∈ possible c.
Proof. intros ?. induction k; simpl; [done|]. by rewrite rm_other. Qed.

Lemma iter_rm_absent (k : nat) (c : Cell) :
  v ∉ possible c → Nat.iter k rm c = c.
Proof.
  intros ?. induction k as [|k IH]; simpl; [done|]. rewrite IH. by apply rm_absent.
Qed.
End elimination.

(** ** Boxes

    [remove_value_from_possibles] finds the box of a cell from the
    indices it was given, which may be negative.  The lemmas below relate
    the positions it visits to the box of the position the indices denote. *)

Lemma Z_of_norm (n : nat) (i : Z) :
  in_bounds n i →
  Z.of_nat (norm n i) = if bool_decide (0 ≤ i) then i else Z.of_nat n + i.
Proof. unfold in_bounds, norm. intros. case_bool_decide; lia. Qed.

Lemma box_bounds (b r : Z) :
  0 < b → - (b * b) ≤ r < b * b →
  - (b * b) ≤ r / b * b ∧ r / b * b + b ≤ b * b.
Proof.
  intros Hb Hr.
  assert (- b ≤ r / b) by (apply Z.div_le_lower_bound; lia).
  assert (r / b < b) by (apply Z.div_lt_upper_bound; lia).
  nia.
Qed.

Lemma box_member (b r x : Z) :
  0 < b → r / b * b ≤ x < r / b * b + b → (0 ≤ x ↔ 0 ≤ r) ∧ x / b = r / b.
Proof.
  intros Hb Hx.
  assert (r / b ≤ x / b) by (apply Z.div_le_lower_bound; lia).
  assert (x / b < r / b + 1) by (apply Z.div_lt_upper_bound; lia).
  assert (0 ≤ r → 0 ≤ r / b) by (intros; apply Z.div_pos; lia).
  assert (r < 0 → r / b < 0) by (intros; apply Z.div_lt_upper_bound; lia).
  split; [|lia]. split; intros; [|nia].
  destruct (decide (0 ≤ r)); [done|]. nia.
Qed.

Lemma div_shift (b x : Z) : 0 < b → (b * b + x) / b = b + x / b.
Proof. intros. rewrite Z.add_comm, Z.div_add by lia. lia. Qed.

Lemma box_norm (b : Z) (n : nat) (row x : Z) :
  0 < b → Z.of_nat n = b * b → in_bounds n row →
  row / b * b ≤ x < row / b * b + b →
  in_bounds n x ∧ Z.of_nat (norm n x) / b = Z.of_nat (norm n row) / b.
Proof.
  intros Hb Hn Hrow Hx.
  destruct (box_member b row x Hb Hx) as [Hsign Hdiv].
  assert (in_bounds n x) as Hbx.
  { unfold in_bounds in *. rewrite Hn in *.
    pose proof (box_bounds b row Hb Hrow). lia. }
  split; [done|]. rewrite !Z_of_norm by done. rewrite Hn.
  destruct (decide (0 ≤ row)).
  - by rewrite !bool_decide_true by tauto.
  - rewrite !bool_decide_false by tauto. by rewrite !div_shift, Hdiv.
Qed.

Lemma box_norm_inv (b : Z) (n : nat) (row : Z) (i : nat) :
  0 < b → Z.of_nat n = b * b → in_bounds n row → (i < n)%nat →
  Z.of_nat i / b = Z.of_nat (norm n row) / b →
  ∃ x, row / b * b ≤ x < row / b * b + b ∧ norm n x = i.
Proof.
  intros Hb Hn Hrow Hi. rewrite Z_of_norm by done. unfold in_bounds in Hrow.
  case_bool_decide as Hs; intros Hdiv.
  - exists (Z.of_nat i). split; [|apply norm_nat].
    rewrite <- Hdiv. Z.div_mod_to_equations. nia.
  - exists (Z.of_nat i - Z.of_nat n). rewrite Hn in *.
    rewrite div_shift in Hdiv by done.
    assert (row / b * b ≤ Z.of_nat i - b * b < row / b * b + b) as Hx.
    { replace (row / b) with (Z.of_nat i / b - b) by lia.
      clear Hdiv. Z.div_mod_to_equations. nia. }
    split; [done|]. unfold norm. rewrite bool_decide_false; lia.
Qed.

(** ** Well-formed boards *)

Lemma wf_dim (s : Sudoku) :
  wf s → Z.of_nat (dim s) = box_size s * box_size s.
Proof. intros (? & E & _). unfold dim. rewrite E. lia. Qed.

Lemma wf_box_pos (s : Sudoku) (i : Z) : wf s → in_bounds (dim s) i → 0 < box_size s.
Proof. intros Hwf Hi. pose proof (wf_dim s Hwf). destruct Hwf. unfold in_bounds in Hi. nia. Qed.

Lemma range_in_bounds (n : nat) : Forall (in_bounds n) (range 0 (Z.of_nat n)).
Proof.
  apply list.Forall_forall. intros x Hx. apply elem_of_range in Hx.
  unfold in_bounds; lia.
Qed.

Lemma box_range_in_bounds (s : Sudoku) (row : Z) :
  wf s → in_bounds (dim s) row →
  Forall (in_bounds (dim s))
    (range (row / box_size s * box_size s) (row / box_size s * box_size s + box_size s)).
Proof.
  intros Hwf Hrow. apply list.Forall_forall. intros x Hx. apply elem_of_range in Hx.
  eapply box_norm; eauto using wf_box_pos, wf_dim.
Qed.

Lemma remove_value_from_possibles_Upd (s : Sudoku) (v row col : Z) :
  wf s → in_bounds (dim s) row → in_bounds (dim s) col →
  ∃ s', remove_value_from_possibles s v row col = Ok s' ∧
        Upd (dim s) (λ x, remove_from_possible x v) (visited s row col) s s'.
Proof.
  intros Hwf Hrow Hcol. pose proof Hwf as (Hb & Hmax & Hsq).
  pose proof (wf_box_pos s row Hwf Hrow) as Hpos.
  assert (max_val s = Z.of_nat (dim s)) as Hn by (unfold dim; lia).
  unfold remove_value_from_possibles.
  destruct (for_each_Upd (dim s) (λ x, remove_from_possible x v)
              (range 0 (max_val s)) (λ c, (row, c)) s Hsq) as (s1 & E1 & U1).
  { rewrite Hn. eapply list.Forall_impl; [apply range_in_bounds|]. simpl; auto. }
  simpl in E1. rewrite E1; simpl.
  pose proof U1 as (Eb1 & Em1 & _ & Hsq1 & _).
  destruct (for_each_Upd (dim s) (λ x, remove_from_possible x v)
              (range 0 (max_val s1)) (λ r, (r, col)) s1 Hsq1) as (s2 & E2 & U2).
  { rewrite Em1, Hn. eapply list.Forall_impl; [apply range_in_bounds|]. simpl; auto. }
  simpl in E2. rewrite E2; simpl.
  pose proof U2 as (Eb2 & Em2 & _ & Hsq2 & _).
  assert (box_size s2 = box_size s) as Eb by congruence.
  unfold floordiv. rewrite Eb, bool_decide_false by lia. simpl.
  destruct (for_each_box_Upd (dim s) (λ x, remove_from_possible x v)
              (range (row / box_size s * box_size s)
                     (row / box_size s * box_size s + box_size s))
              (col / box_size s * box_size s) s2 Hsq2) as (s3 & E3 & U3).
  { by apply box_range_in_bounds. }
  { rewrite Eb. by apply box_range_in_bounds. }
  rewrite E3. exists s3; split; [done|].
  unfold visited. rewrite Em1 in U2. rewrite Eb in U3.
  eapply Upd_app; [exact U1|]. eapply Upd_app; [exact U2|exact U3].
Qed.

Lemma visited_hits (s : Sudoku) (row col : Z) (i j : nat) :
  wf s → in_bounds (dim s) row → in_bounds (dim s) col →
  (i < dim s)%nat → (j < dim s)%nat →
  (0 < hits (dim s) (visited s row col) i j)%nat ↔
  peers (box_size s) (norm (dim s) row) (norm (dim s) col) i j.
Proof.
  intros Hwf Hrow Hcol Hi Hj. pose proof (wf_box_pos s row Hwf Hrow) as Hpos.
  pose proof (wf_dim s Hwf) as Hdim.
  assert (max_val s = Z.of_nat (dim s)) as Hn by (destruct Hwf; unfold dim; lia).
  rewrite hits_pos. unfold visited, peers, same_box. split.
  - intros ([r c] & Hin & Hr & Hc). simpl in Hr, Hc.
    rewrite !elem_of_app, !list_elem_of_fmap, elem_of_pairs, !elem_of_range in Hin.
    destruct Hin as [(c' & [= -> ->] & _)|[(r' & [= -> ->] & _)|[Hbr Hbc]]]; auto.
    right; right. subst i j.
    split; symmetry; eapply box_norm; eauto.
  - intros [->|[->|[Hbr Hbc]]].
    + exists (row, Z.of_nat j). rewrite !elem_of_app, list_elem_of_fmap. simpl.
      rewrite norm_nat. split; [|done]. left. exists (Z.of_nat j).
      rewrite elem_of_range. split; [done|lia].
    + exists (Z.of_nat i, col). rewrite !elem_of_app, !list_elem_of_fmap. simpl.
      rewrite norm_nat. split; [|done]. right; left. exists (Z.of_nat i).
      rewrite elem_of_range. split; [done|lia].
    + symmetry in Hbr, Hbc.
      destruct (box_norm_inv _ _ row i Hpos Hdim Hrow Hi Hbr) as (x & Hx & Ex).
      destruct (box_norm_inv _ _ col j Hpos Hdim Hcol Hj Hbc) as (y & Hy & Ey).
      exists (x, y). rewrite !elem_of_app, elem_of_pairs, !elem_of_range. auto.
Qed.

(** ** [set_cell] *)

(** [set_cell] returns [False] exactly when the cell exists and does not
    list the value as a candidate; the board is then left as it was. *)
Lemma set_cell_false_iff (s : Sudoku) (v row col : Z) (s' : Sudoku) :
  set_cell s v row col = Ok (false, s') ↔
  ∃ c, get_cell s row col = Ok c ∧ (v ∉ possible c) ∧ s' = s.
Proof.
  unfold set_cell. split.
  - intros H. apply bind_Ok in H as (c & Hc & H). exists c.
    case_bool_decide as Hv; simpl in H; [|by injection H as <-].
    apply bind_Ok in H as (s1 & _ & H). apply bind_Ok in H as (s3 & _ & H).
    discriminate.
  - intros (c & -> & Hv & ->). simpl. by rewrite bool_decide_false.
Qed.

Lemma set_cell_true_inv (s : Sudoku) (v row col : Z) (s' : Sudoku) :
  set_cell s v row col = Ok (true, s') →
  ∃ c, get_cell s row col = Ok c ∧ v ∈ possible c.
Proof.
  unfold set_cell. intros H. apply bind_Ok in H as (c & Hc & H). exists c.
  split; [done|]. by case_bool_decide.
Qed.

Lemma set_cell_assigned (s : Sudoku) (v row col : Z) (c : Cell) :
  wf s → get_cell s row col = Ok c → v ∈ possible c → v ≠ 0 →
  ∃ s', set_cell s v row col = Ok (true, s') ∧ assigned s v row col s'.
Proof.
  intros Hwf Hc Hv Hv0. pose proof Hwf as (Hb & Hmax & Hsq).
  pose proof Hc as Hc'. apply (get_cell_Ok _ _ _ _ _ Hsq) in Hc' as (Hrow & Hcol & Hat).
  unfold set_cell. rewrite Hc; simpl. rewrite bool_decide_true by done; simpl.
  destruct (update_cell_Upd (dim s) (λ x, Cell_set x v) s row col Hsq Hrow Hcol)
    as (s1 & E1 & U1).
  rewrite E1; simpl. destruct U1 as (Eb1 & Em1 & Ef1 & Hsq1 & H1).
  set (s2 := {| box_size := box_size s1; max_val := max_val s1;
                cells_filled := cells_filled s1 + 1; cell := cell s1 |}).
  assert (dim s2 = dim s) as Ed by (unfold dim; simpl; by rewrite Em1).
  assert (wf s2) as Hwf2.
  { unfold wf. rewrite Ed. simpl. by rewrite Eb1, Em1. }
  destruct (remove_value_from_possibles_Upd s2 v row col Hwf2) as (s3 & E3 & U3);
    [by rewrite Ed..|].
  rewrite E3; simpl. exists s3; split; [done|].
  destruct U3 as (Eb3 & Em3 & Ef3 & Hsq3 & H3). rewrite Ed in Hsq3, H3.
  unfold assigned. simpl in *. split_and!; try congruence.
  intros i j x Hx. rewrite H3, H1, Hx. simpl. f_equal.
  unfold hits at 2. simpl. rewrite filter_cons, filter_nil. simpl.
  destruct (decide (i = norm (dim s) row ∧ j = norm (dim s) col)) as [[-> ->]|Hne].
  - rewrite decide_True by done. simpl.
    rewrite Hat in Hx. injection Hx as <-.
    unfold Cell_set, Cell_init. rewrite bool_decide_false by done.
    apply iter_rm_absent. simpl. apply not_elem_of_nil.
  - rewrite decide_False by (intros [<- <-]; by apply Hne). simpl.
    replace (visited s2 row col) with (visited s row col); [done|].
    unfold visited. simpl. by rewrite Eb1, Em1.
Qed.

Lemma assigned_wf (s : Sudoku) (v row col : Z) (s' : Sudoku) :
  wf s → assigned s v row col s' → wf s'.
Proof.
  intros (? & ? & ?) (Eb & Em & _ & ? & _). unfold wf, dim in *.
  rewrite Eb, Em. done.
Qed.

(** ** Open cells: the measure that makes the loops terminate *)

Lemma elem_of_positions (n i j : nat) :
  (i, j) ∈ positions n ↔ (i < n)%nat ∧ (j < n)%nat.
Proof.
  unfold positions. rewrite list_elem_of_cprod. simpl.
  rewrite !elem_of_seq. lia.
Qed.

Lemma length_positions (n : nat) : length (positions n) = (n * n)%nat.
Proof.
  unfold positions. rewrite list_cprod_list_prod, length_prod, !length_seq. done.
Qed.

Lemma sum_list_with_le {A : Type} (f g : A → nat) (l : list A) :
  (∀ x, x ∈ l → (f x ≤ g x)%nat) → (sum_list_with f l ≤ sum_list_with g l)%nat.
Proof.
  induction l as [|x l IH]; simpl; intros H; [done|].
  pose proof (H x (list_elem_of_here _ _)).
  assert (sum_list_with f l ≤ sum_list_with g l)%nat
    by (apply IH; intros; apply H; by right).
  lia.
Qed.

Lemma sum_list_with_lt {A : Type} (f g : A → nat) (l : list A) (x0 : A) :
  (∀ x, x ∈ l → (f x ≤ g x)%nat) → x0 ∈ l → (f x0 < g x0)%nat →
  (sum_list_with f l < sum_list_with g l)%nat.
Proof.
  intros Hle Hin Hlt. apply list_elem_of_split in Hin as (l1 & l2 & ->).
  rewrite !sum_list_with_app. simpl.
  assert (sum_list_with f l1 ≤ sum_list_with g l1)%nat.
  { apply sum_list_with_le. intros; apply Hle. rewrite elem_of_app; auto. }
  assert (sum_list_with f l2 ≤ sum_list_with g l2)%nat.
  { apply sum_list_with_le. intros; apply Hle.
    rewrite elem_of_app, elem_of_cons; auto. }
  lia.
Qed.

Lemma open_le (s : Sudoku) : (open s ≤ dim s * dim s)%nat.
Proof.
  unfold open. rewrite <- length_positions.
  induction (positions (dim s)) as [|p l IH]; simpl; [done|].
  assert (open_at (cell s) p ≤ 1)%nat; [|lia].
  unfold open_at. destruct (cell_at _ _ _); [case_decide|]; lia.
Qed.

(** A successful assignment closes the cell and reopens none. *)
Lemma open_assigned (s : Sudoku) (v row col : Z) (c : Cell) (s' : Sudoku) :
  wf s → get_cell s row col = Ok c → v ∈ possible c →
  assigned s v row col s' → (open s' < open s)%nat.
Proof.
  intros Hwf Hc Hv (Eb & Em & _ & Hsq' & Hcells).
  pose proof Hwf as (_ & _ & Hsq).
  apply (get_cell_Ok _ _ _ _ _ Hsq) in Hc as (Hrow & Hcol & Hat).
  unfold open. replace (dim s') with (dim s) by (unfold dim; by rewrite Em).
  apply sum_list_with_lt with (x0 := (norm (dim s) row, norm (dim s) col)).
  - intros [i j] Hin. apply elem_of_positions in Hin as [Hi Hj].
    destruct (square_cell_at _ _ i j Hsq Hi Hj) as [x Hx].
    unfold open_at; cbn [fst snd]. rewrite (Hcells _ _ _ Hx), Hx.
    match goal with |- context [decide (possible ?y = [])] => set (c' := y) end.
    assert (possible c' `sublist_of` possible x) as Hsub.
    { unfold c'. case_decide; [apply sublist_nil_l|apply iter_rm_sublist]. }
    destruct (decide (possible x = [])) as [E|];
      destruct (decide (possible c' = [])) as [E'|]; try lia.
    rewrite E in Hsub. by apply sublist_nil_r in Hsub.
  - apply elem_of_positions. split; by apply norm_lt.
  - unfold open_at; cbn [fst snd]. rewrite (Hcells _ _ _ Hat), Hat.
    rewrite (decide_True (P := _ ∧ _)) by done. cbn [possible].
    rewrite (decide_True (P := [] = [])) by done.
    rewrite decide_False; [lia|]. intros E. rewrite E in Hv.
    by apply elem_of_nil in Hv.
Qed.

(** ** The board invariant *)

Lemma peers_sym (b : Z) (i j i' j' : nat) : peers b i j i' j' → peers b i' j' i j.
Proof. unfold peers, same_box. intros [->|[->|[? ?]]]; auto. Qed.

Lemma cell_at_init (bs : Z) (i j : nat) (c : Cell) :
  cell_at (cell (Sudoku_init bs)) i j = Some c → c = Cell_init 0 (bs ^ 2).
Proof.
  unfold cell_at, Sudoku_init; simpl. rewrite list_lookup_fmap.
  destruct (range 0 (bs ^ 2) !! i); simpl; [|done].
  rewrite list_lookup_fmap. destruct (range 0 (bs ^ 2) !! j); simpl; [|done].
  by intros [= <-].
Qed.

Lemma wf_init (bs : Z) : 0 ≤ bs → wf (Sudoku_init bs).
Proof.
  intros Hbs. unfold wf, dim, square; simpl. split_and!; [done..| |].
  - unfold range. rewrite length_fmap, length_seqZ. f_equal; lia.
  - intros i r. rewrite list_lookup_fmap.
    destruct (range 0 (bs ^ 2) !! i); simpl; [|done]. intros [= <-].
    unfold range. rewrite length_fmap, length_seqZ. f_equal; lia.
Qed.

Lemma Inv_init (bs : Z) : 0 ≤ bs → Inv (Sudoku_init bs).
Proof.
  intros Hbs. split.
  - by apply wf_init.
  - intros i j c Hc. apply cell_at_init in Hc as ->.
    unfold Cell_init; simpl. split_and!; try done.
    + apply ascending_range.
    + intros w Hw. apply elem_of_range in Hw. lia.
    + lia.
  - intros i j c i' j' c' Hc. apply cell_at_init in Hc as ->. done.
  - intros i j c i' j' c' Hc. apply cell_at_init in Hc as ->. done.
  - split; simpl; [done|]. pose proof (open_le (Sudoku_init bs)). lia.
Qed.

Lemma assigned_cell (s : Sudoku) (v row col : Z) (s' : Sudoku) (i j : nat) (c' : Cell) :
  wf s → assigned s v row col s' → cell_at (cell s') i j = Some c' →
  (i < dim s)%nat ∧ (j < dim s)%nat ∧
  ∃ x, cell_at (cell s) i j = Some x ∧
       c' = if decide (i = norm (dim s) row ∧ j = norm (dim s) col)
            then mkCell v [] (cell_max_val x)
            else Nat.iter (hits (dim s) (visited s row col) i j)
                   (λ x, remove_from_possible x v) x.
Proof.
  intros (_ & _ & Hsq) (_ & _ & _ & Hsq' & Hcells) Hc'.
  destruct (cell_at_lt _ _ _ _ _ Hsq' Hc') as [Hi Hj]. split_and!; [done..|].
  destruct (square_cell_at _ _ i j Hsq Hi Hj) as [x Hx]. exists x.
  split; [done|]. rewrite (Hcells _ _ _ Hx) in Hc'. by injection Hc' as <-.
Qed.

Lemma Inv_assigned (s : Sudoku) (v row col : Z) (c0 : Cell) (s' : Sudoku) :
  Inv s → get_cell s row col = Ok c0 → v ∈ possible c0 →
  assigned s v row col s' → Inv s'.
Proof.
  intros [Hwf Hcells Helim Huniq Hcount] Hc0 Hv Has.
  pose proof Hwf as (_ & _ & Hsq).
  pose proof Hc0 as Hget.
  apply (get_cell_Ok _ _ _ _ _ Hsq) in Hc0 as (Hrow & Hcol & Hat).
  pose proof Has as (Eb & Em & Ef & Hsq' & _).
  destruct (Hcells _ _ _ Hat) as (_ & Hrange0 & _ & _).
  pose proof (Hrange0 _ Hv) as Hvr.
  (* no cell that shares a unit with the assigned one already holds [v] *)
  assert (∀ i j x, cell_at (cell s) i j = Some x →
            peers (box_size s) i j (norm (dim s) row) (norm (dim s) col) →
            value x ≠ v) as Hfree.
  { intros i j x Hx Hp E. apply (Helim _ _ _ _ _ _ Hx Hat Hp); rewrite E; [lia|done]. }
  split.
  - by eapply assigned_wf.
  - intros i j c' Hc'.
    destruct (assigned_cell _ _ _ _ _ _ _ _ Hwf Has Hc') as (_ & _ & x & Hx & ->).
    destruct (Hcells _ _ _ Hx) as (Hasc & Hrange & Hfill & Hval). rewrite Em.
    case_decide; simpl.
    + split_and!; [constructor|by intros ? ?%elem_of_nil|done|lia..].
    + rewrite iter_rm_value. split_and!; [| | |lia..].
      * eapply ascending_sublist; [apply iter_rm_sublist|done].
      * intros w Hw. apply Hrange. eapply elem_of_sublist; [done|apply iter_rm_sublist].
      * intros Hne. apply sublist_nil_r. rewrite <- (Hfill Hne). apply iter_rm_sublist.
  - intros i j c i' j' c' Hc Hc' Hp Hne. rewrite Eb in Hp.
    destruct (assigned_cell _ _ _ _ _ _ _ _ Hwf Has Hc) as (_ & _ & x & Hx & ->).
    destruct (assigned_cell _ _ _ _ _ _ _ _ Hwf Has Hc') as (Hi' & Hj' & x' & Hx' & ->).
    destruct (decide (i' = _ ∧ j' = _)) as [_|Hq]; simpl; [apply not_elem_of_nil|].
    destruct (decide (i = _ ∧ j = _)) as [[-> ->]|Hq']; simpl in *.
    + apply iter_rm_notin.
      * apply ascending_NoDup. by destruct (Hcells _ _ _ Hx') as (? & _).
      * by apply visited_hits.
    + rewrite iter_rm_value in *. intros Hin.
      apply (Helim _ _ _ _ _ _ Hx Hx' Hp Hne).
      eapply elem_of_sublist; [done|apply iter_rm_sublist].
  - intros i j c i' j' c' Hc Hc' Hpq Hp Hne. rewrite Eb in Hp.
    destruct (assigned_cell _ _ _ _ _ _ _ _ Hwf Has Hc) as (_ & _ & x & Hx & ->).
    destruct (assigned_cell _ _ _ _ _ _ _ _ Hwf Has Hc') as (_ & _ & x' & Hx' & ->).
    destruct (decide (i = _ ∧ j = _)) as [[-> ->]|Hq];
      destruct (decide (i' = _ ∧ j' = _)) as [[-> ->]|Hq']; simpl in *;
      rewrite ?iter_rm_value in *.
    + done.
    + intros E. by apply (Hfree _ _ _ Hx' (peers_sym _ _ _ _ _ Hp)).
    + by apply (Hfree _ _ _ Hx Hp).
    + by apply (Huniq _ _ _ _ _ _ Hx Hx').
  - destruct Hcount as [H0 Hle]. unfold counted.
    replace (dim s') with (dim s) by (unfold dim; by rewrite Em).
    pose proof (open_assigned _ _ _ _ _ _ Hwf Hget Hv Has). lia.
Qed.

(** A successful assignment, in full. *)
Lemma set_cell_success (s : Sudoku) (v row col : Z) (c : Cell) :
  Inv s → get_cell s row col = Ok c → v ∈ possible c →
  ∃ s', set_cell s v row col = Ok (true, s') ∧ assigned s v row col s' ∧
        Inv s' ∧ (open s' < open s)%nat.
Proof.
  intros HI Hc Hv. pose proof (inv_wf _ HI) as Hwf.
  assert (v ≠ 0) as Hv0.
  { pose proof Hwf as (_ & _ & Hsq).
    pose proof Hc as Hc'. apply (get_cell_Ok _ _ _ _ _ Hsq) in Hc' as (_ & _ & Hat).
    destruct (inv_cells _ HI _ _ _ Hat) as (_ & Hr & _). specialize (Hr _ Hv). lia. }
  destruct (set_cell_assigned _ _ _ _ _ Hwf Hc Hv Hv0) as (s' & E & Has).
  exists s'. split_and!; [done..| |].
  - by eapply Inv_assigned.
  - by eapply open_assigned.
Qed.

Lemma set_cell_Inv (s : Sudoku) (v row col : Z) (ok : bool) (s' : Sudoku) :
  Inv s → set_cell s v row col = Ok (ok, s') → Inv s'.
Proof.
  intros HI H. destruct ok.
  - destruct (set_cell_true_inv _ _ _ _ _ H) as (c & Hc & Hv).
    destruct (set_cell_success _ _ _ _ _ HI Hc Hv) as (s'' & E & _ & HI' & _).
    rewrite E in H. by injection H as <-.
  - apply set_cell_false_iff in H as (c & _ & _ & ->). done.
Qed.

(** ** The scanning methods *)

Lemma coords_in_bounds (s : Sudoku) (r c : Z) :
  wf s → (r, c) ∈ coords s → in_bounds (dim s) r ∧ in_bounds (dim s) c.
Proof.
  intros (? & ? & _). unfold coords, in_bounds, dim.
  rewrite elem_of_pairs, !elem_of_range. lia.
Qed.

Lemma coords_complete (s : Sudoku) (i j : nat) :
  (i < dim s)%nat → (j < dim s)%nat → (Z.of_nat i, Z.of_nat j) ∈ coords s.
Proof.
  unfold coords, dim. rewrite elem_of_pairs, !elem_of_range. lia.
Qed.

Lemma get_cell_total (s : Sudoku) (r c : Z) :
  wf s → in_bounds (dim s) r → in_bounds (dim s) c → ∃ x, get_cell s r c = Ok x.
Proof.
  intros (_ & _ & Hsq) Hr Hc.
  destruct (square_cell_at _ _ (norm (dim s) r) (norm (dim s) c) Hsq) as [x Hx];
    [by apply norm_lt..|].
  exists x. by apply (get_cell_Ok _ _ _ _ _ Hsq).
Qed.

Lemma get_cell_nat (s : Sudoku) (i j : nat) (x : Cell) :
  wf s → cell_at (cell s) i j = Some x →
  get_cell s (Z.of_nat i) (Z.of_nat j) = Ok x.
Proof.
  intros (_ & _ & Hsq) Hx. destruct (cell_at_lt _ _ _ _ _ Hsq Hx).
  apply (get_cell_Ok _ _ _ _ _ Hsq). rewrite !norm_nat.
  split_and!; [by apply in_bounds_nat..|done].
Qed.

(** A scan returns the first position of the list whose cell satisfies
    the test, and [None] when there is none. *)
Lemma scan_spec (s : Sudoku) (p : Cell → bool) (L : list (Z * Z)) :
  wf s → (∀ r c, (r, c) ∈ L → in_bounds (dim s) r ∧ in_bounds (dim s) c) →
  ∃ o, scan s p L = Ok o ∧
       match o with
       | Some (r, c) =>
           ∃ L1 L2 x, L = L1 ++ (r, c) :: L2 ∧ get_cell s r c = Ok x ∧ p x = true ∧
             ∀ r' c' x', (r', c') ∈ L1 → get_cell s r' c' = Ok x' → p x' = false
       | None => ∀ r c x, (r, c) ∈ L → get_cell s r c = Ok x → p x = false
       end.
Proof.
  intros Hwf. induction L as [|[r c] L IH]; intros Hin; simpl.
  - exists None; split; [done|]. by intros ? ? ? ?%elem_of_nil.
  - destruct (Hin r c (list_elem_of_here _ _)) as [Hr Hc].
    destruct (get_cell_total s r c Hwf Hr Hc) as [x Hx]. rewrite Hx; simpl.
    destruct (p x) eqn:Hp.
    + exists (Some (r, c)); split; [done|]. exists [], L, x.
      split_and!; [done..|]. by intros ? ? ? ?%elem_of_nil.
    + destruct IH as (o & -> & Ho); [intros; apply Hin; by right|].
      exists o; split; [done|]. destruct o as [[r1 c1]|].
      * destruct Ho as (L1 & L2 & x1 & -> & Hx1 & Hp1 & Hbefore).
        exists ((r, c) :: L1), L2, x1. split_and!; [done..|].
        intros r' c' x'. rewrite elem_of_cons. intros [[= -> ->]|?] Hx'.
        -- rewrite Hx in Hx'. by injection Hx' as <-.
        -- eauto.
      * intros r' c' x'. rewrite elem_of_cons. intros [[= -> ->]|?] Hx'.
        -- rewrite Hx in Hx'. by injection Hx' as <-.
        -- eauto.
Qed.

(** The same for a scan of the whole board. *)
Lemma scan_board (s : Sudoku) (p : Cell → bool) :
  wf s →
  ∃ o, scan s p (coords s) = Ok o ∧
       match o with
       | Some (r, c) =>
           in_bounds (dim s) r ∧ in_bounds (dim s) c ∧
           ∃ x, get_cell s r c = Ok x ∧ p x = true
       | None => ∀ i j x, cell_at (cell s) i j = Some x → p x = false
       end.
Proof.
  intros Hwf.
  destruct (scan_spec s p (coords s) Hwf) as (o & E & Ho);
    [intros; by apply coords_in_bounds|].
  exists o; split; [done|]. destruct o as [[r c]|].
  - destruct Ho as (L1 & L2 & x & EL & Hx & Hp & _).
    assert ((r, c) ∈ coords s) as Hin
      by (rewrite EL, elem_of_app, elem_of_cons; auto).
    apply coords_in_bounds in Hin as [? ?]; [|done]. eauto.
  - intros i j x Hx. pose proof Hwf as (_ & _ & Hsq).
    destruct (cell_at_lt _ _ _ _ _ Hsq Hx).
    apply (Ho (Z.of_nat i) (Z.of_nat j) x);
      [by apply coords_complete|by apply get_cell_nat].
Qed.

Lemma solved_spec (s : Sudoku) :
  wf s →
  ∃ b : bool, solved s = Ok b ∧
    if b then full s
    else ∃ i j x, cell_at (cell s) i j = Some x ∧ value x = 0.
Proof.
  intros Hwf. unfold solved.
  destruct (scan_board s (λ x, bool_decide (value x = 0)) Hwf) as (o & -> & Ho).
  simpl. eexists; split; [done|]. destruct o as [[r c]|].
  - rewrite bool_decide_true by done. simpl.
    destruct Ho as (Hr & Hc & x & Hx & Hp). pose proof Hwf as (_ & _ & Hsq).
    apply (get_cell_Ok _ _ _ _ _ Hsq) in Hx as (_ & _ & Hx).
    apply bool_decide_eq_true in Hp. eauto.
  - rewrite bool_decide_false by (by intros [? ?]). simpl.
    intros i j x Hx. specialize (Ho _ _ _ Hx). by apply bool_decide_eq_false in Ho.
Qed.

Lemma reached_dead_end_spec (s : Sudoku) :
  wf s →
  ∃ b : bool, reached_dead_end s = Ok b ∧
    if b then ∃ i j x, cell_at (cell s) i j = Some x ∧ value x = 0 ∧ possible x = []
    else ∀ i j x, cell_at (cell s) i j = Some x → value x = 0 → possible x ≠ [].
Proof.
  intros Hwf. unfold reached_dead_end.
  destruct (scan_board s (λ x, bool_decide (value x = 0) &&
              bool_decide (length (possible x) = 0%nat)) Hwf) as (o & -> & Ho).
  simpl. eexists; split; [done|]. destruct o as [[r c]|].
  - rewrite bool_decide_true by done.
    destruct Ho as (Hr & Hc & x & Hx & Hp). pose proof Hwf as (_ & _ & Hsq).
    apply (get_cell_Ok _ _ _ _ _ Hsq) in Hx as (_ & _ & Hx).
    apply andb_true_iff in Hp as [Hv Hl].
    apply bool_decide_eq_true in Hv, Hl. apply length_zero_iff_nil in Hl. eauto 6.
  - rewrite bool_decide_false by (by intros [? ?]).
    intros i j x Hx Hv E. specialize (Ho _ _ _ Hx). rewrite E in Ho. simpl in Ho.
    rewrite bool_decide_true in Ho by done. done.
Qed.

Lemma find_one_possible_spec (s : Sudoku) :
  wf s →
  ∃ o, find_one_possible s = Ok o ∧
       match o with
       | Some (r, c) => ∃ x w, get_cell s r c = Ok x ∧ possible x = [w]
       | None => ∀ i j x, cell_at (cell s) i j = Some x → length (possible x) ≠ 1%nat
       end.
Proof.
  intros Hwf. unfold find_one_possible.
  destruct (scan_board s (λ x, bool_decide (length (possible x) = 1%nat)) Hwf)
    as (o & -> & Ho).
  exists o; split; [done|]. destruct o as [[r c]|].
  - destruct Ho as (_ & _ & x & Hx & Hp). apply bool_decide_eq_true in Hp.
    exists x. destruct (possible x) as [|w [|? ?]] eqn:E; try done. eauto.
  - intros i j x Hx. specialize (Ho _ _ _ Hx). by apply bool_decide_eq_false in Ho.
Qed.

Lemma for_each_inv {A S : Type} (J : list A → S → Prop) (l : list A)
    (body : S → A → res S) (s : S) :
  J [] s →
  (∀ l1 x t, J l1 t → x ∈ l → ∃ t', body t x = Ok t' ∧ J (l1 ++ [x]) t') →
  ∃ s', for_each l body s = Ok s' ∧ J l s'.
Proof.
  intros H0. induction l as [|x l IH] using rev_ind; intros Hstep.
  - by exists s.
  - destruct IH as (s1 & E1 & H1).
    { intros l1 y t Ht Hy. apply Hstep; [done|]. rewrite elem_of_app; auto. }
    destruct (Hstep l x s1 H1) as (s2 & E2 & H2).
    { rewrite elem_of_app, elem_of_cons; auto. }
    exists s2. rewrite for_each_app, E1. simpl. by rewrite E2.
Qed.

Lemma ascending_length (l : list Z) (n : Z) :
  ascending l → (∀ w, w ∈ l → 1 ≤ w ≤ n) → Z.of_nat (length l) ≤ Z.max 0 n.
Proof.
  intros Hasc Hr.
  assert (l ⊆+ seqZ 1 n) as Hsub.
  { apply NoDup_submseteq; [by apply ascending_NoDup|].
    intros w Hw. apply elem_of_seqZ. specialize (Hr _ Hw). lia. }
  apply submseteq_length in Hsub. rewrite length_seqZ in Hsub. lia.
Qed.

(** [find_lowest_possibles] returns an open cell with the fewest
    candidates whenever the board has an open cell. *)
Lemma find_lowest_possibles_spec (s : Sudoku) :
  Inv s →
  (∃ i j y, cell_at (cell s) i j = Some y ∧ possible y ≠ []) →
  ∃ r c x, find_lowest_possibles s = Ok (r, c) ∧ get_cell s r c = Ok x ∧
           possible x ≠ [] ∧
           ∀ i j y, cell_at (cell s) i j = Some y → possible y ≠ [] →
                    (length (possible x) ≤ length (possible y))%nat.
Proof.
  intros HI (i0 & j0 & y0 & Hy0 & Hne0). pose proof (inv_wf _ HI) as Hwf.
  pose proof Hwf as (_ & _ & Hsq).
  set (J := λ (L : list (Z * Z)) (acc : Z * Z * Z),
    let '(lr, lc, lp) := acc in
    (acc = (-1, -1, max_val s + 1) ∧
     ∀ r c y, (r, c) ∈ L → get_cell s r c = Ok y → possible y = []) ∨
    (∃ x, get_cell s lr lc = Ok x ∧ lp = Z.of_nat (length (possible x)) ∧
          0 < lp ∧
          ∀ r c y, (r, c) ∈ L → get_cell s r c = Ok y → possible y ≠ [] →
                   lp ≤ Z.of_nat (length (possible y)))).
  unfold find_lowest_possibles.
  match goal with |- context [for_each _ ?body ?init] =>
    destruct (for_each_inv J (coords s) body init) as (acc & -> & Hacc)
  end.
  { left. split; [reflexivity|]. intros r c y Hin. by apply elem_of_nil in Hin. }
  { intros L1 [r c] [[lr lc] lp] HJ Hin.
    destruct (coords_in_bounds _ _ _ Hwf Hin) as [Hr Hc].
    destruct (get_cell_total s r c Hwf Hr Hc) as [x Hx]. rewrite Hx; simpl.
    pose proof Hx as Hat. apply (get_cell_Ok _ _ _ _ _ Hsq) in Hat as (_ & _ & Hat).
    destruct (inv_cells _ HI _ _ _ Hat) as (Hasc & Hrange & _).
    pose proof (ascending_length _ _ Hasc Hrange) as Hlen.
    assert (0 ≤ max_val s) by (destruct Hwf as (? & -> & _); lia).
    destruct (decide (possible x = [])) as [E|E].
    - rewrite E; simpl. try rewrite bool_decide_false by lia. simpl.
      eexists; split; [done|].
      destruct HJ as [[[= -> -> ->] Hnone]|(x1 & Hx1 & -> & Hpos & Hmin)].
      + left. split; [done|]. intros r' c' y. rewrite elem_of_app, list_elem_of_singleton.
        intros [?|[= -> ->]] Hy; [eauto|]. rewrite Hx in Hy. by injection Hy as <-.
      + right. exists x1. split_and!; [done..|].
        intros r' c' y. rewrite elem_of_app, list_elem_of_singleton.
        intros [?|[= -> ->]] Hy Hne; [eauto|]. rewrite Hx in Hy. injection Hy as <-. done.
    - assert (0 < Z.of_nat (length (possible x))) by (destruct (possible x); simpl; [done|lia]).
      rewrite bool_decide_true by lia. simpl.
      destruct HJ as [[[= -> -> ->] Hnone]|(x1 & Hx1 & -> & Hpos & Hmin)].
      + rewrite bool_decide_true by lia. eexists; split; [done|].
        right. exists x. split_and!; [done..|].
        intros r' c' y. rewrite elem_of_app, list_elem_of_singleton.
        intros [?|[= -> ->]] Hy Hne.
        * by rewrite (Hnone _ _ _ H1 Hy) in Hne.
        * rewrite Hx in Hy. by injection Hy as <-.
      + case_bool_decide as Hlt; (eexists; split; [done|]); right.
        * exists x. split_and!; [done..|].
          intros r' c' y. rewrite elem_of_app, list_elem_of_singleton.
          intros [?|[= -> ->]] Hy Hne.
          -- specialize (Hmin _ _ _ H1 Hy Hne). lia.
          -- rewrite Hx in Hy. by injection Hy as <-.
        * exists x1. split_and!; [done..|].
          intros r' c' y. rewrite elem_of_app, list_elem_of_singleton.
          intros [?|[= -> ->]] Hy Hne; [eauto|].
          rewrite Hx in Hy. injection Hy as <-. lia. }
  simpl. destruct acc as [[lr lc] lp]. simpl. exists lr, lc.
  destruct (cell_at_lt _ _ _ _ _ Hsq Hy0) as [Hi0 Hj0].
  pose proof (get_cell_nat _ _ _ _ Hwf Hy0) as Hg0.
  pose proof (coords_complete s i0 j0 Hi0 Hj0) as Hin0.
  destruct Hacc as [[_ Hnone]|(x & Hx & -> & Hpos & Hmin)].
  - by rewrite (Hnone _ _ _ Hin0 Hg0) in Hne0.
  - exists x. split_and!; [done..| |].
    + intros E. rewrite E in Hpos. simpl in Hpos. lia.
    + intros i j y Hy Hne. destruct (cell_at_lt _ _ _ _ _ Hsq Hy) as [Hi Hj].
      pose proof (Hmin _ _ _ (coords_complete s i j Hi Hj)
                    (get_cell_nat _ _ _ _ Hwf Hy) Hne). lia.
Qed.

(** ** [fill_in_all_knowns] *)

(** One turn of the loop: the cell found has a single candidate, and
    assigning it succeeds. *)
Lemma fill_step (s : Sudoku) (r c : Z) :
  Inv s → find_one_possible s = Ok (Some (r, c)) →
  ∃ x w s1, get_cell s r c = Ok x ∧ possible x = [w] ∧
            getitem (possible x) 0 = Ok w ∧
            set_cell s w r c = Ok (true, s1) ∧ assigned s w r c s1 ∧
            Inv s1 ∧ (open s1 < open s)%nat.
Proof.
  intros HI Hf.
  destruct (find_one_possible_spec s (inv_wf _ HI)) as (o & E & Ho).
  rewrite E in Hf. injection Hf as ->. destruct Ho as (x & w & Hx & Hw).
  destruct (set_cell_success s w r c x HI Hx) as (s1 & ? & ? & ? & ?).
  { rewrite Hw. by left. }
  exists x, w, s1. split_and!; try done. by rewrite Hw.
Qed.

Lemma fill_total (fuel : nat) (s : Sudoku) :
  Inv s → (open s < fuel)%nat →
  ∃ s', fill_in_all_knowns fuel s = Ok s' ∧ Inv s' ∧
        find_one_possible s' = Ok None ∧ (open s' ≤ open s)%nat ∧
        box_size s' = box_size s ∧ max_val s' = max_val s ∧
        cells_filled s ≤ cells_filled s'.
Proof.
  revert s. induction fuel as [|fuel IH]; intros s HI Hlt; [lia|]. simpl.
  destruct (find_one_possible_spec s (inv_wf _ HI)) as ([[r c]|] & E & Ho).
  - destruct (fill_step s r c HI E) as (x & w & s1 & Hx & Hw & Hg & Hs & Has & HI1 & Hop).
    rewrite E; simpl. rewrite Hx; simpl. rewrite Hg; simpl. rewrite Hs; simpl.
    destruct (IH s1 HI1) as (s' & E' & ? & ? & ? & ? & ? & ?); [lia|].
    destruct Has as (Eb & Em & Ef & _).
    exists s'. split_and!; try done; try congruence; lia.
  - rewrite E; simpl. exists s. split_and!; try done; lia.
Qed.

(** A run that returns is made of turns that each assign the lone
    candidate of the cell found, with success. *)
Lemma fill_trace (fuel : nat) (s s' : Sudoku) :
  Inv s → fill_in_all_knowns fuel s = Ok s' →
  ∃ k, fill_run s k s' ∧ cells_filled s' = cells_filled s + Z.of_nat k ∧
       (open s' + k ≤ open s)%nat.
Proof.
  revert s. induction fuel as [|fuel IH]; intros s HI H; [done|]. simpl in H.
  destruct (find_one_possible_spec s (inv_wf _ HI)) as ([[r c]|] & E & Ho).
  - destruct (fill_step s r c HI E) as (x & w & s1 & Hx & Hw & Hg & Hs & Has & HI1 & Hop).
    rewrite E in H; simpl in H. rewrite Hx in H; simpl in H.
    rewrite Hg in H; simpl in H. rewrite Hs in H; simpl in H.
    destruct (IH s1 HI1 H) as (k & Hrun & Hk & Hopk).
    destruct Has as (_ & _ & Ef & _). exists (S k). split_and!; [|lia|lia].
    by apply (fill_run_turn s r c x w s1 k s').
  - rewrite E in H. injection H as <-. exists 0%nat.
    split_and!; [by constructor|lia|lia].
Qed.

(** Whatever the board, the loop ends only when the scan finds nothing. *)
Lemma fill_fixpoint (fuel : nat) (s s' : Sudoku) :
  fill_in_all_knowns fuel s = Ok s' → find_one_possible s' = Ok None.
Proof.
  revert s. induction fuel as [|fuel IH]; intros s H; [done|]. simpl in H.
  apply bind_Ok in H as (o & Ho & H). destruct o as [[r c]|].
  - apply bind_Ok in H as (x & _ & H). apply bind_Ok in H as (w & _ & H).
    apply bind_Ok in H as (r1 & _ & H). eauto.
  - by injection H as <-.
Qed.

Lemma fill_nothing (fuel : nat) (s : Sudoku) :
  find_one_possible s = Ok None → fill_in_all_knowns (S fuel) s = Ok s.
Proof. intros H. simpl. by rewrite H. Qed.

Lemma fill_Inv (fuel : nat) (s s' : Sudoku) :
  Inv s → fill_in_all_knowns fuel s = Ok s' → Inv s'.
Proof.
  revert s. induction fuel as [|fuel IH]; intros s HI H; [done|]. simpl in H.
  apply bind_Ok in H as (o & Ho & H). destruct o as [[r c]|].
  - apply bind_Ok in H as (x & _ & H). apply bind_Ok in H as (w & _ & H).
    apply bind_Ok in H as ([ok s1] & Hs & H). simpl in H.
    eapply IH; [|done]. by eapply set_cell_Inv.
  - by injection H as <-.
Qed.

Lemma fill_fuel_mono (fuel fuel' : nat) (s s' : Sudoku) :
  fill_in_all_knowns fuel s = Ok s' → (fuel ≤ fuel')%nat →
  fill_in_all_knowns fuel' s = Ok s'.
Proof.
  revert fuel' s. induction fuel as [|fuel IH]; intros fuel' s H Hle; [done|].
  destruct fuel' as [|fuel']; [lia|]. simpl in *.
  apply bind_Ok in H as (o & Ho & H). rewrite Ho; simpl. destruct o as [[r c]|]; [|done].
  apply bind_Ok in H as (x & Hx & H). rewrite Hx; simpl.
  apply bind_Ok in H as (w & Hw & H). rewrite Hw; simpl.
  apply bind_Ok in H as (r1 & Hs & H). rewrite Hs; simpl.
  apply IH; [done|lia].
Qed.

Lemma reachable_Inv (s : Sudoku) : reachable s → Inv s.
Proof.
  induction 1 as [bs Hbs|s v row col ok s' _ IH H|s fuel s' _ IH H].
  - by apply Inv_init.
  - by eapply set_cell_Inv.
  - by eapply fill_Inv.
Qed.

(** ** [solve] computes on the store what [solve_boards] computes *)

Lemma fork_step (p : ref) (b : Sudoku) (row col v : Z) (puzzles : list ref) (h : store) :
  h !! p = Some b →
  fork p row col (puzzles, h) v =
  r ← set_cell b v row col; Ok (puzzles ++ [length h], h ++ [r.2]).
Proof.
  intros Hp. unfold fork, deepcopy, invoke, deref. rewrite Hp; simpl.
  rewrite lookup_app_r, Nat.sub_diag by done; simpl.
  destruct (set_cell b v row col) as [[ok s1]| |]; simpl; [|done..].
  by rewrite insert_app_r_alt, Nat.sub_diag by done.
Qed.

Lemma fork_all_refines (p : ref) (b : Sudoku) (row col : Z) (values : list Z)
    (puzzles : list ref) (h : store) :
  h !! p = Some b →
  agree (λ '(puzzles', h') forks,
           puzzles' = puzzles ++ seq (length h) (length forks) ∧ h' = h ++ forks)
        (fork_all p row col values puzzles h)
        (fork_boards b row col values).
Proof.
  unfold fork_all. revert puzzles h.
  induction values as [|v values IH]; intros puzzles h Hp; cbn [for_each fork_boards].
  - simpl. by rewrite !app_nil_r.
  - rewrite (fork_step _ _ _ _ _ _ _ Hp).
    destruct (set_cell b v row col) as [[ok s1]| |]; simpl; [|done..].
    specialize (IH (puzzles ++ [length h]) (h ++ [s1])).
    destruct (for_each values _ _) as [[puzzles' h']| |];
      destruct (fork_boards b row col values) as [forks| |]; simpl in *;
      try (apply IH; rewrite lookup_app_l; [done|by eapply lookup_lt_Some]).
    destruct IH as [-> ->]; [rewrite lookup_app_l; [done|by eapply lookup_lt_Some]|].
    rewrite length_app, <- !app_assoc. simpl. by rewrite Nat.add_1_r.
Qed.

Lemma agree_impl {A B : Type} (R R' : A → B → Prop) (x : res A) (y : res B) :
  agree R x y → (∀ a b, R a b → R' a b) → agree R' x y.
Proof. destruct x, y; simpl; auto. Qed.

Lemma Forall2_refers_ext (h h' : store) (ps : list ref) (bs : list Sudoku) :
  Forall2 (λ p b, h !! p = Some b) ps bs →
  (∀ p, p ∈ ps → h' !! p = h !! p) →
  Forall2 (λ p b, h' !! p = Some b) ps bs.
Proof.
  induction 1 as [|p b ps bs Hp _ IH]; intros Hext; constructor.
  - rewrite Hext; [done|by left].
  - apply IH. intros; apply Hext; by right.
Qed.

Lemma Forall2_refers_lt (h : store) (ps : list ref) (bs : list Sudoku) (p : ref) :
  Forall2 (λ p b, h !! p = Some b) ps bs → p ∈ ps → (p < length h)%nat.
Proof.
  induction 1 as [|q b ps bs Hq _ IH]; [by intros ?%elem_of_nil|].
  rewrite elem_of_cons. intros [->|?]; [by eapply lookup_lt_Some|auto].
Qed.

Lemma Forall2_refers_fresh (h : store) (forks : list Sudoku) :
  Forall2 (λ p b, (h ++ forks) !! p = Some b) (seq (length h) (length forks)) forks.
Proof.
  revert h. induction forks as [|b forks IH]; intros h; simpl; constructor.
  - rewrite lookup_app_r, Nat.sub_diag by done. done.
  - specialize (IH (h ++ [b])). rewrite length_app, <- app_assoc in IH.
    simpl in IH. by rewrite Nat.add_1_r in IH.
Qed.

Lemma result_rel_step (h h1 : store) (puzzles puzzles1 : list ref)
    (x : res (option ref * store)) (y : res (option Sudoku)) :
  agree (result_rel h1 puzzles1) x y →
  (length h ≤ length h1)%nat →
  (∀ l, (l < length h)%nat → l ∉ puzzles → (l ∉ puzzles1) ∧ h1 !! l = h !! l) →
  agree (result_rel h puzzles) x y.
Proof.
  intros Hag Hlen Hframe. eapply agree_impl; [exact Hag|].
  intros [r h'] rb (Hr & Hl & Hf). unfold result_rel in *. simpl in *.
  split_and!; [done|lia|]. intros l Hl1 Hl2.
  destruct (Hframe l Hl1 Hl2) as [Hn <-]. apply Hf; [lia|done].
Qed.

Lemma deref_Some (h : store) (p : ref) (b : Sudoku) :
  h !! p = Some b → deref h p = Ok b.
Proof. unfold deref. by intros ->. Qed.

Lemma invoke_Some (h : store) (p : ref) (b : Sudoku) (m : Sudoku → res Sudoku) :
  h !! p = Some b → invoke p m h = b' ← m b; Ok (<[p := b']> h).
Proof. unfold invoke. by intros ->%deref_Some. Qed.

Lemma solve_loop_refines (fuel : nat) (puzzles : list ref) (cur : option ref)
    (h : store) (stack : list Sudoku) (curb : option Sudoku) :
  refers h puzzles stack → refers_opt h cur curb →
  agree (result_rel h puzzles)
        (solve_loop fuel puzzles cur h) (solve_boards fuel stack curb).
Proof.
  revert puzzles cur h stack curb.
  induction fuel as [|fuel IH]; intros puzzles cur h stack curb [Hnd Hrefs] Hcur;
    [done|].
  cbn [solve_loop solve_boards].
  destruct (py_pop puzzles) as [[rest p]|] eqn:Epop.
  - apply py_pop_Some in Epop as ->.
    apply Forall2_app_inv_l in Hrefs as (srest & sb & Hrest & Hp & ->).
    apply Forall2_cons_inv_l in Hp as (b0 & ? & Hp & ->%Forall2_nil_inv_l & ->).
    rewrite py_pop_app. apply NoDup_app in Hnd as (Hnd & Hdisj & _).
    assert (p ∉ rest) as Hprest.
    { intros Hin. apply (Hdisj _ Hin). by left. }
    pose proof (lookup_lt_Some _ _ _ Hp) as Hplt.
    rewrite (invoke_Some _ _ _ _ Hp).
    rewrite (Forall2_length _ _ _ Hrest).
    destruct (fill_in_all_knowns (S fuel) b0) as [b| |]; [|done..].
    cbn [mbind res_bind].
    set (h1 := <[p := b]> h).
    assert (length h1 = length h) as Hlen1 by apply length_insert.
    assert (h1 !! p = Some b) as Hp1 by (by apply list_lookup_insert_eq).
    rewrite (deref_Some _ _ _ Hp1). cbn [mbind res_bind].
    assert (∀ l, l ≠ p → h1 !! l = h !! l) as Hother
      by (intros; by apply list_lookup_insert_ne).
    assert (refers h1 rest srest) as Hrefs1.
    { split; [done|]. eapply Forall2_refers_ext; [exact Hrest|].
      intros q Hq. apply Hother. by intros ->. }
    assert (∀ (ps : list ref) l, (l < length h)%nat → l ∉ rest ++ [p] →
              ps ⊆ rest → (l ∉ ps) ∧ h1 !! l = h !! l) as Hframe.
    { intros ps l _ Hl Hps. rewrite elem_of_app, list_elem_of_singleton in Hl.
      split; [|apply Hother]; naive_solver. }
    destruct (solved b) as [[]| |]; [| |done..]; cbn [mbind res_bind].
    + eapply result_rel_step; [apply IH; [split; constructor|done]|lia|].
      intros l Hl1 Hl2. by apply Hframe; [..|apply list_subseteq_nil].
    + destruct (reached_dead_end b) as [[]| |]; [| |done..]; cbn [mbind res_bind andb].
      * case_bool_decide.
        -- eapply result_rel_step; [by apply IH|lia|]. intros; by apply Hframe.
        -- eapply result_rel_step; [by apply IH|lia|]. intros; by apply Hframe.
      * destruct (find_lowest_possibles b) as [[row col]| |]; [|done..].
        cbn [mbind res_bind]. destruct (get_cell b row col) as [c| |]; [|done..].
        cbn [mbind res_bind].
        pose proof (fork_all_refines p b row col (possible c) rest h1 Hp1) as Hfork.
        destruct (fork_all p row col (possible c) rest h1) as [[puzzles' h2]| |];
          destruct (fork_boards b row col (possible c)) as [forks| |];
          simpl in Hfork; try done.
        cbn [mbind res_bind]. destruct Hfork as [-> ->].
        eapply result_rel_step; [apply IH| |].
        -- split.
           ++ apply NoDup_app. split_and!; [done| |apply NoDup_seq].
              intros q Hq Hq'. apply elem_of_seq in Hq'.
              pose proof (Forall2_refers_lt _ _ _ _ Hrest Hq). lia.
           ++ apply Forall2_app; [|apply Forall2_refers_fresh].
              eapply Forall2_refers_ext; [apply Hrefs1|].
              intros q Hq. apply lookup_app_l.
              rewrite Hlen1. by eapply Forall2_refers_lt.
        -- simpl. rewrite lookup_app_l by lia. done.
        -- rewrite length_app. lia.
        -- intros l Hl1 Hl2. destruct (Hframe rest l Hl1 Hl2) as [Hl3 <-]; [done|].
           split; [|apply lookup_app_l; lia].
           rewrite elem_of_app, elem_of_seq. intros [?|?]; [done|lia].
  - apply py_pop_None in Epop as ->. apply Forall2_nil_inv_l in Hrefs as ->.
    rewrite py_pop_nil. simpl. unfold result_rel; simpl. split_and!; done.
Qed.

(** ** [solve] terminates with a solved board or with [None] *)

Lemma turns_lt (K n : nat) : (n < turns K n)%nat.
Proof. induction n; simpl; nia. Qed.

Lemma turns_mono (K n n' : nat) : (n ≤ n')%nat → (turns K n ≤ turns K n')%nat.
Proof.
  induction 1 as [|n' _ IH]; [done|]. simpl. nia.
Qed.

Lemma fork_boards_spec (b : Sudoku) (row col : Z) (c : Cell) (values : list Z) :
  Inv b → get_cell b row col = Ok c → (∀ v, v ∈ values → v ∈ possible c) →
  ∃ forks, fork_boards b row col values = Ok forks ∧
           Forall2 (λ v f, set_cell b v row col = Ok (true, f) ∧ assigned b v row col f ∧
                           Inv f ∧ (open f < open b)%nat) values forks.
Proof.
  intros HI Hc. induction values as [|v values IH]; intros Hsub; simpl.
  - exists []. split; [done|constructor].
  - destruct (set_cell_success b v row col c HI Hc) as (f & E & Has & HIf & Hop).
    { apply Hsub. by left. }
    destruct IH as (forks & E' & Hall). { intros; apply Hsub; by right. }
    rewrite E, E'; simpl. exists (f :: forks). split; [done|]. by constructor.
Qed.

Lemma cost_app (K : nat) (l1 l2 : list Sudoku) :
  cost K (l1 ++ l2) = (cost K l1 + cost K l2)%nat.
Proof. apply sum_list_with_app. Qed.

Lemma cost_forks (K n : nat) (forks : list Sudoku) :
  Forall (λ f, (open f < S n)%nat) forks → (length forks ≤ K)%nat →
  (cost K forks < turns K (S n))%nat.
Proof.
  intros Hall Hlen.
  assert (cost K forks ≤ length forks * turns K n)%nat as Hle.
  { clear Hlen. unfold cost.
    induction Hall as [|f forks Hf _ IH]; simpl; [done|].
    pose proof (turns_mono K (open f) n). lia. }
  simpl. pose proof (turns_lt K n). nia.
Qed.

Lemma solve_boards_total (K fuel : nat) (stack : list Sudoku) (cur : option Sudoku) :
  Forall (λ b, Inv b ∧ (dim b ≤ K)%nat) stack →
  (cost K stack < fuel)%nat → (stack = [] → good cur) →
  ∃ r, solve_boards fuel stack cur = Ok r ∧ good r.
Proof.
  revert stack cur. induction fuel as [|fuel IH]; intros stack cur Hall Hfuel Hcur;
    [lia|].
  cbn [solve_boards]. destruct (py_pop stack) as [[rest b0]|] eqn:Epop.
  - apply py_pop_Some in Epop as ->. rewrite cost_app in Hfuel.
    unfold cost at 2 in Hfuel. simpl in Hfuel.
    apply Forall_app in Hall as [Hrest Hb0].
    apply Forall_cons_1 in Hb0 as [[HI0 Hdim0] _].
    pose proof (turns_lt K (open b0)).
    destruct (fill_total (S fuel) b0 HI0) as (b & -> & HI & Hnone & Hop & _ & Em & _);
      [lia|].
    cbn [mbind res_bind].
    pose proof (turns_mono K _ _ Hop).
    destruct (solved_spec b (inv_wf _ HI)) as (sv & -> & Hsv). cbn [mbind res_bind].
    destruct sv.
    + apply IH; [constructor|simpl; lia|]. by intros _.
    + destruct (reached_dead_end_spec b (inv_wf _ HI)) as (dead & -> & Hdead).
      cbn [mbind res_bind]. destruct dead; cbn [andb].
      * case_bool_decide as Hl.
        -- apply IH; [done|lia|done].
        -- apply IH; [done|lia|]. intros ->. by destruct Hl.
      * (* the board has an empty cell, and every empty cell has a candidate *)
        destruct Hsv as (i & j & y & Hy & Hy0).
        destruct (find_lowest_possibles_spec b HI) as (r & c & x & -> & Hx & Hne & _);
          [exists i, j, y; split; [done|by eapply Hdead]|].
        cbn [mbind res_bind]. rewrite Hx. cbn [mbind res_bind].
        destruct (fork_boards_spec b r c x (possible x) HI Hx) as (forks & -> & Hforks);
          [done|].
        cbn [mbind res_bind].
        pose proof (Forall2_length _ _ _ Hforks) as Hlen.
        assert (length (possible x) ≤ K)%nat as HK.
        { pose proof (inv_wf _ HI) as (_ & _ & Hsq).
          apply (get_cell_Ok _ _ _ _ _ Hsq) in Hx as (_ & _ & Hx).
          destruct (inv_cells _ HI _ _ _ Hx) as (Hasc & Hrange & _).
          pose proof (ascending_length _ _ Hasc Hrange).
          unfold dim in Hdim0. rewrite <- Em in Hdim0. lia. }
        assert (Forall (λ f, (Inv f ∧ (dim f ≤ K)%nat) ∧ (open f < open b)%nat) forks)
          as Hall.
        { apply list.Forall_forall. intros f Hf.
          apply list_elem_of_lookup in Hf as [k Hk].
          destruct (Forall2_lookup_r _ _ _ _ _ Hforks Hk) as (v & _ & _ & Has & ? & ?).
          split_and!; [done| |done]. destruct Has as (_ & Em' & _).
          unfold dim in *. rewrite Em', Em. done. }
        apply Forall_and in Hall as [Hall Hopen].
        apply IH.
        -- by apply Forall_app.
        -- rewrite cost_app. destruct (open b) as [|n] eqn:En.
           ++ destruct forks as [|f forks]; [by destruct (possible x)|].
              apply Forall_cons_1 in Hopen as [? _]. lia.
           ++ pose proof (cost_forks K n forks Hopen). lia.
        -- intros [_ ->]%app_eq_nil. by destruct (possible x).
  - apply py_pop_None in Epop as ->. exists cur. split; [done|]. by apply Hcur.
Qed.

Lemma solve_boards_mono (fuel fuel' : nat) (stack : list Sudoku)
    (cur r : option Sudoku) :
  solve_boards fuel stack cur = Ok r → (fuel ≤ fuel')%nat →
  solve_boards fuel' stack cur = Ok r.
Proof.
  revert fuel' stack cur. induction fuel as [|fuel IH]; intros fuel' stack cur H Hle;
    [done|].
  destruct fuel' as [|fuel']; [lia|]. cbn [solve_boards] in *.
  destruct (py_pop stack) as [[rest b0]|]; [|done].
  apply bind_Ok in H as (b & Hb & H).
  rewrite (fill_fuel_mono (S fuel) (S fuel') _ _ Hb) by lia. cbn [mbind res_bind].
  destruct (solved b) as [[]| |]; try done; cbn [mbind res_bind] in *.
  - apply IH; [done|lia].
  - destruct (reached_dead_end b) as [[]| |]; try done; cbn [mbind res_bind andb] in *.
    + case_bool_decide; (apply IH; [done|lia]).
    + destruct (find_lowest_possibles b) as [[row col]| |]; try done.
      cbn [mbind res_bind] in *.
      destruct (get_cell b row col) as [c| |]; try done. cbn [mbind res_bind] in *.
      destruct (fork_boards b row col (possible c)) as [forks| |]; try done.
      cbn [mbind res_bind] in *. apply IH; [done|lia].
Qed.

(** [solve] computes what [solve_boards] computes on the receiver's
    board, and leaves every object of the store it was given as it was. *)
Lemma solve_refines (fuel : nat) (self : ref) (h : store) (b : Sudoku) :
  h !! self = Some b →
  agree (λ out rb, refers_opt out.2 out.1 rb ∧ (length h ≤ length out.2)%nat ∧
                   ∀ l, (l < length h)%nat → out.2 !! l = h !! l)
        (solve fuel self h) (solve_boards fuel [b] None).
Proof.
  intros Hb. unfold solve, deepcopy. rewrite (deref_Some _ _ _ Hb).
  cbn [mbind res_bind].
  eapply agree_impl.
  - apply (solve_loop_refines fuel [length h] None (h ++ [b]) [b] None); [|done].
    split; [apply NoDup_singleton|]. repeat constructor.
    by rewrite lookup_app_r, Nat.sub_diag.
  - intros [r h'] rb (Hr & Hlen & Hframe). simpl in *. rewrite length_app in *.
    simpl in *. split_and!; [done|lia|]. intros l Hl.
    rewrite Hframe; [by apply lookup_app_l|lia|].
    rewrite list_elem_of_singleton. lia.
Qed.

Lemma solve_Ok_inv (fuel : nat) (self : ref) (h : store) (out : option ref * store) :
  solve fuel self h = Ok out → ∃ b, h !! self = Some b.
Proof.
  unfold solve, deepcopy, deref. destruct (h !! self) as [b|]; [eauto|done].
Qed.

(** The boards [solve] returns are reachable boards. *)
Lemma fork_boards_reachable (b : Sudoku) (row col : Z) (values : list Z)
    (forks : list Sudoku) :
  reachable b → fork_boards b row col values = Ok forks → Forall reachable forks.
Proof.
  intros Hb. revert forks. induction values as [|v values IH]; intros forks H;
    simpl in H.
  - injection H as <-. constructor.
  - apply bind_Ok in H as ([ok f] & Hset & H). apply bind_Ok in H as (fs & Hfs & H).
    injection H as <-. constructor; [by eapply reach_set_cell|by apply IH].
Qed.

Lemma solve_boards_reachable (fuel : nat) (stack : list Sudoku)
    (cur r : option Sudoku) :
  Forall reachable stack → (∀ b, cur = Some b → reachable b) →
  solve_boards fuel stack cur = Ok r → ∀ b, r = Some b → reachable b.
Proof.
  revert stack cur. induction fuel as [|fuel IH]; intros stack cur Hall Hcur H;
    [done|].
  cbn [solve_boards] in H. destruct (py_pop stack) as [[rest b0]|] eqn:Epop.
  - apply py_pop_Some in Epop as ->. apply Forall_app in Hall as [Hrest Hb0].
    apply Forall_cons_1 in Hb0 as [Hb0 _].
    apply bind_Ok in H as (b & Hb & H).
    assert (reachable b) as Hreach by (by eapply reach_fill).
    assert (∀ b', Some b = Some b' → reachable b') as Hsome by (by intros ? [= <-]).
    destruct (solved b) as [[]| |]; try done; cbn [mbind res_bind] in H.
    + by eapply (IH [] (Some b)).
    + destruct (reached_dead_end b) as [[]| |]; try done;
        cbn [mbind res_bind andb] in H.
      * case_bool_decide; [by eapply (IH rest None)|by eapply (IH rest (Some b))].
      * destruct (find_lowest_possibles b) as [[row col]| |]; try done.
        cbn [mbind res_bind] in H.
        destruct (get_cell b row col) as [c| |]; try done. cbn [mbind res_bind] in H.
        destruct (fork_boards b row col (possible c)) as [forks| |] eqn:Ef; try done.
        cbn [mbind res_bind] in H.
        eapply (IH (rest ++ forks) (Some b)); [|done..].
        apply Forall_app. split; [done|]. by eapply fork_boards_reachable.
  - by injection H as <-.
Qed.

(** * The claims *)

Lemma assign_all_reachable (clues : list (Z * Z * Z)) (s s' : Sudoku) :
  reachable s → assign_all s clues = Ok s' → reachable s'.
Proof.
  unfold assign_all. revert s.
  induction clues as [|[[v row] col] clues IH]; intros s Hs H; simpl in H.
  - by injection H as <-.
  - apply bind_Ok in H as (s1 & H1 & H). apply bind_Ok in H1 as ([ok s2] & H1 & E).
    injection E as <-. eapply IH; [|done]. by eapply reach_set_cell.
Qed.

Lemma stuck_board_reachable : reachable stuck_board.
Proof.
  unfold stuck_board.
  destruct (assign_all _ _) eqn:E; try (apply reach_init; lia).
  eapply assign_all_reachable; [|exact E]. apply reach_init; lia.
Qed.

Lemma almost_board_reachable : reachable almost_board.
Proof.
  unfold almost_board.
  destruct (assign_all _ _) eqn:E; try (apply reach_init; lia).
  eapply assign_all_reachable; [|exact E]. apply reach_init; lia.
Qed.

(** ** C1: soundness of [solve] *)

(** C1. For every board reachable from a fresh board, [solve] returns
    (given fuel for the turns its loop takes) either [None] or a
    reference to a board in which every cell has a non-zero value and no
    two cells sharing a row, a column or a box hold equal values; it
    never returns a partially filled board.  The board returned is a
    reachable board itself. *)
Theorem C1_solve_sound (h : store) (self : ref) (b : Sudoku) (fuel : nat) :
  h !! self = Some b → reachable b →
  (turns (dim b) (open b) < fuel)%nat →
  ∃ r h', solve fuel self h = Ok (r, h') ∧
          match r with
          | None => True
          | Some p => ∃ b', h' !! p = Some b' ∧ full b' ∧ peer_unique b' ∧
                            reachable b'
          end.
Proof.
  intros Hb Hreach' Hfuel. apply reachable_Inv in Hreach' as Hreach.
  destruct (solve_boards_total (dim b) fuel [b] None) as (rb & E & Hgood).
  { constructor; [split; [done|lia]|constructor]. }
  { unfold cost; simpl. lia. }
  { done. }
  pose proof (solve_refines fuel self h b Hb) as Hag. rewrite E in Hag.
  destruct (solve fuel self h) as [[r h']| |]; simpl in Hag; try done.
  exists r, h'. split; [done|]. destruct Hag as (Hr & _).
  destruct r as [p|]; [|done]. destruct rb as [b'|]; simpl in Hr; [|done].
  exists b'. destruct Hgood as [HI Hfull]. split_and!; [done..|by apply inv_unique|].
  eapply (solve_boards_reachable fuel [b] None); [|done|exact E|done].
  by constructor.
Qed.

Lemma C1_solve_sound_witness :
  ∃ r h', solve 10 0%nat [almost_board] = Ok (r, h') ∧
          match r with
          | None => True
          | Some p => ∃ b', h' !! p = Some b' ∧ full b' ∧ peer_unique b' ∧
                            reachable b'
          end.
Proof.
  apply (C1_solve_sound [almost_board] 0%nat almost_board 10).
  - reflexivity.
  - apply almost_board_reachable.
  - vm_compute. lia.
Defined.

(** ** C2: failed assignments *)

Lemma assigned_target (s : Sudoku) (v row col : Z) (c : Cell) (s' : Sudoku) :
  wf s → get_cell s row col = Ok c → assigned s v row col s' →
  cell_at (cell s') (norm (dim s) row) (norm (dim s) col) =
  Some (mkCell v [] (cell_max_val c)).
Proof.
  intros Hwf Hc (_ & _ & _ & _ & Hcells). pose proof Hwf as (_ & _ & Hsq).
  apply (get_cell_Ok _ _ _ _ _ Hsq) in Hc as (_ & _ & Hat).
  rewrite (Hcells _ _ _ Hat). by rewrite decide_True.
Qed.

(** After a successful assignment no cell of the same row, column or box
    lists the value any more. *)
Lemma assigned_eliminated (s : Sudoku) (v row col : Z) (s' : Sudoku)
    (i j : nat) (c' : Cell) :
  Inv s → set_cell s v row col = Ok (true, s') →
  cell_at (cell s') i j = Some c' →
  peers (box_size s) (norm (dim s) row) (norm (dim s) col) i j →
  v ∉ possible c'.
Proof.
  intros HI Hset Hc' Hp.
  destruct (set_cell_true_inv _ _ _ _ _ Hset) as (c & Hc & Hv).
  destruct (set_cell_success _ _ _ _ _ HI Hc Hv) as (s'' & E & Has & HI' & _).
  rewrite E in Hset. injection Hset as ->.
  pose proof (assigned_target _ _ _ _ _ _ (inv_wf _ HI) Hc Has) as Ht.
  assert (v ≠ 0) as Hv0.
  { pose proof (inv_wf _ HI) as (_ & _ & Hsq).
    apply (get_cell_Ok _ _ _ _ _ Hsq) in Hc as (_ & _ & Hat).
    destruct (inv_cells _ HI _ _ _ Hat) as (_ & Hr & _). specialize (Hr _ Hv). lia. }
  destruct Has as (Eb & _). rewrite <- Eb in Hp.
  by apply (inv_elim _ HI' _ _ _ _ _ _ Ht Hc' Hp).
Qed.

Lemma peer_assignment_fails (s : Sudoku) (v row col : Z) (s' : Sudoku) (row' col' : Z) :
  Inv s → set_cell s v row col = Ok (true, s') →
  in_bounds (dim s) row' → in_bounds (dim s) col' →
  peers (box_size s) (norm (dim s) row) (norm (dim s) col)
        (norm (dim s) row') (norm (dim s) col') →
  set_cell s' v row' col' = Ok (false, s').
Proof.
  intros HI Hset Hr Hc Hp. pose proof (set_cell_Inv _ _ _ _ _ _ HI Hset) as HI'.
  assert (dim s' = dim s) as Ed.
  { destruct (set_cell_true_inv _ _ _ _ _ Hset) as (c & Hc0 & Hv).
    destruct (set_cell_success _ _ _ _ _ HI Hc0 Hv) as (s'' & E & Has & _).
    rewrite E in Hset. injection Hset as ->. destruct Has as (_ & Em & _).
    unfold dim. by rewrite Em. }
  destruct (get_cell_total s' row' col' (inv_wf _ HI')) as [c' Hc']; [by rewrite Ed..|].
  apply set_cell_false_iff. exists c'. split_and!; [done| |done].
  pose proof (inv_wf _ HI') as (_ & _ & Hsq).
  apply (get_cell_Ok _ _ _ _ _ Hsq) in Hc' as (_ & _ & Hat). rewrite Ed in Hat.
  exact (assigned_eliminated s v row col s' _ _ c' HI Hset Hat Hp).
Qed.

(** C2. [set_cell] returns [False] if and only if the value is not in
    the candidate list of the cell, and the board is then unchanged
    (grid, candidates and [cells_filled]).  So it fails on a cell whose
    candidate list is empty, on a filled cell, and on a value that an
    assignment to a cell of the same row, column or box has eliminated.
    On a 9 by 9 board, a second clue with the value of the first in the
    same row is refused and [cells_filled] stays 1. *)
Theorem C2_set_cell_failure (s : Sudoku) (v row col : Z) :
  (∀ s', set_cell s v row col = Ok (false, s') ↔
         ∃ c, get_cell s row col = Ok c ∧ (v ∉ possible c) ∧ s' = s) ∧
  (∀ c, get_cell s row col = Ok c → possible c = [] →
        set_cell s v row col = Ok (false, s)) ∧
  (∀ c, reachable s → get_cell s row col = Ok c → value c ≠ 0 →
        set_cell s v row col = Ok (false, s)) ∧
  (∀ s' row' col',
     reachable s → set_cell s v row col = Ok (true, s') →
     in_bounds (dim s) row' → in_bounds (dim s) col' →
     peers (box_size s) (norm (dim s) row) (norm (dim s) col)
           (norm (dim s) row') (norm (dim s) col') →
     set_cell s' v row' col' = Ok (false, s')) ∧
  (∀ s' col',
     s = Sudoku_init 3 → set_cell s v row col = Ok (true, s') →
     in_bounds 9 col' →
     set_cell s' v row col' = Ok (false, s') ∧ cells_filled s' = 1).
Proof.
  split_and!.
  - intros s'. apply set_cell_false_iff.
  - intros c Hc E. apply set_cell_false_iff. exists c. rewrite E.
    split_and!; [done|apply not_elem_of_nil|done].
  - intros c Hs Hc Hv. apply set_cell_false_iff. exists c.
    apply reachable_Inv in Hs. pose proof (inv_wf _ Hs) as (_ & _ & Hsq).
    pose proof Hc as Hat. apply (get_cell_Ok _ _ _ _ _ Hsq) in Hat as (_ & _ & Hat).
    destruct (inv_cells _ Hs _ _ _ Hat) as (_ & _ & Hfill & _). rewrite (Hfill Hv).
    split_and!; [done|apply not_elem_of_nil|done].
  - intros s' row' col' Hs. apply peer_assignment_fails. by apply reachable_Inv.
  - intros s' col' -> Hset Hcol'.
    assert (Inv (Sudoku_init 3)) as HI by (apply Inv_init; lia).
    destruct (set_cell_true_inv _ _ _ _ _ Hset) as (c & Hc & Hv).
    pose proof (inv_wf _ HI) as (_ & _ & Hsq).
    pose proof Hc as Hb. apply (get_cell_Ok _ _ _ _ _ Hsq) in Hb as (Hrow & _).
    split.
    + apply (peer_assignment_fails _ _ _ _ _ _ _ HI Hset); [done..|]. by left.
    + destruct (set_cell_success _ _ _ _ _ HI Hc Hv) as (s'' & E & Has & _).
      rewrite E in Hset. injection Hset as ->. by destruct Has as (_ & _ & -> & _).
Qed.

Lemma C2_set_cell_failure_witness :
  ∃ s', set_cell (Sudoku_init 3) 1 0 0 = Ok (true, s') ∧
        set_cell s' 1 0 1 = Ok (false, s') ∧ cells_filled s' = 1.
Proof.
  destruct (set_cell (Sudoku_init 3) 1 0 0) as [[[] s']| |] eqn:E;
    try (vm_compute in E; discriminate E).
  exists s'. split; [reflexivity|].
  destruct (C2_set_cell_failure (Sudoku_init 3) 1 0 0) as (_ & _ & _ & _ & H).
  apply (H s' 1); [reflexivity|exact E|unfold in_bounds; lia].
Defined.

(** ** C3: peer uniqueness *)

(** C3. In every reachable board no two cells sharing a row, a column or
    a box hold equal non-zero values, and this still holds after any
    successful assignment.  [set_cell] accepts a value on the sole ground
    that the cell lists it as a candidate; it then fills the cell, removes
    the value from the candidates of every cell of the same row, column
    and box, and leaves all other values and candidates alone. *)
Theorem C3_peer_uniqueness (s : Sudoku) :
  reachable s →
  peer_unique s ∧
  ∀ v row col,
    ((∃ s', set_cell s v row col = Ok (true, s')) ↔
     (∃ c, get_cell s row col = Ok c ∧ v ∈ possible c)) ∧
    ∀ s', set_cell s v row col = Ok (true, s') →
      peer_unique s' ∧
      (∃ t, cell_at (cell s') (norm (dim s) row) (norm (dim s) col) = Some t ∧
            value t = v) ∧
      ∀ i j c, cell_at (cell s) i j = Some c →
        ∃ c', cell_at (cell s') i j = Some c' ∧
          (peers (box_size s) (norm (dim s) row) (norm (dim s) col) i j →
             v ∉ possible c') ∧
          (¬ peers (box_size s) (norm (dim s) row) (norm (dim s) col) i j →
             c' = c) ∧
          ((i, j) ≠ (norm (dim s) row, norm (dim s) col) →
             value c' = value c ∧ ∀ w, w ≠ v → w ∈ possible c' ↔ w ∈ possible c).
Proof.
  intros Hs. apply reachable_Inv in Hs as HI. split; [by apply inv_unique|].
  intros v row col. split.
  - split.
    + intros [s' H]. by eapply set_cell_true_inv.
    + intros (c & Hc & Hv).
      destruct (set_cell_success _ _ _ _ _ HI Hc Hv) as (s' & E & _). eauto.
  - intros s' Hset. destruct (set_cell_true_inv _ _ _ _ _ Hset) as (c0 & Hc0 & Hv).
    destruct (set_cell_success _ _ _ _ _ HI Hc0 Hv) as (s'' & E & Has & HI' & _).
    rewrite E in Hset. injection Hset as ->. pose proof (inv_wf _ HI) as Hwf.
    split_and!.
    + by apply inv_unique.
    + eexists. split; [by eapply assigned_target|done].
    + intros i j c Hc. destruct Has as (_ & _ & _ & Hsq' & Hcells).
      pose proof Hwf as (_ & _ & Hsq).
      destruct (cell_at_lt _ _ _ _ _ Hsq Hc) as [Hi Hj].
      pose proof Hc0 as Hb. apply (get_cell_Ok _ _ _ _ _ Hsq) in Hb as (Hrow & Hcol & _).
      eexists. split; [by apply Hcells|]. split_and!.
      * intros Hp. exact (assigned_eliminated s v row col _ i j _ HI E (Hcells _ _ _ Hc) Hp).
      * intros Hp. rewrite decide_False by (intros [-> ->]; apply Hp; by left).
        rewrite <- visited_hits in Hp by done.
        by replace (hits (dim s) (visited s row col) i j) with 0%nat by lia.
      * intros Hne. rewrite decide_False by (intros [-> ->]; by apply Hne).
        rewrite iter_rm_value. split; [done|]. intros w Hw. by apply iter_rm_other.
Qed.

Lemma C3_peer_uniqueness_witness :
  peer_unique stuck_board ∧
  ((∃ s', set_cell stuck_board 1 2 1 = Ok (true, s')) ↔
   (∃ c, get_cell stuck_board 2 1 = Ok c ∧ 1 ∈ possible c)).
Proof.
  destruct (C3_peer_uniqueness stuck_board stuck_board_reachable) as [H1 H2].
  split; [exact H1|]. apply (H2 1 2 1).
Defined.

(** ** C4: values and candidates *)

(** The two-way form fails on [stuck_board], which four successful
    assignments build from the empty 4 by 4 board: the third cell of its
    first row has no value and no candidate. *)
Lemma C4_counterexample :
  reachable stuck_board ∧ cells_filled stuck_board = 4 ∧
  cell_at (cell stuck_board) 0 2 = Some (mkCell 0 [] 4) ∧
  ¬ value_iff_no_candidates stuck_board.
Proof.
  split_and!; [apply stuck_board_reachable|reflexivity..|].
  intros H. specialize (H 0%nat 2%nat (mkCell 0 [] 4) eq_refl).
  simpl in H. by apply H.
Qed.

(** C4 (amended). In every reachable board a cell with a non-zero value
    has an empty candidate list, and a freshly created undetermined cell
    has exactly the candidates 1..N.  A cell without a value may have an
    empty candidate list as well: [reached_dead_end] returns [True]
    exactly on the boards that have such a cell. *)
Theorem C4_candidates_of_filled_cells (s : Sudoku) :
  reachable s →
  (∀ i j c, cell_at (cell s) i j = Some c → value c ≠ 0 → possible c = []) ∧
  (∀ N, possible (Cell_init 0 N) = range 1 (N + 1) ∧
        ∀ w, w ∈ possible (Cell_init 0 N) ↔ 1 ≤ w ≤ N) ∧
  (reached_dead_end s = Ok true ↔
   ∃ i j c, cell_at (cell s) i j = Some c ∧ value c = 0 ∧ possible c = []).
Proof.
  intros Hs. apply reachable_Inv in Hs as HI. split_and!.
  - intros i j c Hc. by destruct (inv_cells _ HI _ _ _ Hc) as (_ & _ & ? & _).
  - intros N. split; [done|]. intros w. simpl. rewrite elem_of_range. lia.
  - destruct (reached_dead_end_spec s (inv_wf _ HI)) as ([] & -> & Hd).
    + done.
    + split; [done|]. intros (i & j & c & Hc & Hv & E). by destruct (Hd _ _ _ Hc Hv).
Qed.

Lemma C4_candidates_of_filled_cells_witness :
  (∀ i j c, cell_at (cell stuck_board) i j = Some c → value c ≠ 0 → possible c = []) ∧
  reached_dead_end stuck_board = Ok true.
Proof.
  destruct (C4_candidates_of_filled_cells stuck_board stuck_board_reachable)
    as (H1 & _ & H3).
  split; [exact H1|]. apply H3. exists 0%nat, 2%nat, (mkCell 0 [] 4).
  split; [reflexivity|]. split; reflexivity.
Defined.

(** ** C5: [fill_in_all_knowns] terminates *)

Lemma reachable_bounds (s : Sudoku) :
  reachable s →
  0 ≤ cells_filled s ≤ max_val s * max_val s ∧ (open s ≤ dim s * dim s)%nat.
Proof.
  intros HI%reachable_Inv. destruct (inv_count _ HI) as [H0 Hle].
  pose proof (inv_wf _ HI) as (Hb & Hmax & _). pose proof (open_le s).
  assert (Z.of_nat (dim s) = max_val s) as E by (unfold dim; lia).
  split; [|done]. rewrite <- E. lia.
Qed.

(** C5. On every reachable board [fill_in_all_knowns] terminates.  A
    turn of its loop on a board on which [find_one_possible] finds a
    cell passes the single candidate of that cell to [set_cell], which
    succeeds and adds one to [cells_filled], and the loop goes on with
    the board [set_cell] left; on a board on which the scan finds no
    cell the loop returns the board.  [cells_filled] never exceeds
    N * N.  With fuel above the number of open cells the loop returns;
    the run is made of [k] such turns ([fill_run]), [k] no more than the
    number of open cells, [cells_filled] has grown by exactly [k], one
    per turn, and in the board returned no cell has a candidate list of
    exactly one member.  The same holds of every run that returns,
    whatever the fuel. *)
Theorem C5_fill_terminates (s : Sudoku) :
  reachable s →
  (∀ r c, find_one_possible s = Ok (Some (r, c)) →
     ∃ x w s1, get_cell s r c = Ok x ∧ possible x = [w] ∧
               getitem (possible x) 0 = Ok w ∧
               set_cell s w r c = Ok (true, s1) ∧
               cells_filled s1 = cells_filled s + 1 ∧
               reachable s1 ∧ (open s1 < open s)%nat ∧
               ∀ fuel, fill_in_all_knowns (S fuel) s = fill_in_all_knowns fuel s1) ∧
  (find_one_possible s = Ok None →
     ∀ fuel, fill_in_all_knowns (S fuel) s = Ok s) ∧
  0 ≤ cells_filled s ≤ max_val s * max_val s ∧
  (open s ≤ dim s * dim s)%nat ∧
  (∀ fuel, (open s < fuel)%nat →
    ∃ s' k, fill_in_all_knowns fuel s = Ok s' ∧ fill_run s k s' ∧
            cells_filled s' = cells_filled s + Z.of_nat k ∧
            (k ≤ open s)%nat ∧ (k < fuel)%nat ∧ reachable s' ∧
            cells_filled s ≤ cells_filled s' ≤ max_val s * max_val s ∧
            ∀ i j x, cell_at (cell s') i j = Some x → length (possible x) ≠ 1%nat) ∧
  (∀ fuel s', fill_in_all_knowns fuel s = Ok s' →
    ∃ k, fill_run s k s' ∧ cells_filled s' = cells_filled s + Z.of_nat k ∧
         (k ≤ open s)%nat).
Proof.
  intros Hs. pose proof (reachable_Inv _ Hs) as HI.
  destruct (reachable_bounds s Hs) as [Hcount Hopen]. split_and!; try done; try lia.
  - intros r c Hf.
    destruct (fill_step s r c HI Hf) as (x & w & s1 & Hx & Hw & Hg & Hset & Has & _ & Hop).
    exists x, w, s1. split_and!; try done.
    + by destruct Has as (_ & _ & -> & _).
    + by eapply reach_set_cell.
    + intros fuel. cbn [fill_in_all_knowns]. rewrite Hf; cbn [mbind res_bind].
      rewrite Hx; cbn [mbind res_bind]. rewrite Hg; cbn [mbind res_bind].
      by rewrite Hset.
  - intros Hnone fuel. by apply fill_nothing.
  - intros fuel Hfuel.
    destruct (fill_total fuel s HI Hfuel) as (s' & E & HI' & Hnone & _ & _ & Em & Hle).
    destruct (fill_trace fuel s s' HI E) as (k & Hrun & Hk & Hopk).
    assert (reachable s') as Hs' by (by eapply reach_fill).
    exists s', k. split_and!; try done; try lia.
    + destruct (reachable_bounds s' Hs') as [[_ Hle'] _]. by rewrite Em in Hle'.
    + destruct (find_one_possible_spec s' (inv_wf _ HI')) as (o & Ho & Hspec).
      rewrite Hnone in Ho. by injection Ho as <-.
  - intros fuel s' E.
    destruct (fill_trace fuel s s' HI E) as (k & Hrun & Hk & Hopk).
    exists k. split_and!; [done..|lia].
Qed.

Lemma C5_fill_terminates_witness :
  ∃ s' k, fill_in_all_knowns 5 almost_board = Ok s' ∧ fill_run almost_board k s' ∧
          cells_filled s' = cells_filled almost_board + Z.of_nat k ∧
          (k ≤ open almost_board)%nat ∧ (k < 5)%nat ∧ reachable s' ∧
          cells_filled almost_board ≤ cells_filled s'
            ≤ max_val almost_board * max_val almost_board ∧
          ∀ i j x, cell_at (cell s') i j = Some x → length (possible x) ≠ 1%nat.
Proof.
  destruct (C5_fill_terminates almost_board almost_board_reachable)
    as (_ & _ & _ & _ & H & _).
  apply (H 5%nat). vm_compute. lia.
Defined.

(** ** C8: [fill_in_all_knowns] is idempotent *)

(** C8. Running [fill_in_all_knowns] on the board a first run returned
    changes nothing: the scan finds no cell with exactly one candidate
    and the loop body is never entered.  (A first run on a reachable
    board does return.) *)
Theorem C8_fill_idempotent (s : Sudoku) (fuel : nat) :
  (reachable s → (open s < fuel)%nat → ∃ s', fill_in_all_knowns fuel s = Ok s') ∧
  ∀ s', fill_in_all_knowns fuel s = Ok s' →
    find_one_possible s' = Ok None ∧
    ∀ fuel', fill_in_all_knowns (S fuel') s' = Ok s'.
Proof.
  split.
  - intros Hs Hfuel.
    destruct (fill_total fuel s (reachable_Inv _ Hs) Hfuel) as (s' & E & _). eauto.
  - intros s' H. pose proof (fill_fixpoint _ _ _ H) as Hnone.
    split; [done|]. intros fuel'. by apply fill_nothing.
Qed.

Lemma C8_fill_idempotent_witness :
  ∃ s', fill_in_all_knowns 5 almost_board = Ok s' ∧
        fill_in_all_knowns 1 s' = Ok s'.
Proof.
  destruct (C8_fill_idempotent almost_board 5) as [H1 H2].
  destruct H1 as [s' E]; [apply almost_board_reachable|vm_compute; lia|].
  exists s'. split; [exact E|]. apply (H2 s' E).
Defined.

(** ** C9: [solve] leaves the receiver alone *)

(** C9. [solve] works on a deep copy of its receiver and on copies of
    that copy: when it returns, every object the store held before the
    call, the receiver among them, has its grid values, candidate lists
    and [cells_filled] as before. *)
Theorem C9_solve_frame (fuel : nat) (self : ref) (h : store)
    (r : option ref) (h' : store) :
  solve fuel self h = Ok (r, h') →
  h' !! self = h !! self ∧ is_Some (h !! self) ∧
  (length h ≤ length h')%nat ∧
  ∀ l, (l < length h)%nat → h' !! l = h !! l.
Proof.
  intros H. destruct (solve_Ok_inv _ _ _ _ H) as [b Hb].
  pose proof (solve_refines fuel self h b Hb) as Hag. rewrite H in Hag.
  destruct (solve_boards fuel [b] None) as [rb| |]; simpl in Hag; try done.
  destruct Hag as (_ & Hlen & Hframe). split_and!; [|by eauto|done..].
  apply Hframe. by eapply lookup_lt_Some.
Qed.

Lemma C9_solve_frame_witness :
  empty4_solved.2 !! 0%nat = Some (Sudoku_init 2).
Proof.
  assert (solve 100 0%nat [Sudoku_init 2] = Ok (empty4_solved.1, empty4_solved.2))
    as E by (vm_compute; reflexivity).
  destruct (C9_solve_frame _ _ _ _ _ E) as (H & _). exact H.
Defined.

(** ** C6: [solve] is deterministic *)

(** C6. Two invocations of [solve] on receivers in equal states return
    equal results, whatever else the stores hold and whatever fuel each
    run has beyond what it needs: both [None], or two solved boards that
    agree in every cell. *)
Theorem C6_solve_deterministic (fuel1 fuel2 : nat) (self1 self2 : ref)
    (h1 h2 : store) (b : Sudoku) (out1 out2 : option ref * store) :
  h1 !! self1 = Some b → h2 !! self2 = Some b →
  solve fuel1 self1 h1 = Ok out1 → solve fuel2 self2 h2 = Ok out2 →
  same_result out1 out2.
Proof.
  intros Hb1 Hb2 H1 H2.
  pose proof (solve_refines fuel1 self1 h1 b Hb1) as Hag1. rewrite H1 in Hag1.
  pose proof (solve_refines fuel2 self2 h2 b Hb2) as Hag2. rewrite H2 in Hag2.
  destruct (solve_boards fuel1 [b] None) as [rb1| |] eqn:E1; simpl in Hag1; try done.
  destruct (solve_boards fuel2 [b] None) as [rb2| |] eqn:E2; simpl in Hag2; try done.
  assert (rb1 = rb2) as <-.
  { apply (solve_boards_mono _ (fuel1 `max` fuel2)) in E1, E2; [|lia..]. congruence. }
  destruct Hag1 as (Hr1 & _), Hag2 as (Hr2 & _).
  unfold same_result, refers_opt in *.
  destruct (out1.1), (out2.1), rb1; try done. eauto.
Qed.

Lemma C6_solve_deterministic_witness :
  same_result empty4_solved empty4_solved_again.
Proof.
  apply (C6_solve_deterministic 100 200 0%nat 1%nat
           [Sudoku_init 2] [Sudoku_init 1; Sudoku_init 2] (Sudoku_init 2)).
  - reflexivity.
  - reflexivity.
  - vm_compute. reflexivity.
  - vm_compute. reflexivity.
Defined.

(** ** C7: the branch step *)

Lemma fork_boards_each (b : Sudoku) (row col : Z) (values : list Z)
    (forks : list Sudoku) :
  fork_boards b row col values = Ok forks →
  Forall2 (λ v f, ∃ ok, set_cell b v row col = Ok (ok, f)) values forks.
Proof.
  revert forks. induction values as [|v values IH]; intros forks H; simpl in H.
  - injection H as <-. constructor.
  - apply bind_Ok in H as ([ok f] & Hset & H). apply bind_Ok in H as (fs & Hfs & H).
    injection H as <-. constructor; [by exists ok|by apply IH].
Qed.

(** On a board of the invariant every candidate of a cell can be
    assigned to it: the forks of the branch step all hold their value. *)
Lemma fork_boards_assign (b : Sudoku) (row col : Z) (c : Cell) (values : list Z) :
  Inv b → get_cell b row col = Ok c → (∀ v, v ∈ values → v ∈ possible c) →
  ∃ forks, fork_boards b row col values = Ok forks ∧
           Forall2 (λ v f, set_cell b v row col = Ok (true, f) ∧
                           (∃ x, get_cell f row col = Ok x ∧ value x = v ∧
                                 possible x = []) ∧
                           cells_filled f = cells_filled b + 1)
                   values forks.
Proof.
  intros HI Hc. pose proof (inv_wf _ HI) as Hwf. pose proof Hwf as (_ & _ & Hsq).
  induction values as [|v values IH]; intros Hin; cbn [fork_boards].
  - exists []. split; [done|constructor].
  - destruct IH as (forks & -> & Hall); [intros w Hw; apply Hin; by right|].
    destruct (set_cell_success b v row col c HI Hc) as (f & Hset & Has & _);
      [apply Hin; by left|].
    rewrite Hset. cbn [mbind res_bind snd]. exists (f :: forks).
    split; [done|]. constructor; [|done]. split_and!; [done| |].
    + pose proof (assigned_target b v row col c f Hwf Hc Has) as Hat.
      destruct Has as (_ & Em & _ & Hsq' & _).
      apply (get_cell_Ok _ _ _ _ _ Hsq) in Hc as (Hrow & Hcol & _).
      exists (mkCell v [] (cell_max_val c)). split; [|done].
      by apply (get_cell_Ok (dim b) f row col _ Hsq').
    + by destruct Has as (_ & _ & Ef & _).
Qed.

(** The turn of the loop of [solve] that branches. *)
Lemma solve_loop_branch (fuel : nat) (rest : list ref) (p : ref) (cur : option ref)
    (h : store) (b0 b : Sudoku) (row col : Z) (c : Cell) :
  h !! p = Some b0 → fill_in_all_knowns (S fuel) b0 = Ok b →
  solved b = Ok false → reached_dead_end b = Ok false →
  find_lowest_possibles b = Ok (row, col) → get_cell b row col = Ok c →
  solve_loop (S fuel) (rest ++ [p]) cur h =
  '(puzzles, h') ← fork_all p row col (possible c) rest (<[p := b]> h);
  solve_loop fuel puzzles (Some p) h'.
Proof.
  intros Hp Hfill Hsolved Hdead Hlow Hc. cbn [solve_loop].
  rewrite py_pop_app, (invoke_Some _ _ _ _ Hp), Hfill. cbn [mbind res_bind].
  rewrite (deref_Some _ _ b) by (apply list_lookup_insert_eq; by eapply lookup_lt_Some).
  cbn [mbind res_bind]. rewrite Hsolved. cbn [mbind res_bind].
  rewrite Hdead. cbn [mbind res_bind andb]. rewrite Hlow. cbn [mbind res_bind].
  by rewrite Hc.
Qed.

(** C7. Every cell's candidate list is strictly ascending (so without
    duplicates).  The branch step of [solve] runs through the candidates
    of the selected cell in list order; for each it makes a deep copy of
    the current branch, a new object, assigns the value into the copy and
    pushes the copy, so the copies stand on the work list in ascending
    order of their values and no older object is touched.  On a reachable
    branch the step returns, every one of these assignments succeeds
    ([set_cell] returns [True]), and the copy made for a value has that
    value in the selected cell, no candidate left there, and one more
    filled cell than the branch.  [pop] takes the work list from its
    end: the branch pushed last is explored next, before any older
    pending branch. *)
Theorem C7_branch_order :
  (∀ s i j c, reachable s → cell_at (cell s) i j = Some c →
     ascending (possible c) ∧ NoDup (possible c)) ∧
  (∀ fuel rest p cur h b0 b row col c,
     h !! p = Some b0 → fill_in_all_knowns (S fuel) b0 = Ok b →
     solved b = Ok false → reached_dead_end b = Ok false →
     find_lowest_possibles b = Ok (row, col) → get_cell b row col = Ok c →
     solve_loop (S fuel) (rest ++ [p]) cur h =
     '(puzzles, h') ← fork_all p row col (possible c) rest (<[p := b]> h);
     solve_loop fuel puzzles (Some p) h') ∧
  (∀ p b row col values puzzles h puzzles' h',
     h !! p = Some b → fork_all p row col values puzzles h = Ok (puzzles', h') →
     ∃ forks, puzzles' = puzzles ++ seq (length h) (length values) ∧
              h' = h ++ forks ∧
              Forall2 (λ v f, ∃ ok, set_cell b v row col = Ok (ok, f)) values forks) ∧
  (∀ p b row col c puzzles h,
     reachable b → h !! p = Some b → get_cell b row col = Ok c →
     ∃ forks,
       fork_all p row col (possible c) puzzles h =
         Ok (puzzles ++ seq (length h) (length (possible c)), h ++ forks) ∧
       Forall2 (λ v f, set_cell b v row col = Ok (true, f) ∧
                       (∃ x, get_cell f row col = Ok x ∧ value x = v ∧
                             possible x = []) ∧
                       cells_filled f = cells_filled b + 1)
               (possible c) forks) ∧
  (∀ (older pushed : list ref) (last : ref),
     py_pop (older ++ pushed ++ [last]) = Some (older ++ pushed, last)).
Proof.
  split_and!.
  - intros s i j c HI%reachable_Inv Hc.
    destruct (inv_cells _ HI _ _ _ Hc) as (Hasc & _). split; [done|].
    by apply ascending_NoDup.
  - apply solve_loop_branch.
  - intros p b row col values puzzles h puzzles' h' Hp H.
    pose proof (fork_all_refines p b row col values puzzles h Hp) as Hag.
    rewrite H in Hag.
    destruct (fork_boards b row col values) as [forks| |] eqn:E; simpl in Hag; try done.
    destruct Hag as [-> ->]. pose proof (fork_boards_each _ _ _ _ _ E) as Hall.
    exists forks. by rewrite (Forall2_length _ _ _ Hall).
  - intros p b row col c puzzles h Hb Hp Hc.
    destruct (fork_boards_assign b row col c (possible c) (reachable_Inv _ Hb) Hc)
      as (forks & E & Hall); [done|].
    pose proof (fork_all_refines p b row col (possible c) puzzles h Hp) as Hag.
    rewrite E in Hag.
    destruct (fork_all p row col (possible c) puzzles h) as [[puzzles' h']| |];
      simpl in Hag; try done.
    destruct Hag as [-> ->]. exists forks.
    by rewrite (Forall2_length _ _ _ Hall).
  - intros older pushed last. rewrite app_assoc. apply py_pop_app.
Qed.

Lemma C7_branch_order_witness :
  first_cell_forks.1 = [] ++ seq 1 4 ∧
  ∃ forks,
    fork_all 0%nat 0 0 [1; 2; 3; 4] [] [Sudoku_init 2] =
      Ok ([] ++ seq 1 4, [Sudoku_init 2] ++ forks) ∧
    Forall2 (λ v f, set_cell (Sudoku_init 2) v 0 0 = Ok (true, f) ∧
                    (∃ x, get_cell f 0 0 = Ok x ∧ value x = v ∧ possible x = []) ∧
                    cells_filled f = cells_filled (Sudoku_init 2) + 1)
            [1; 2; 3; 4] forks.
Proof.
  destruct C7_branch_order as (_ & _ & H3 & H4 & _). split.
  - destruct (H3 0%nat (Sudoku_init 2) 0 0 [1; 2; 3; 4] [] [Sudoku_init 2]
                first_cell_forks.1 first_cell_forks.2) as (forks & E & _).
    + reflexivity.
    + vm_compute. reflexivity.
    + exact E.
  - apply (H4 0%nat (Sudoku_init 2) 0 0 (mkCell 0 [1; 2; 3; 4] 4) [] [Sudoku_init 2]).
    + apply reach_init. lia.
    + reflexivity.
    + reflexivity.
Defined.

(** ** C10: the display mapping *)

Lemma Cell_str_value (c : Cell) : Cell_str c = str_of_value (value c).
Proof. done. Qed.

Lemma str_of_value_table (alphabet : string) (lo hi v : Z) :
  forallb (λ w, String.eqb (str_of_value w) (symbol alphabet (w - lo)))
          (range lo (hi + 1)) = true →
  lo ≤ v ≤ hi → str_of_value v = symbol alphabet (v - lo).
Proof.
  intros H Hv. rewrite forallb_forall in H. apply String.eqb_eq. apply H.
  apply list_elem_of_In, elem_of_range. lia.
Qed.

(** C10. [Cell.__str__] renders 0 as the blank marker [_], 1 to 9 as
    the decimal digit, 10 to 35 as the capital letters A to Z, 36 to 64
    as the small letters a to z followed by the three symbols [{], [|]
    and [}], and any value above 64 as the give-up marker [*]. *)
Theorem C10_display_mapping (c : Cell) :
  (value c = 0 → Cell_str c = "_"%string) ∧
  (1 ≤ value c ≤ 9 → Cell_str c = symbol "123456789" (value c - 1)) ∧
  (10 ≤ value c ≤ 35 →
     Cell_str c = symbol "ABCDEFGHIJKLMNOPQRSTUVWXYZ" (value c - 10)) ∧
  (36 ≤ value c ≤ 64 →
     Cell_str c = symbol "abcdefghijklmnopqrstuvwxyz{|}" (value c - 36)) ∧
  (64 < value c → Cell_str c = "*"%string).
Proof.
  rewrite Cell_str_value. split_and!.
  - by intros ->.
  - by apply str_of_value_table.
  - by apply str_of_value_table.
  - by apply str_of_value_table.
  - intros Hv. unfold str_of_value, Cell_str. simpl.
    by rewrite !bool_decide_false by lia.
Qed.

Lemma C10_display_mapping_witness :
  Cell_str (mkCell 62 [] 64) = "{"%string.
Proof.
  destruct (C10_display_mapping (mkCell 62 [] 64)) as (_ & _ & _ & H & _).
  apply H. simpl. lia.
Defined.

(** * Further properties of the engine *)

(** ** Candidate lists are exact *)

Lemma wf_dim_max (s : Sudoku) : wf s → Z.of_nat (dim s) = max_val s.
Proof. intros (? & E & _). unfold dim. rewrite E. lia. Qed.

Lemma exact_init (bs : Z) : exact (Sudoku_init bs).
Proof.
  intros i j c w Hc _ Hw Hn. apply cell_at_init in Hc as ->.
  destruct Hn. simpl. apply elem_of_range. simpl in Hw. lia.
Qed.

Lemma exact_assigned (s : Sudoku) (v row col : Z) (c0 : Cell) (s' : Sudoku) :
  Inv s → exact s → get_cell s row col = Ok c0 → v ∈ possible c0 →
  assigned s v row col s' → exact s'.
Proof.
  intros HI Hex Hc0 Hv Has. pose proof (inv_wf _ HI) as Hwf.
  pose proof Hwf as (_ & _ & Hsq).
  pose proof Hc0 as Hget.
  apply (get_cell_Ok _ _ _ _ _ Hsq) in Hc0 as (Hrow & Hcol & Hat).
  pose proof (assigned_target _ _ _ _ _ _ Hwf Hget Has) as Ht.
  pose proof Has as (Eb & Em & _ & Hsq' & Hcells).
  assert (value c0 = 0) as Hc00.
  { destruct (decide (value c0 = 0)) as [|Hne]; [done|].
    destruct (inv_cells _ HI _ _ _ Hat) as (_ & _ & Hfill & _).
    rewrite (Hfill Hne) in Hv. by apply elem_of_nil in Hv. }
  intros i j c' w Hc' Hv0 Hw Hn. rewrite Eb, Em in *.
  destruct (assigned_cell _ _ _ _ _ _ _ _ Hwf Has Hc') as (Hi & Hj & x & Hx & ->).
  destruct (decide (i = _ ∧ j = _)) as [[-> ->]|Hq]; simpl in *.
  { destruct (inv_cells _ HI _ _ _ Hat) as (_ & Hr & _). specialize (Hr _ Hv). lia. }
  rewrite iter_rm_value in Hv0.
  (* the values [x] already lacked are held by a cell that still holds them *)
  assert (w ∉ possible x →
          ∃ i' j' c'', peers (box_size s) i j i' j' ∧
                       cell_at (cell s') i' j' = Some c'' ∧ value c'' = w) as Hold.
  { intros Hnx. destruct (Hex _ _ _ _ Hx Hv0 Hw Hnx) as (i' & j' & y & Hp & Hy & Ey).
    exists i', j'. eexists. split; [done|]. split; [by apply Hcells|].
    rewrite decide_False.
    - by rewrite iter_rm_value.
    - intros [-> ->]. rewrite Hat in Hy. injection Hy as <-. lia. }
  destruct (decide (w = v)) as [->|Hwv].
  - destruct (decide (v ∈ possible x)) as [Hin|Hnin]; [|by apply Hold].
    destruct (decide (0 < hits (dim s) (visited s row col) i j)%nat) as [Hh|Hh].
    + apply visited_hits in Hh; [|done..].
      exists (norm (dim s) row), (norm (dim s) col). eexists.
      split; [by apply peers_sym|]. split; [exact Ht|done].
    + replace (hits (dim s) (visited s row col) i j) with 0%nat in Hn by lia.
      simpl in Hn. done.
  - apply Hold. intros Hin. apply Hn. by apply iter_rm_other.
Qed.

Lemma set_cell_exact (s : Sudoku) (v row col : Z) (ok : bool) (s' : Sudoku) :
  Inv s → exact s → set_cell s v row col = Ok (ok, s') → exact s'.
Proof.
  intros HI Hex H. destruct ok.
  - destruct (set_cell_true_inv _ _ _ _ _ H) as (c & Hc & Hv).
    destruct (set_cell_success _ _ _ _ _ HI Hc Hv) as (s'' & E & Has & _).
    rewrite E in H. injection H as <-. by eapply exact_assigned.
  - apply set_cell_false_iff in H as (c & _ & _ & ->). done.
Qed.

Lemma fill_exact (fuel : nat) (s s' : Sudoku) :
  Inv s → exact s → fill_in_all_knowns fuel s = Ok s' → exact s'.
Proof.
  revert s. induction fuel as [|fuel IH]; intros s HI Hex H; [done|]. simpl in H.
  apply bind_Ok in H as (o & Ho & H). destruct o as [[r c]|].
  - apply bind_Ok in H as (x & _ & H). apply bind_Ok in H as (w & _ & H).
    apply bind_Ok in H as ([ok s1] & Hs & H). simpl in H.
    eapply (IH s1); [by eapply set_cell_Inv|by eapply set_cell_exact|done].
  - by injection H as <-.
Qed.

Lemma reachable_exact (s : Sudoku) : reachable s → exact s.
Proof.
  induction 1 as [bs Hbs|s v row col ok s' Hs IH H|s fuel s' Hs IH H].
  - apply exact_init.
  - eapply set_cell_exact; [by apply reachable_Inv| |]; done.
  - eapply fill_exact; [by apply reachable_Inv| |]; done.
Qed.

(** ** Completions survive propagation *)

(** A completion offers, at every empty cell, one of the cell's candidates. *)
Lemma completes_candidate (sol : nat → nat → Z) (s : Sudoku) (i j : nat) (c : Cell) :
  Inv s → exact s → completes sol s →
  cell_at (cell s) i j = Some c → value c = 0 → sol i j ∈ possible c.
Proof.
  intros HI Hex [[Hrange Hdiff] Hagree] Hc Hv0.
  pose proof (inv_wf _ HI) as Hwf. pose proof Hwf as (_ & _ & Hsq).
  destruct (cell_at_lt _ _ _ _ _ Hsq Hc) as [Hi Hj].
  destruct (decide (sol i j ∈ possible c)) as [|Hn]; [done|exfalso].
  pose proof (Hrange i j Hi Hj) as Hr. rewrite (wf_dim_max _ Hwf) in Hr.
  destruct (Hex _ _ _ _ Hc Hv0 Hr Hn) as (i' & j' & c' & Hp & Hc' & E).
  destruct (cell_at_lt _ _ _ _ _ Hsq Hc') as [Hi' Hj'].
  apply (Hdiff i j i' j'); try done.
  - intros [= -> ->]. rewrite Hc in Hc'. injection Hc' as <-. lia.
  - rewrite (Hagree _ _ _ Hc'); [done|lia].
Qed.

Lemma completes_assigned (sol : nat → nat → Z) (s : Sudoku) (v row col : Z)
    (s' : Sudoku) :
  wf s → completes sol s → in_bounds (dim s) row → in_bounds (dim s) col →
  v = sol (norm (dim s) row) (norm (dim s) col) →
  assigned s v row col s' → completes sol s'.
Proof.
  intros Hwf [Hvalid Hagree] Hrow Hcol Hv Has.
  pose proof Has as (Eb & Em & _ & _ & _).
  split; [unfold dim in *; by rewrite Eb, Em|].
  intros i j c' Hc' Hne.
  destruct (assigned_cell _ _ _ _ _ _ _ _ Hwf Has Hc') as (_ & _ & x & Hx & ->).
  destruct (decide (i = _ ∧ j = _)) as [[-> ->]|Hq]; simpl in *; [done|].
  rewrite iter_rm_value in *. by apply (Hagree _ _ _ Hx).
Qed.

Lemma fill_completes (sol : nat → nat → Z) (fuel : nat) (s s' : Sudoku) :
  Inv s → exact s → completes sol s → fill_in_all_knowns fuel s = Ok s' →
  completes sol s'.
Proof.
  revert s. induction fuel as [|fuel IH]; intros s HI Hex Hsol H; [done|].
  simpl in H. apply bind_Ok in H as (o & Ho & H). destruct o as [[r c]|].
  - destruct (fill_step s r c HI Ho) as (x & w & s1 & Hx & Hw & Hg & Hset & Has & HI1 & _).
    apply bind_Ok in H as (x' & Hx' & H). rewrite Hx in Hx'. injection Hx' as <-.
    apply bind_Ok in H as (w' & Hw' & H). rewrite Hg in Hw'. injection Hw' as <-.
    apply bind_Ok in H as (r1 & Hs & H). rewrite Hset in Hs. injection Hs as <-.
    simpl in H. pose proof (inv_wf _ HI) as Hwf. pose proof Hwf as (_ & _ & Hsq).
    pose proof Hx as Hat. apply (get_cell_Ok _ _ _ _ _ Hsq) in Hat as (Hr & Hc & Hat).
    apply (IH s1); [done| |  |done].
    + apply (exact_assigned s w r c x s1 HI Hex Hx); [|done]. rewrite Hw. by left.
    + apply (completes_assigned sol s w r c s1 Hwf Hsol Hr Hc); [|done].
      assert (value x = 0) as Hv0.
      { destruct (decide (value x = 0)) as [|Hne]; [done|].
        destruct (inv_cells _ HI _ _ _ Hat) as (_ & _ & Hfill & _).
        by rewrite (Hfill Hne) in Hw. }
      pose proof (completes_candidate sol s _ _ x HI Hex Hsol Hat Hv0) as Hin.
      rewrite Hw in Hin. by apply list_elem_of_singleton in Hin.
  - by injection H as <-.
Qed.

(** ** Boards only move forward *)

(** [keeps] is a preorder that [set_cell] and [fill_in_all_knowns] follow. *)
Lemma keeps_refl (s : Sudoku) : keeps s s.
Proof. split_and!; [done..|]. intros i j c Hc. eauto. Qed.

Lemma keeps_trans (s1 s2 s3 : Sudoku) : keeps s1 s2 → keeps s2 s3 → keeps s1 s3.
Proof.
  intros (Eb1 & Em1 & Ef1 & H1) (Eb2 & Em2 & Ef2 & H2).
  split_and!; [congruence..|lia|].
  intros i j c Hc. destruct (H1 _ _ _ Hc) as (c' & Hc' & Hv' & Hp').
  destruct (H2 _ _ _ Hc') as (c'' & Hc'' & Hv'' & Hp''). exists c''.
  split_and!; [done| |by etrans].
  intros Hne. rewrite <- (Hv' Hne). apply Hv''. by rewrite (Hv' Hne).
Qed.

Lemma set_cell_keeps (s : Sudoku) (v row col : Z) (ok : bool) (s' : Sudoku) :
  Inv s → set_cell s v row col = Ok (ok, s') → keeps s s'.
Proof.
  intros HI H. destruct ok.
  - destruct (set_cell_true_inv _ _ _ _ _ H) as (c0 & Hc0 & Hv).
    destruct (set_cell_success _ _ _ _ _ HI Hc0 Hv) as (s'' & E & Has & _).
    rewrite E in H. injection H as <-.
    pose proof (inv_wf _ HI) as Hwf. pose proof Hwf as (_ & _ & Hsq).
    apply (get_cell_Ok _ _ _ _ _ Hsq) in Hc0 as (_ & _ & Hat).
    destruct Has as (Eb & Em & Ef & _ & Hcells). split_and!; [done..|lia|].
    intros i j c Hc. eexists. split; [by apply Hcells|].
    destruct (decide (i = _ ∧ j = _)) as [[-> ->]|Hq]; simpl.
    + split; [|apply sublist_nil_l]. intros Hne.
      rewrite Hat in Hc. injection Hc as <-.
      destruct (inv_cells _ HI _ _ _ Hat) as (_ & _ & Hfill & _).
      rewrite (Hfill Hne) in Hv. by apply elem_of_nil in Hv.
    + rewrite iter_rm_value. split; [done|apply iter_rm_sublist].
  - apply set_cell_false_iff in H as (c & _ & _ & ->). apply keeps_refl.
Qed.

Lemma fill_keeps (fuel : nat) (s s' : Sudoku) :
  Inv s → fill_in_all_knowns fuel s = Ok s' → keeps s s'.
Proof.
  revert s. induction fuel as [|fuel IH]; intros s HI H; [done|]. simpl in H.
  apply bind_Ok in H as (o & Ho & H). destruct o as [[r c]|].
  - apply bind_Ok in H as (x & _ & H). apply bind_Ok in H as (w & _ & H).
    apply bind_Ok in H as ([ok s1] & Hs & H). simpl in H.
    eapply keeps_trans; [by eapply set_cell_keeps|].
    eapply IH; [by eapply set_cell_Inv|done].
  - injection H as <-. apply keeps_refl.
Qed.

(** Invariant and exactness together. *)
Lemma fill_tight (fuel : nat) (s s' : Sudoku) :
  Inv s ∧ exact s → fill_in_all_knowns fuel s = Ok s' → Inv s' ∧ exact s'.
Proof. intros [HI Hex] H. split; [by eapply fill_Inv|by eapply fill_exact]. Qed.

(** No board with a completion is a dead end. *)
Lemma completes_not_dead (sol : nat → nat → Z) (s : Sudoku) :
  Inv s → exact s → completes sol s → reached_dead_end s = Ok false.
Proof.
  intros HI Hex Hsol.
  destruct (reached_dead_end_spec s (inv_wf _ HI)) as ([] & E & Hd); [|done].
  destruct Hd as (i & j & x & Hx & Hv & Hnil).
  pose proof (completes_candidate sol s _ _ x HI Hex Hsol Hx Hv) as Hin.
  rewrite Hnil in Hin. by apply elem_of_nil in Hin.
Qed.

(** Among the forks of a board with a completion, one has it too. *)
Lemma fork_boards_completes (sol : nat → nat → Z) (b : Sudoku) (row col : Z)
    (c : Cell) (forks : list Sudoku) :
  Inv b → exact b → completes sol b → get_cell b row col = Ok c → value c = 0 →
  Forall2 (λ v f, set_cell b v row col = Ok (true, f) ∧ assigned b v row col f ∧
                  Inv f ∧ (open f < open b)%nat) (possible c) forks →
  ∃ f, f ∈ forks ∧ completes sol f.
Proof.
  intros HI Hex Hsol Hc Hv0 Hforks.
  pose proof (inv_wf _ HI) as Hwf. pose proof Hwf as (_ & _ & Hsq).
  pose proof Hc as Hat. apply (get_cell_Ok _ _ _ _ _ Hsq) in Hat as (Hr & Hcl & Hat).
  pose proof (completes_candidate sol b _ _ c HI Hex Hsol Hat Hv0) as Hin.
  apply list_elem_of_lookup in Hin as [k Hk].
  destruct (Forall2_lookup_l _ _ _ _ _ Hforks Hk) as (f & Hf & _ & Has & _).
  exists f. split; [by eapply list_elem_of_lookup_2|].
  exact (completes_assigned sol b _ row col f Hwf Hsol Hr Hcl eq_refl Has).
Qed.

(** ** [solve] finds a completion when there is one *)

Lemma solve_boards_complete (sol : nat → nat → Z) (fuel : nat)
    (stack : list Sudoku) (cur r : option Sudoku) :
  Forall (λ b, Inv b ∧ exact b) stack →
  (∃ b, b ∈ stack ∧ completes sol b) ∨ (stack = [] ∧ cur ≠ None) →
  solve_boards fuel stack cur = Ok r → r ≠ None.
Proof.
  revert stack cur. induction fuel as [|fuel IH]; intros stack cur Hall Hsol H;
    [done|].
  cbn [solve_boards] in H. destruct (py_pop stack) as [[rest b0]|] eqn:Epop.
  - apply py_pop_Some in Epop as ->. apply Forall_app in Hall as [Hrest Hb0].
    apply Forall_cons_1 in Hb0 as [[HI0 Hex0] _].
    apply bind_Ok in H as (b & Hb & H).
    destruct (fill_tight _ _ _ (conj HI0 Hex0) Hb) as [HI Hex].
    (* the completion is one of [b] or of a board of [rest] *)
    assert (completes sol b ∨ ∃ b', b' ∈ rest ∧ completes sol b') as Hwhere.
    { destruct Hsol as [(b' & Hin & Hb')|[E _]]; [|by destruct rest].
      apply elem_of_app in Hin as [?|Hin]; [eauto|].
      apply list_elem_of_singleton in Hin as ->. left.
      exact (fill_completes sol _ b0 b HI0 Hex0 Hb' Hb). }
    destruct (solved_spec b (inv_wf _ HI)) as (sv & Esv & Hsv). rewrite Esv in H.
    cbn [mbind res_bind] in H. destruct sv.
    + apply (IH [] (Some b)); [constructor| |done]. by right.
    + destruct (reached_dead_end_spec b (inv_wf _ HI)) as (dead & Ed & Hdead).
      rewrite Ed in H. cbn [mbind res_bind] in H.
      assert (dead = true → ∃ b', b' ∈ rest ∧ completes sol b') as Hrestsol.
      { intros ->. destruct Hwhere as [Hbsol|?]; [|done].
        pose proof (completes_not_dead sol b HI Hex Hbsol). congruence. }
      destruct dead; cbn [andb] in H.
      * destruct (Hrestsol eq_refl) as (b' & Hin & Hb').
        case_bool_decide as Hl.
        -- destruct rest; [by apply elem_of_nil in Hin|done].
        -- apply (IH rest (Some b)); [done| |done]. eauto.
      * destruct Hsv as (i & j & y & Hy & Hy0).
        destruct (find_lowest_possibles_spec b HI) as (row & col & x & El & Hx & Hne & _);
          [exists i, j, y; split; [done|by eapply Hdead]|].
        rewrite El in H. cbn [mbind res_bind] in H. rewrite Hx in H.
        cbn [mbind res_bind] in H.
        destruct (fork_boards_spec b row col x (possible x) HI Hx) as (forks & Ef & Hforks);
          [done|].
        rewrite Ef in H. cbn [mbind res_bind] in H.
        apply (IH (rest ++ forks) (Some b)); [| |done].
        -- apply Forall_app. split; [done|]. apply list.Forall_forall. intros f Hf.
           apply list_elem_of_lookup in Hf as [k Hk].
           destruct (Forall2_lookup_r _ _ _ _ _ Hforks Hk) as (v & Hv & _ & Has & HIf & _).
           split; [done|]. apply (exact_assigned b v row col x f HI Hex Hx); [|done].
           by eapply list_elem_of_lookup_2.
        -- left. destruct Hwhere as [Hbsol|(b' & Hin & Hb')].
           ++ assert (value x = 0) as Hx0.
              { destruct (decide (value x = 0)) as [|Hnz]; [done|].
                pose proof (inv_wf _ HI) as (_ & _ & Hsq).
                pose proof Hx as Hat.
                apply (get_cell_Ok _ _ _ _ _ Hsq) in Hat as (_ & _ & Hat).
                destruct (inv_cells _ HI _ _ _ Hat) as (_ & _ & Hfill & _).
                by destruct (Hne (Hfill Hnz)). }
              destruct (fork_boards_completes sol b row col x forks HI Hex Hbsol Hx Hx0 Hforks)
                as (f & Hf & Hfsol).
              exists f. rewrite elem_of_app. auto.
           ++ exists b'. rewrite elem_of_app. auto.
  - apply py_pop_None in Epop as ->. injection H as <-.
    destruct Hsol as [(b & Hin & _)|[_ ?]]; [by apply elem_of_nil in Hin|done].
Qed.

Lemma solve_boards_keeps (b0 : Sudoku) (fuel : nat) (stack : list Sudoku)
    (cur r : option Sudoku) :
  Forall (λ b, Inv b ∧ keeps b0 b) stack → (∀ b, cur = Some b → keeps b0 b) →
  solve_boards fuel stack cur = Ok r → ∀ b, r = Some b → keeps b0 b.
Proof.
  revert stack cur. induction fuel as [|fuel IH]; intros stack cur Hall Hcur H;
    [done|].
  cbn [solve_boards] in H. destruct (py_pop stack) as [[rest b1]|] eqn:Epop.
  - apply py_pop_Some in Epop as ->. apply Forall_app in Hall as [Hrest Hb1].
    apply Forall_cons_1 in Hb1 as [[HI1 Hk1] _].
    apply bind_Ok in H as (b & Hb & H).
    pose proof (fill_Inv _ _ _ HI1 Hb) as HI.
    assert (keeps b0 b) as Hk by (eapply keeps_trans; [done|by eapply fill_keeps]).
    assert (∀ b', Some b = Some b' → keeps b0 b') as Hsome by (by intros ? [= <-]).
    destruct (solved b) as [[]| |]; try done; cbn [mbind res_bind] in H.
    + by eapply (IH [] (Some b)).
    + destruct (reached_dead_end b) as [[]| |]; try done;
        cbn [mbind res_bind andb] in H.
      * case_bool_decide; [by eapply (IH rest None)|by eapply (IH rest (Some b))].
      * destruct (find_lowest_possibles b) as [[row col]| |]; try done.
        cbn [mbind res_bind] in H.
        destruct (get_cell b row col) as [c| |]; try done. cbn [mbind res_bind] in H.
        destruct (fork_boards b row col (possible c)) as [forks| |] eqn:Ef; try done.
        cbn [mbind res_bind] in H.
        eapply (IH (rest ++ forks) (Some b)); [|done..].
        apply Forall_app. split; [done|]. apply list.Forall_forall. intros f Hf.
        apply list_elem_of_lookup in Hf as [k Hk'].
        destruct (Forall2_lookup_r _ _ _ _ _ (fork_boards_each _ _ _ _ _ Ef) Hk')
          as (v & _ & ok & Hset).
        split; [by eapply set_cell_Inv|].
        eapply keeps_trans; [done|by eapply set_cell_keeps].
  - by injection H as <-.
Qed.

(** A full board of the invariant is a completion of every board it keeps. *)
Lemma keeps_completes (b b' : Sudoku) :
  wf b → Inv b' → full b' → keeps b b' → completes (values_of b') b.
Proof.
  intros Hwf HI' Hfull (Eb & Em & _ & Hk). pose proof Hwf as (_ & _ & Hsq).
  pose proof (inv_wf _ HI') as (_ & _ & Hsq').
  assert (dim b' = dim b) as Ed by (unfold dim; by rewrite Em).
  rewrite Ed in Hsq'. unfold values_of. split; [split|].
  - intros i j Hi Hj. destruct (square_cell_at _ _ i j Hsq' Hi Hj) as [c Hc].
    rewrite Hc. destruct (inv_cells _ HI' _ _ _ Hc) as (_ & _ & _ & Hv).
    pose proof (Hfull _ _ _ Hc). rewrite (wf_dim_max _ Hwf), <- Em. lia.
  - intros i j i' j' Hi Hj Hi' Hj' Hne Hp.
    destruct (square_cell_at _ _ i j Hsq' Hi Hj) as [c Hc].
    destruct (square_cell_at _ _ i' j' Hsq' Hi' Hj') as [c' Hc'].
    rewrite Hc, Hc'. rewrite <- Eb in Hp.
    apply (inv_unique _ HI' _ _ _ _ _ _ Hc Hc' Hne Hp). by eapply Hfull.
  - intros i j c Hc Hne. destruct (Hk _ _ _ Hc) as (c' & -> & Hv & _). by apply Hv.
Qed.

(** What [solve_boards] returns on one reachable board, whatever fuel
    it had. *)
Lemma solve_boards_result (fuel : nat) (b : Sudoku) (r : option Sudoku) :
  reachable b → solve_boards fuel [b] None = Ok r →
  match r with
  | Some b' => Inv b' ∧ full b' ∧ keeps b b' ∧ completes (values_of b') b
  | None => ∀ sol, ¬ completes sol b
  end.
Proof.
  intros Hb H. pose proof (reachable_Inv _ Hb) as HI.
  pose proof (reachable_exact _ Hb) as Hex.
  destruct (solve_boards_total (dim b) (fuel `max` S (turns (dim b) (open b)))
              [b] None) as (r' & E & Hgood).
  { constructor; [split; [done|lia]|constructor]. }
  { unfold cost; simpl. lia. }
  { done. }
  apply (solve_boards_mono _ (fuel `max` S (turns (dim b) (open b)))) in H as H';
    [|lia].
  rewrite H' in E. injection E as <-. destruct r as [b'|].
  - destruct Hgood as [HI' Hfull].
    assert (keeps b b') as Hk.
    { eapply (solve_boards_keeps b fuel [b] None); [|done|exact H|done].
      constructor; [|constructor]. split; [done|apply keeps_refl]. }
    split_and!; [done..|]. apply keeps_completes; [by apply inv_wf|done..].
  - intros sol Hsol.
    apply (solve_boards_complete sol fuel [b] None None); [| |done..].
    + by constructor.
    + left. exists b. split; [by left|done].
Qed.

Lemma completesb_correct (sol : nat → nat → Z) (s : Sudoku) :
  wf s → completesb sol s = true → completes sol s.
Proof.
  intros (_ & _ & Hsq) H. unfold completesb in H.
  apply andb_true_iff in H as [H H3]. apply andb_true_iff in H as [H1 H2].
  rewrite forallb_forall in H1, H2, H3. split; [split|].
  - intros i j Hi Hj.
    assert (In (i, j) (positions (dim s))) as Hin
      by (by apply list_elem_of_In, elem_of_positions).
    apply H1 in Hin. by apply bool_decide_eq_true in Hin.
  - intros i j i' j' Hi Hj Hi' Hj' Hne Hp.
    assert (In (i, j) (positions (dim s))) as Hin
      by (by apply list_elem_of_In, elem_of_positions).
    assert (In (i', j') (positions (dim s))) as Hin'
      by (by apply list_elem_of_In, elem_of_positions).
    apply H2 in Hin. rewrite forallb_forall in Hin. apply Hin in Hin'.
    apply bool_decide_eq_true in Hin'. by apply Hin'.
  - intros i j c Hc Hne. destruct (cell_at_lt _ _ _ _ _ Hsq Hc) as [Hi Hj].
    assert (In (i, j) (positions (dim s))) as Hin
      by (by apply list_elem_of_In, elem_of_positions).
    apply H3 in Hin. simpl in Hin. rewrite Hc in Hin.
    apply bool_decide_eq_true in Hin. by apply Hin.
Qed.

(** X1. [solve] is complete: on a reachable board that has a completion
    (a full grid with every value in 1..N, no value twice in a row, a
    column or a box, that agrees with the filled cells) it returns, with
    enough fuel, a reference to a full board, never [None], and the
    values of that board are a completion of the receiver. *)
Theorem X1_solve_complete (h : store) (self : ref) (b : Sudoku) (fuel : nat)
    (sol : nat → nat → Z) :
  h !! self = Some b → reachable b → completes sol b →
  (turns (dim b) (open b) < fuel)%nat →
  ∃ p h' b', solve fuel self h = Ok (Some p, h') ∧ h' !! p = Some b' ∧
             full b' ∧ completes (values_of b') b.
Proof.
  intros Hb Hreach Hsol Hfuel. pose proof (reachable_Inv _ Hreach) as HI.
  destruct (solve_boards_total (dim b) fuel [b] None) as (rb & E & _).
  { constructor; [split; [done|lia]|constructor]. }
  { unfold cost; simpl. lia. }
  { done. }
  pose proof (solve_boards_result fuel b rb Hreach E) as Hres.
  pose proof (solve_refines fuel self h b Hb) as Hag. rewrite E in Hag.
  destruct (solve fuel self h) as [[r h']| |]; simpl in Hag; try done.
  destruct Hag as (Hr & _). destruct rb as [b'|].
  - destruct r as [p|]; simpl in Hr; [|done]. exists p, h', b'.
    destruct Hres as (_ & ? & _ & ?). done.
  - by destruct (Hres sol).
Qed.

Lemma X1_solve_complete_witness :
  ∃ p h' b', solve 10 0%nat [almost_board] = Ok (Some p, h') ∧ h' !! p = Some b' ∧
             full b' ∧ completes (values_of b') almost_board.
Proof.
  apply (X1_solve_complete [almost_board] 0%nat almost_board 10 solution4).
  - reflexivity.
  - apply almost_board_reachable.
  - apply completesb_correct; [|vm_compute; reflexivity].
    apply inv_wf, reachable_Inv, almost_board_reachable.
  - vm_compute. lia.
Defined.

(** X2. Whenever [solve] returns on a reachable board: a returned board
    has every value of the receiver in its place and its values are a
    completion of the receiver; [None] is returned only when the
    receiver has no completion at all. *)
Theorem X2_solve_result (h : store) (self : ref) (b : Sudoku) (fuel : nat)
    (r : option ref) (h' : store) :
  h !! self = Some b → reachable b → solve fuel self h = Ok (r, h') →
  match r with
  | Some p => ∃ b', h' !! p = Some b' ∧ keeps b b' ∧ completes (values_of b') b
  | None => ∀ sol, ¬ completes sol b
  end.
Proof.
  intros Hb Hreach H.
  pose proof (solve_refines fuel self h b Hb) as Hag. rewrite H in Hag.
  destruct (solve_boards fuel [b] None) as [rb| |] eqn:E; simpl in Hag; try done.
  destruct Hag as (Hr & _).
  pose proof (solve_boards_result fuel b rb Hreach E) as Hres.
  destruct r as [p|], rb as [b'|]; simpl in Hr; try done.
  exists b'. destruct Hres as (_ & _ & ? & ?). done.
Qed.

Lemma X2_solve_result_witness :
  solve 100 0%nat [stuck_board] = Ok (None, stuck_solved.2) ∧
  ∀ sol, ¬ completes sol stuck_board.
Proof.
  assert (solve 100 0%nat [stuck_board] = Ok (None, stuck_solved.2)) as E
    by (vm_compute; reflexivity).
  split; [exact E|].
  exact (X2_solve_result [stuck_board] 0%nat stuck_board 100 None stuck_solved.2
           eq_refl stuck_board_reachable E).
Defined.

Lemma keeps_completes_back (sol : nat → nat → Z) (s s' : Sudoku) :
  keeps s s' → completes sol s' → completes sol s.
Proof.
  intros (Eb & Em & _ & Hk) [Hvalid Hagree]. unfold completes, dim in *.
  rewrite Eb, Em in Hvalid. split; [done|].
  intros i j c Hc Hne. destruct (Hk _ _ _ Hc) as (c' & Hc' & Hv & _).
  rewrite <- (Hv Hne). apply (Hagree _ _ _ Hc'). by rewrite (Hv Hne).
Qed.

(** X3. In a reachable board the candidate list of an empty cell holds
    exactly the values of 1..N that no cell of its row, its column or its
    box has: [set_cell] and [remove_value_from_possibles] remove a
    candidate for no other reason. *)
Theorem X3_candidates_exact (s : Sudoku) (i j : nat) (c : Cell) (w : Z) :
  reachable s → cell_at (cell s) i j = Some c → value c = 0 →
  w ∈ possible c ↔
  1 ≤ w ≤ max_val s ∧
  ∀ i' j' c', peers (box_size s) i j i' j' → cell_at (cell s) i' j' = Some c' →
              value c' ≠ w.
Proof.
  intros Hs Hc Hv0. pose proof (reachable_Inv _ Hs) as HI.
  pose proof (reachable_exact _ Hs) as Hex. split.
  - intros Hw. destruct (inv_cells _ HI _ _ _ Hc) as (_ & Hr & _).
    split; [by apply Hr|]. intros i' j' c' Hp Hc' E.
    apply (inv_elim _ HI _ _ _ _ _ _ Hc' Hc (peers_sym _ _ _ _ _ Hp)).
    + specialize (Hr _ Hw). lia.
    + by rewrite E.
  - intros [Hr Hfree]. destruct (decide (w ∈ possible c)) as [|Hn]; [done|exfalso].
    destruct (Hex _ _ _ _ Hc Hv0 Hr Hn) as (i' & j' & c' & Hp & Hc' & E).
    by apply (Hfree _ _ _ Hp Hc').
Qed.

Lemma X3_candidates_exact_witness :
  3 ∈ possible (mkCell 0 [1; 3; 4] 4) ↔
  1 ≤ 3 ≤ max_val stuck_board ∧
  ∀ i' j' c', peers (box_size stuck_board) 2 1 i' j' →
              cell_at (cell stuck_board) i' j' = Some c' → value c' ≠ 3.
Proof.
  apply (X3_candidates_exact stuck_board 2 1 (mkCell 0 [1; 3; 4] 4) 3).
  - apply stuck_board_reachable.
  - reflexivity.
  - reflexivity.
Defined.

(** X4. On a reachable board [reached_dead_end] never raises; when it
    returns [True] the board has no completion, and it returns [False]
    on every board [solved] accepts. *)
Theorem X4_dead_end_unsolvable (s : Sudoku) :
  reachable s →
  (reached_dead_end s = Ok true → ∀ sol, ¬ completes sol s) ∧
  (solved s = Ok true → reached_dead_end s = Ok false) ∧
  (reached_dead_end s = Ok true ∨ reached_dead_end s = Ok false).
Proof.
  intros Hs. pose proof (reachable_Inv _ Hs) as HI.
  pose proof (reachable_exact _ Hs) as Hex. split_and!.
  - intros Hd sol Hsol. pose proof (completes_not_dead sol s HI Hex Hsol). congruence.
  - intros Hsolved. destruct (solved_spec s (inv_wf _ HI)) as ([] & E & Hfull);
      [|congruence].
    destruct (reached_dead_end_spec s (inv_wf _ HI)) as ([] & Ed & Hd); [|done].
    destruct Hd as (i & j & x & Hx & Hv & _). by destruct (Hfull _ _ _ Hx).
  - destruct (reached_dead_end_spec s (inv_wf _ HI)) as ([] & Ed & _); auto.
Qed.

Lemma X4_dead_end_unsolvable_witness :
  reached_dead_end stuck_board = Ok true ∧ ∀ sol, ¬ completes sol stuck_board.
Proof.
  assert (reached_dead_end stuck_board = Ok true) as E by (vm_compute; reflexivity).
  destruct (X4_dead_end_unsolvable stuck_board stuck_board_reachable) as (H & _).
  split; [exact E|exact (H E)].
Defined.

(** X5. [set_cell] and [fill_in_all_knowns] only move a reachable board
    forward: box size and side stay, [cells_filled] does not decrease,
    every cell keeps the value it had, and no candidate list gains a
    value (each is a sublist of what it was). *)
Theorem X5_boards_only_advance (s : Sudoku) :
  reachable s →
  (∀ v row col ok s', set_cell s v row col = Ok (ok, s') → keeps s s') ∧
  (∀ fuel s', fill_in_all_knowns fuel s = Ok s' → keeps s s').
Proof.
  intros HI%reachable_Inv. split.
  - intros v row col ok s'. by apply set_cell_keeps.
  - intros fuel s'. by apply fill_keeps.
Qed.

Lemma X5_boards_only_advance_witness :
  keeps almost_board almost_filled.
Proof.
  destruct (X5_boards_only_advance almost_board almost_board_reachable) as [_ H].
  apply (H 5%nat). vm_compute. reflexivity.
Defined.

(** X6. [fill_in_all_knowns] neither loses nor invents completions: a
    grid completes the reachable board it is run on exactly when it
    completes the board it leaves. *)
Theorem X6_fill_keeps_completions (s : Sudoku) (fuel : nat) (s' : Sudoku)
    (sol : nat → nat → Z) :
  reachable s → fill_in_all_knowns fuel s = Ok s' →
  completes sol s ↔ completes sol s'.
Proof.
  intros Hs H. pose proof (reachable_Inv _ Hs) as HI. split.
  - intros Hsol. eapply fill_completes; [done|by apply reachable_exact|done..].
  - apply keeps_completes_back. by eapply fill_keeps.
Qed.

Lemma X6_fill_keeps_completions_witness :
  completes solution4 almost_board ↔ completes solution4 almost_filled.
Proof.
  apply (X6_fill_keeps_completions almost_board 5 almost_filled solution4).
  - apply almost_board_reachable.
  - vm_compute. reflexivity.
Defined.

(** ** [cells_filled] counts *)

Lemma NoDup_positions (n : nat) : NoDup (positions n).
Proof.
  unfold positions, cprod, list_cprod. apply NoDup_bind.
  - intros x1 x2 [a b] _ _ (? & [= -> _] & _)%list_elem_of_fmap
      (? & [= -> _] & _)%list_elem_of_fmap. done.
  - intros x _. apply NoDup_fmap_2; [|apply NoDup_seq]. by intros ? ? [= ->].
  - apply NoDup_seq.
Qed.

Lemma sum_list_with_ext {A : Type} (f g : A → nat) (l : list A) :
  (∀ x, x ∈ l → f x = g x) → sum_list_with f l = sum_list_with g l.
Proof.
  intros H. apply Nat.le_antisymm; apply sum_list_with_le; intros x Hx;
    rewrite (H x Hx); done.
Qed.

Lemma sum_list_with_succ {A : Type} (f g : A → nat) (l : list A) (x0 : A) :
  NoDup l → x0 ∈ l → g x0 = S (f x0) → (∀ x, x ∈ l → x ≠ x0 → g x = f x) →
  sum_list_with g l = S (sum_list_with f l).
Proof.
  intros Hnd Hin H0 Hext. apply list_elem_of_split in Hin as (l1 & l2 & ->).
  apply NoDup_app in Hnd as (_ & Hd & Hnd2). apply NoDup_cons in Hnd2 as [Hx2 _].
  rewrite !sum_list_with_app. simpl.
  rewrite (sum_list_with_ext g f l1), (sum_list_with_ext g f l2); [lia| |].
  - intros x Hx. apply Hext; [rewrite elem_of_app, elem_of_cons; auto|].
    by intros ->.
  - intros x Hx. apply Hext; [rewrite elem_of_app; auto|].
    intros ->. apply (Hd _ Hx). by left.
Qed.

Lemma sum_list_with_all_one {A : Type} (f : A → nat) (l : list A) :
  (∀ x, x ∈ l → (f x ≤ 1)%nat) →
  sum_list_with f l = length l ↔ ∀ x, x ∈ l → f x = 1%nat.
Proof.
  induction l as [|x l IH]; intros Hle; simpl.
  - split; [by intros _ ? ?%elem_of_nil|done].
  - pose proof (Hle x (list_elem_of_here _ _)).
    assert (∀ y, y ∈ l → (f y ≤ 1)%nat) as Hle' by (intros; apply Hle; by right).
    assert (sum_list_with f l ≤ length l)%nat as Hsum.
    { clear IH Hle H. induction l as [|y l IHl]; simpl; [done|].
      pose proof (Hle' y (list_elem_of_here _ _)).
      assert (sum_list_with f l ≤ length l)%nat
        by (apply IHl; intros; apply Hle'; by right). lia. }
    split.
    + intros E y. rewrite elem_of_cons. intros [->|Hy]; [lia|].
      apply (IH Hle'); [lia|done].
    + intros Hall. rewrite (Hall x (list_elem_of_here _ _)).
      f_equal. apply (IH Hle'). intros; apply Hall; by right.
Qed.

Lemma count_assigned (s : Sudoku) (v row col : Z) (c0 : Cell) (s' : Sudoku) :
  Inv s → get_cell s row col = Ok c0 → v ∈ possible c0 →
  assigned s v row col s' → filled s' = S (filled s).
Proof.
  intros HI Hc0 Hv Has. pose proof (inv_wf _ HI) as Hwf.
  pose proof Hwf as (_ & _ & Hsq).
  apply (get_cell_Ok _ _ _ _ _ Hsq) in Hc0 as (Hrow & Hcol & Hat).
  destruct (inv_cells _ HI _ _ _ Hat) as (_ & Hr & Hfill & _).
  pose proof (Hr _ Hv) as Hvr.
  destruct Has as (_ & Em & _ & _ & Hcells). unfold filled.
  replace (dim s') with (dim s) by (unfold dim; by rewrite Em).
  apply sum_list_with_succ with (x0 := (norm (dim s) row, norm (dim s) col)).
  - apply NoDup_positions.
  - apply elem_of_positions. split; by apply norm_lt.
  - unfold filled_at; cbn [fst snd]. rewrite (Hcells _ _ _ Hat), Hat.
    rewrite (decide_True (P := _ ∧ _)) by done. cbn [value].
    rewrite (decide_False (P := v = 0)) by lia.
    rewrite decide_True; [done|].
    destruct (decide (value c0 = 0)) as [|Hne]; [done|].
    rewrite (Hfill Hne) in Hv. by apply elem_of_nil in Hv.
  - intros [i j] Hin Hne. apply elem_of_positions in Hin as [Hi Hj].
    destruct (square_cell_at _ _ i j Hsq Hi Hj) as [x Hx].
    unfold filled_at; cbn [fst snd]. rewrite (Hcells _ _ _ Hx), Hx.
    rewrite (decide_False (P := _ ∧ _)) by (intros [-> ->]; by apply Hne).
    by rewrite iter_rm_value.
Qed.

Lemma set_cell_count (s : Sudoku) (v row col : Z) (ok : bool) (s' : Sudoku) :
  Inv s → cells_filled s = Z.of_nat (filled s) →
  set_cell s v row col = Ok (ok, s') → cells_filled s' = Z.of_nat (filled s').
Proof.
  intros HI Hcnt H. destruct ok.
  - destruct (set_cell_true_inv _ _ _ _ _ H) as (c & Hc & Hv).
    destruct (set_cell_success _ _ _ _ _ HI Hc Hv) as (s'' & E & Has & _).
    rewrite E in H. injection H as <-.
    rewrite (count_assigned _ _ _ _ _ _ HI Hc Hv Has).
    destruct Has as (_ & _ & -> & _). lia.
  - apply set_cell_false_iff in H as (c & _ & _ & ->). done.
Qed.

Lemma fill_count (fuel : nat) (s s' : Sudoku) :
  Inv s → cells_filled s = Z.of_nat (filled s) →
  fill_in_all_knowns fuel s = Ok s' → cells_filled s' = Z.of_nat (filled s').
Proof.
  revert s. induction fuel as [|fuel IH]; intros s HI Hcnt H; [done|]. simpl in H.
  apply bind_Ok in H as (o & Ho & H). destruct o as [[r c]|].
  - apply bind_Ok in H as (x & _ & H). apply bind_Ok in H as (w & _ & H).
    apply bind_Ok in H as ([ok s1] & Hs & H). simpl in H.
    apply (IH s1); [by eapply set_cell_Inv|by eapply set_cell_count|done].
  - by injection H as <-.
Qed.

Lemma filled_init (bs : Z) : filled (Sudoku_init bs) = 0%nat.
Proof.
  unfold filled. rewrite (sum_list_with_ext _ (λ _, 0%nat)).
  - induction (positions _); simpl; [done|lia].
  - intros [i j] _. unfold filled_at; cbn [fst snd].
    destruct (cell_at _ i j) as [c|] eqn:E; [|done].
    apply cell_at_init in E as ->. done.
Qed.

Lemma reachable_count (s : Sudoku) :
  reachable s → cells_filled s = Z.of_nat (filled s).
Proof.
  induction 1 as [bs Hbs|s v row col ok s' Hs IH H|s fuel s' Hs IH H].
  - by rewrite filled_init.
  - eapply set_cell_count; [by apply reachable_Inv| |]; done.
  - eapply fill_count; [by apply reachable_Inv| |]; done.
Qed.

(** X7. On a reachable board the counter [cells_filled] is the number of
    cells that hold a value, and [solved] returns [True] exactly when
    the counter is [max_val * max_val]. *)
Theorem X7_cells_filled_counts (s : Sudoku) :
  reachable s →
  cells_filled s = Z.of_nat (filled s) ∧
  (solved s = Ok true ↔ cells_filled s = max_val s * max_val s).
Proof.
  intros Hs. pose proof (reachable_Inv _ Hs) as HI.
  pose proof (inv_wf _ HI) as Hwf. pose proof Hwf as (_ & _ & Hsq).
  pose proof (reachable_count _ Hs) as Hcnt. split; [done|].
  assert (full s ↔ cells_filled s = max_val s * max_val s) as Hfull.
  { rewrite Hcnt, <- (wf_dim_max _ Hwf), <- Nat2Z.inj_mul, Nat2Z.inj_iff.
    rewrite <- length_positions. unfold filled.
    rewrite sum_list_with_all_one.
    - split.
      + intros Hf [i j] Hin. apply elem_of_positions in Hin as [Hi Hj].
        destruct (square_cell_at _ _ i j Hsq Hi Hj) as [x Hx].
        unfold filled_at; cbn [fst snd]. rewrite Hx.
        rewrite decide_False; [done|]. by eapply Hf.
      + intros Hall i j x Hx Hv. destruct (cell_at_lt _ _ _ _ _ Hsq Hx) as [Hi Hj].
        specialize (Hall (i, j)). unfold filled_at in Hall; cbn [fst snd] in Hall.
        rewrite Hx, decide_True in Hall by done.
        assert (0 = 1)%nat; [|done]. apply Hall. by apply elem_of_positions.
    - intros p _. unfold filled_at. destruct (cell_at _ _ _); [case_decide|]; lia. }
  rewrite <- Hfull. destruct (solved_spec s Hwf) as ([] & -> & Hsp).
  - done.
  - split; [done|]. intros Hf. destruct Hsp as (i & j & x & Hx & Hv).
    by destruct (Hf _ _ _ Hx).
Qed.

Lemma X7_cells_filled_counts_witness :
  cells_filled almost_board = Z.of_nat (filled almost_board) ∧
  (solved almost_board = Ok true ↔
   cells_filled almost_board = max_val almost_board * max_val almost_board).
Proof. apply (X7_cells_filled_counts almost_board almost_board_reachable). Defined.

(** ** Outcomes of [set_cell] *)

Lemma get_cell_out (s : Sudoku) (row col : Z) :
  wf s → ¬ (in_bounds (dim s) row ∧ in_bounds (dim s) col) →
  get_cell s row col = Raise IndexError.
Proof.
  intros (_ & _ & [Hl Hrows]) Hout. unfold get_cell.
  destruct (decide (in_bounds (dim s) row)) as [Hrow|Hrow].
  - destruct (lookup_lt_is_Some_2 (cell s) (norm (dim s) row)) as [r Hr];
      [rewrite Hl; by apply norm_lt|].
    rewrite (bind_Ok_l _ _ r) by (apply getitem_Ok; by rewrite Hl).
    apply getitem_Raise. rewrite (Hrows _ _ Hr). tauto.
  - rewrite getitem_Raise; [done|by rewrite Hl].
Qed.

(** X8. The three outcomes of [set_cell] on a reachable board: with both
    indices within [-N, N) it returns [True] and adds one to
    [cells_filled] when the value is a candidate of the cell, and returns
    [False] with the board unchanged when it is not; with an index out of
    that range it raises [IndexError]. *)
Theorem X8_set_cell_outcomes (s : Sudoku) (v row col : Z) :
  reachable s →
  (in_bounds (dim s) row ∧ in_bounds (dim s) col →
     ∃ c, get_cell s row col = Ok c ∧
          if bool_decide (v ∈ possible c)
          then ∃ s', set_cell s v row col = Ok (true, s') ∧
                     cells_filled s' = cells_filled s + 1
          else set_cell s v row col = Ok (false, s)) ∧
  (¬ (in_bounds (dim s) row ∧ in_bounds (dim s) col) →
     set_cell s v row col = Raise IndexError).
Proof.
  intros HI%reachable_Inv. pose proof (inv_wf _ HI) as Hwf. split.
  - intros [Hrow Hcol]. destruct (get_cell_total s row col Hwf Hrow Hcol) as [c Hc].
    exists c. split; [done|]. case_bool_decide as Hv.
    + destruct (set_cell_success _ _ _ _ _ HI Hc Hv) as (s' & E & Has & _).
      exists s'. split; [done|]. by destruct Has as (_ & _ & -> & _).
    + apply set_cell_false_iff. eauto.
  - intros Hout. unfold set_cell. by rewrite (get_cell_out _ _ _ Hwf Hout).
Qed.

Lemma X8_set_cell_outcomes_witness :
  set_cell stuck_board 1 4 0 = Raise IndexError.
Proof.
  destruct (X8_set_cell_outcomes stuck_board 1 4 0 stuck_board_reachable) as [_ H].
  apply H. vm_compute. intros [[_ H4] _]. discriminate H4.
Defined.

Lemma iter_rm_once (v : Z) (k : nat) (c : Cell) :
  NoDup (possible c) → (0 < k)%nat →
  Nat.iter k (λ x, remove_from_possible x v) c = remove_from_possible c v.
Proof.
  intros Hnd Hk. destruct k as [|k]; [lia|]. rewrite Nat.iter_succ_r.
  apply iter_rm_absent. by apply rm_notin.
Qed.

Lemma grid_ext (n : nat) (g1 g2 : list (list Cell)) :
  square n g1 → square n g2 →
  (∀ i j, (i < n)%nat → (j < n)%nat → cell_at g1 i j = cell_at g2 i j) →
  g1 = g2.
Proof.
  intros [Hl1 Hr1] [Hl2 Hr2] Hext. apply list_eq. intros i.
  destruct (decide (i < n)%nat) as [Hi|Hi].
  - destruct (lookup_lt_is_Some_2 g1 i) as [r1 E1]; [lia|].
    destruct (lookup_lt_is_Some_2 g2 i) as [r2 E2]; [lia|].
    rewrite E1, E2. f_equal. apply list_eq. intros j.
    destruct (decide (j < n)%nat) as [Hj|Hj].
    + specialize (Hext i j Hi Hj). unfold cell_at in Hext.
      by rewrite E1, E2 in Hext.
    + rewrite !lookup_ge_None_2; [done|rewrite (Hr2 _ _ E2); lia|rewrite (Hr1 _ _ E1); lia].
  - rewrite !lookup_ge_None_2; [done|lia..].
Qed.

Lemma assigned_norm (s : Sudoku) (v row col row' col' : Z) (s1 s2 : Sudoku) :
  Inv s → in_bounds (dim s) row → in_bounds (dim s) col →
  in_bounds (dim s) row' → in_bounds (dim s) col' →
  norm (dim s) row' = norm (dim s) row → norm (dim s) col' = norm (dim s) col →
  assigned s v row col s1 → assigned s v row' col' s2 → s1 = s2.
Proof.
  intros HI Hr Hc Hr' Hc' Er Ec Has1 Has2. pose proof (inv_wf _ HI) as Hwf.
  pose proof Hwf as (_ & _ & Hsq).
  destruct Has1 as (Eb1 & Em1 & Ef1 & Hsq1 & H1).
  destruct Has2 as (Eb2 & Em2 & Ef2 & Hsq2 & H2).
  assert (cell s1 = cell s2) as Eg.
  { apply (grid_ext (dim s)); [done..|]. intros i j Hi Hj.
    destruct (square_cell_at _ _ i j Hsq Hi Hj) as [x Hx].
    rewrite (H1 _ _ _ Hx), (H2 _ _ _ Hx), Er, Ec. f_equal.
    case_decide; [done|].
    assert (NoDup (possible x)) as Hnd.
    { apply ascending_NoDup. by destruct (inv_cells _ HI _ _ _ Hx) as (? & _). }
    pose proof (visited_hits s row col i j Hwf Hr Hc Hi Hj) as Hh1.
    pose proof (visited_hits s row' col' i j Hwf Hr' Hc' Hi Hj) as Hh2.
    rewrite Er, Ec in Hh2.
    destruct (decide (0 < hits (dim s) (visited s row col) i j)%nat) as [Hp|Hp].
    - by rewrite (iter_rm_once v _ x Hnd Hp),
        (iter_rm_once v _ x Hnd (proj2 Hh2 (proj1 Hh1 Hp))).
    - assert (¬ (0 < hits (dim s) (visited s row' col') i j)%nat) as Hp'
        by (intros ?; apply Hp, Hh1; by apply Hh2).
      replace (hits (dim s) (visited s row col) i j) with 0%nat by lia.
      by replace (hits (dim s) (visited s row' col') i j) with 0%nat by lia. }
  destruct s1, s2. simpl in *. congruence.
Qed.

(** X9. A negative row or column index names the cell it names in
    Python, counted from the end: [set_cell] does with it what it does
    with the non-negative index of the same cell, the box being cleared
    included. *)
Theorem X9_negative_indices (s : Sudoku) (v row col : Z) :
  reachable s → in_bounds (dim s) row → in_bounds (dim s) col →
  set_cell s v row col =
  set_cell s v (Z.of_nat (norm (dim s) row)) (Z.of_nat (norm (dim s) col)).
Proof.
  intros HI%reachable_Inv Hrow Hcol. pose proof (inv_wf _ HI) as Hwf.
  pose proof Hwf as (_ & _ & Hsq).
  pose proof (in_bounds_nat _ _ (norm_lt _ _ Hrow)) as Hrow'.
  pose proof (in_bounds_nat _ _ (norm_lt _ _ Hcol)) as Hcol'.
  destruct (get_cell_total s row col Hwf Hrow Hcol) as [c Hc].
  assert (get_cell s (Z.of_nat (norm (dim s) row)) (Z.of_nat (norm (dim s) col)) = Ok c)
    as Hc'.
  { apply (get_cell_Ok _ _ _ _ _ Hsq) in Hc as (_ & _ & Hat).
    apply (get_cell_Ok _ _ _ _ _ Hsq). by rewrite !norm_nat. }
  destruct (decide (v ∈ possible c)) as [Hv|Hv].
  - destruct (set_cell_success _ _ _ _ _ HI Hc Hv) as (s1 & -> & Has1 & _).
    destruct (set_cell_success _ _ _ _ _ HI Hc' Hv) as (s2 & -> & Has2 & _).
    do 2 f_equal.
    apply (assigned_norm s v row col _ _ s1 s2 HI Hrow Hcol Hrow' Hcol');
      [by rewrite norm_nat..|done|done].
  - transitivity (@Ok (bool * Sudoku) (false, s)); [|symmetry];
      apply set_cell_false_iff; eauto.
Qed.

Lemma X9_negative_indices_witness :
  set_cell stuck_board 3 (-1) (-4) = set_cell stuck_board 3 3 0.
Proof.
  apply (X9_negative_indices stuck_board 3 (-1) (-4) stuck_board_reachable).
  - unfold in_bounds. replace (dim stuck_board) with 4%nat by reflexivity. lia.
  - unfold in_bounds. replace (dim stuck_board) with 4%nat by reflexivity. lia.
Defined.

(** X10. A fresh board ([Sudoku.__init__] with [box_size >= 0]) accepts
    a value at a cell exactly when both indices are within [-N, N) and
    the value is one of 1..N, with N the square of the box size; any
    other value is refused at an existing cell and the board stays as
    created. *)
Theorem X10_fresh_board_accepts (bs v row col : Z) :
  0 ≤ bs →
  let n := Z.to_nat (bs ^ 2) in
  ((∃ s', set_cell (Sudoku_init bs) v row col = Ok (true, s')) ↔
   in_bounds n row ∧ in_bounds n col ∧ 1 ≤ v ≤ bs ^ 2) ∧
  (in_bounds n row → in_bounds n col → ¬ 1 ≤ v ≤ bs ^ 2 →
   set_cell (Sudoku_init bs) v row col = Ok (false, Sudoku_init bs)).
Proof.
  intros Hbs n. subst n. change (Z.to_nat (bs ^ 2)) with (dim (Sudoku_init bs)).
  pose proof (Inv_init bs Hbs) as HI. pose proof (inv_wf _ HI) as Hwf.
  pose proof Hwf as (_ & _ & Hsq).
  assert (∀ c, get_cell (Sudoku_init bs) row col = Ok c →
               (v ∈ possible c ↔ 1 ≤ v ≤ bs ^ 2)) as Hcand.
  { intros c Hc. apply (get_cell_Ok _ _ _ _ _ Hsq) in Hc as (_ & _ & Hat).
    apply cell_at_init in Hat as ->. simpl. rewrite elem_of_range. lia. }
  split.
  - split.
    + intros [s' H]. destruct (set_cell_true_inv _ _ _ _ _ H) as (c & Hc & Hv).
      pose proof Hc as Hb. apply (get_cell_Ok _ _ _ _ _ Hsq) in Hb as (? & ? & _).
      split; [done|]. split; [done|]. by apply (Hcand c).
    + intros (Hrow & Hcol & Hv).
      destruct (get_cell_total _ row col Hwf Hrow Hcol) as [c Hc].
      destruct (set_cell_success _ v _ _ _ HI Hc) as (s' & E & _); [by apply Hcand|].
      eauto.
  - intros Hrow Hcol Hv. destruct (get_cell_total _ row col Hwf Hrow Hcol) as [c Hc].
    apply set_cell_false_iff. exists c. split_and!; [done| |done].
    by rewrite (Hcand c Hc).
Qed.

Lemma X10_fresh_board_accepts_witness :
  (∃ s', set_cell (Sudoku_init 3) 9 (-9) 8 = Ok (true, s')) ↔
  in_bounds 9 (-9) ∧ in_bounds 9 8 ∧ 1 ≤ 9 ≤ 3 ^ 2.
Proof.
  destruct (X10_fresh_board_accepts 3 9 (-9) 8) as [H _]; [lia|]. exact H.
Defined.

(** ** The order of the scans *)

Lemma pairs_sorted (rows cols : list Z) :
  ascending rows → ascending cols → StronglySorted before (pairs rows cols).
Proof.
  intros Hrows Hcols. induction rows as [|r rows IH]; simpl; [constructor|].
  apply StronglySorted_cons in Hrows as [Hr Hrows].
  apply StronglySorted_app. split_and!.
  - intros [r1 c1] [r2 c2] (c' & [= -> ->] & _)%list_elem_of_fmap
      [Hin _]%elem_of_pairs.
    left. simpl. by apply (proj1 (list.Forall_forall _ _) Hr).
  - clear IH. induction cols as [|c cols IHc]; simpl; [constructor|].
    apply StronglySorted_cons in Hcols as [Hc Hcols].
    apply StronglySorted_cons. split; [|by apply IHc].
    apply list.Forall_forall. intros [r' c'] (c'' & [= -> ->] & Hin)%list_elem_of_fmap.
    right. simpl. split; [done|]. by apply (proj1 (list.Forall_forall _ _) Hc).
  - by apply IH.
Qed.

Lemma before_irrefl (p : Z * Z) : ¬ before p p.
Proof. unfold before. lia. Qed.

Lemma before_asym (p q : Z * Z) : before p q → ¬ before q p.
Proof. unfold before. lia. Qed.

(** The positions that come before a position in the scanning order. *)
Lemma coords_split (s : Sudoku) (L1 L2 : list (Z * Z)) (r c : Z) :
  coords s = L1 ++ (r, c) :: L2 →
  ∀ r' c', (r', c') ∈ L1 ↔
           0 ≤ r' < max_val s ∧ 0 ≤ c' < max_val s ∧ before (r', c') (r, c).
Proof.
  intros E r' c'.
  pose proof (pairs_sorted _ _ (ascending_range 0 (max_val s))
                (ascending_range 0 (max_val s))) as Hsorted.
  fold (coords s) in Hsorted. rewrite E in Hsorted.
  apply StronglySorted_app in Hsorted as (H12 & _ & H2).
  apply StronglySorted_cons in H2 as [H2 _].
  assert (∀ q, q ∈ coords s ↔ 0 ≤ q.1 < max_val s ∧ 0 ≤ q.2 < max_val s) as Hmem.
  { intros [a b]. unfold coords. rewrite elem_of_pairs, !elem_of_range. simpl. lia. }
  split.
  - intros Hin. assert ((r', c') ∈ coords s) as Hc
      by (rewrite E, elem_of_app; auto).
    apply Hmem in Hc as [? ?]. split; [done|]. split; [done|].
    apply H12; [done|by left].
  - intros (Hr & Hc & Hb). assert ((r', c') ∈ coords s) as Hin by (by apply Hmem).
    rewrite E, elem_of_app, elem_of_cons in Hin.
    destruct Hin as [?|[[= -> ->]|Hin]]; [done| |].
    + by destruct (before_irrefl (r, c)).
    + apply (proj1 (list.Forall_forall _ _) H2) in Hin.
      by destruct (before_asym _ _ Hb).
Qed.

(** A scan of the whole board returns the first cell, in row-major
    order, that satisfies the test. *)
Lemma scan_first (s : Sudoku) (p : Cell → bool) :
  wf s →
  ∃ o, scan s p (coords s) = Ok o ∧
       match o with
       | Some (r, c) =>
           0 ≤ r < max_val s ∧ 0 ≤ c < max_val s ∧
           (∃ x, get_cell s r c = Ok x ∧ p x = true) ∧
           ∀ r' c' x', 0 ≤ r' < max_val s → 0 ≤ c' < max_val s →
                       before (r', c') (r, c) →
                       get_cell s r' c' = Ok x' → p x' = false
       | None => ∀ i j x, cell_at (cell s) i j = Some x → p x = false
       end.
Proof.
  intros Hwf. destruct (scan_board s p Hwf) as (o & E & Ho).
  destruct (scan_spec s p (coords s) Hwf) as (o' & E' & Ho');
    [intros; by apply coords_in_bounds|].
  rewrite E in E'. injection E' as <-. exists o. split; [done|].
  destruct o as [[r c]|]; [|done].
  destruct Ho' as (L1 & L2 & x & EL & Hx & Hp & Hbefore).
  assert ((r, c) ∈ coords s) as Hin by (rewrite EL, elem_of_app, elem_of_cons; auto).
  unfold coords in Hin. rewrite elem_of_pairs, !elem_of_range in Hin.
  split; [lia|]. split; [lia|]. split; [by eauto|].
  intros r' c' x' Hr' Hc' Hb Hx'. apply (Hbefore r' c' x'); [|done].
  by apply (coords_split s L1 L2 r c EL).
Qed.

(** X11. [find_one_possible] on a reachable board never raises; it
    returns the first cell in row-major order that has exactly one
    candidate, and [None] exactly when no cell has exactly one. *)
Theorem X11_find_one_possible_first (s : Sudoku) :
  reachable s →
  ∃ o, find_one_possible s = Ok o ∧
       match o with
       | Some (r, c) =>
           0 ≤ r < max_val s ∧ 0 ≤ c < max_val s ∧
           (∃ x, get_cell s r c = Ok x ∧ length (possible x) = 1%nat) ∧
           ∀ r' c' x', 0 ≤ r' < max_val s → 0 ≤ c' < max_val s →
                       before (r', c') (r, c) →
                       get_cell s r' c' = Ok x' → length (possible x') ≠ 1%nat
       | None =>
           ∀ i j x, cell_at (cell s) i j = Some x → length (possible x) ≠ 1%nat
       end.
Proof.
  intros HI%reachable_Inv. unfold find_one_possible.
  destruct (scan_first s (λ x, bool_decide (length (possible x) = 1%nat))
              (inv_wf _ HI)) as (o & E & Ho).
  exists o. split; [done|]. destruct o as [[r c]|].
  - destruct Ho as (Hr & Hc & (x & Hx & Hp) & Hfirst).
    split; [done|]. split; [done|]. split.
    + exists x. split; [done|]. by apply bool_decide_eq_true in Hp.
    + intros r' c' x' Hr' Hc' Hb Hx'.
      pose proof (Hfirst r' c' x' Hr' Hc' Hb Hx') as Hf.
      by apply bool_decide_eq_false in Hf.
  - intros i j x Hx. specialize (Ho _ _ _ Hx). by apply bool_decide_eq_false in Ho.
Qed.

Lemma X11_find_one_possible_first_witness :
  ∃ o, find_one_possible almost_board = Ok o ∧
       match o with
       | Some (r, c) =>
           0 ≤ r < max_val almost_board ∧ 0 ≤ c < max_val almost_board ∧
           (∃ x, get_cell almost_board r c = Ok x ∧ length (possible x) = 1%nat) ∧
           ∀ r' c' x', 0 ≤ r' < max_val almost_board →
                       0 ≤ c' < max_val almost_board →
                       before (r', c') (r, c) →
                       get_cell almost_board r' c' = Ok x' →
                       length (possible x') ≠ 1%nat
       | None =>
           ∀ i j x, cell_at (cell almost_board) i j = Some x →
                    length (possible x) ≠ 1%nat
       end.
Proof. apply (X11_find_one_possible_first almost_board almost_board_reachable). Defined.

(** X12. [find_lowest_possibles] returns the first of the open cells
    with the fewest candidates, and [(-1, -1)] when no cell is open. *)
Theorem X12_find_lowest_possibles_first (s : Sudoku) :
  reachable s →
  ((∀ i j y, cell_at (cell s) i j = Some y → possible y = []) →
     find_lowest_possibles s = Ok (-1, -1)) ∧
  ((∃ i j y, cell_at (cell s) i j = Some y ∧ possible y ≠ []) →
     ∃ r c x, find_lowest_possibles s = Ok (r, c) ∧
              0 ≤ r < max_val s ∧ 0 ≤ c < max_val s ∧
              get_cell s r c = Ok x ∧ possible x ≠ [] ∧
              ∀ r' c' y, 0 ≤ r' < max_val s → 0 ≤ c' < max_val s →
                         get_cell s r' c' = Ok y → possible y ≠ [] →
                         (length (possible x) ≤ length (possible y))%nat ∧
                         (before (r', c') (r, c) →
                          (length (possible x) < length (possible y))%nat)).
Proof.
  intros HI%reachable_Inv. pose proof (inv_wf _ HI) as Hwf.
  pose proof Hwf as (_ & _ & Hsq).
  set (J := λ (L : list (Z * Z)) (acc : Z * Z * Z),
    let '(lr, lc, lp) := acc in
    (acc = (-1, -1, max_val s + 1) ∧
     ∀ r c y, (r, c) ∈ L → get_cell s r c = Ok y → possible y = []) ∨
    (∃ x La Lb, L = La ++ (lr, lc) :: Lb ∧
       get_cell s lr lc = Ok x ∧ lp = Z.of_nat (length (possible x)) ∧ 0 < lp ∧
       (∀ r c y, (r, c) ∈ La → get_cell s r c = Ok y → possible y ≠ [] →
                 lp < Z.of_nat (length (possible y))) ∧
       (∀ r c y, (r, c) ∈ Lb → get_cell s r c = Ok y → possible y ≠ [] →
                 lp ≤ Z.of_nat (length (possible y))))).
  assert (∃ acc, find_lowest_possibles s = Ok (acc.1.1, acc.1.2) ∧ J (coords s) acc)
    as (acc & Eacc & Hacc).
  { unfold find_lowest_possibles.
    match goal with |- context [for_each _ ?body ?init] =>
      destruct (for_each_inv J (coords s) body init) as (acc & -> & Hacc)
    end; [| |by exists acc].
    { left. split; [reflexivity|]. intros r c y Hin. by apply elem_of_nil in Hin. }
    intros L1 [r c] [[lr lc] lp] HJ Hin.
    destruct (coords_in_bounds _ _ _ Hwf Hin) as [Hr Hc].
    destruct (get_cell_total s r c Hwf Hr Hc) as [x Hx]. rewrite Hx; simpl.
    pose proof Hx as Hat. apply (get_cell_Ok _ _ _ _ _ Hsq) in Hat as (_ & _ & Hat).
    destruct (inv_cells _ HI _ _ _ Hat) as (Hasc & Hrange & _).
    pose proof (ascending_length _ _ Hasc Hrange) as Hlen.
    assert (0 ≤ max_val s) by (destruct Hwf as (? & -> & _); lia).
    assert (possible x ≠ [] → 0 < Z.of_nat (length (possible x))) as Hpos
      by (destruct (possible x); simpl; [done|lia]).
    destruct HJ as [[[= -> -> ->] Hnone]|(x1 & La & Lb & -> & Hx1 & -> & Hp1 & HLa & HLb)].
    - destruct (decide (possible x = [])) as [E|E].
      + rewrite E; simpl. eexists; split; [done|]. left. split; [done|].
        intros r' c' y. rewrite elem_of_app, list_elem_of_singleton.
        intros [Hin'|[= -> ->]] Hy; [by eapply Hnone|].
        rewrite Hx in Hy. by injection Hy as <-.
      + specialize (Hpos E). rewrite !bool_decide_true by lia. simpl.
        eexists; split; [done|]. right. exists x, L1, [].
        split_and!; [done..| |].
        * intros r' c' y Hin' Hy Hne. by rewrite (Hnone _ _ _ Hin' Hy) in Hne.
        * intros r' c' y Hin'. by apply elem_of_nil in Hin'.
    - destruct (decide (0 < Z.of_nat (length (possible x)) <
                        Z.of_nat (length (possible x1)))) as [Hlt|Hlt].
      + rewrite !bool_decide_true by lia. simpl.
        eexists; split; [done|]. right. exists x, (La ++ (lr, lc) :: Lb), [].
        split_and!; [done..|lia| |].
        * intros r' c' y. rewrite elem_of_app, elem_of_cons.
          intros [Hin'|[[= -> ->]|Hin']] Hy Hne.
          -- specialize (HLa _ _ _ Hin' Hy Hne). lia.
          -- rewrite Hx1 in Hy. injection Hy as <-. lia.
          -- specialize (HLb _ _ _ Hin' Hy Hne). lia.
        * intros r' c' y Hin'. by apply elem_of_nil in Hin'.
      + assert (bool_decide (Z.of_nat (length (possible x)) > 0) &&
                bool_decide (Z.of_nat (length (possible x)) <
                             Z.of_nat (length (possible x1))) = false) as ->.
        { apply andb_false_iff. rewrite !bool_decide_eq_false. lia. }
        eexists; split; [done|]. right. exists x1, La, (Lb ++ [(r, c)]).
        split_and!; [by rewrite <- app_assoc|done..|].
        intros r' c' y. rewrite elem_of_app, list_elem_of_singleton.
        intros [Hin'|[= -> ->]] Hy Hne; [by eapply HLb|].
        rewrite Hx in Hy. injection Hy as <-. specialize (Hpos Hne). lia. }
  destruct acc as [[lr lc] lp]. simpl in Eacc. split.
  - intros Hnone.
    destruct Hacc as [[[= -> -> ->] _]|(x & La & Lb & EL & Hx & -> & Hp & _)];
      [done|].
    apply (get_cell_Ok _ _ _ _ _ Hsq) in Hx as (_ & _ & Hat).
    rewrite (Hnone _ _ _ Hat) in Hp. simpl in Hp. lia.
  - intros (i0 & j0 & y0 & Hy0 & Hne0).
    destruct (cell_at_lt _ _ _ _ _ Hsq Hy0) as [Hi0 Hj0].
    destruct Hacc as [[_ Hnone]|(x & La & Lb & EL & Hx & -> & Hp & HLa & HLb)].
    { by rewrite (Hnone _ _ _ (coords_complete s i0 j0 Hi0 Hj0)
                    (get_cell_nat _ _ _ _ Hwf Hy0)) in Hne0. }
    exists lr, lc, x.
    assert ((lr, lc) ∈ coords s) as Hin by (rewrite EL, elem_of_app, elem_of_cons; auto).
    unfold coords in Hin. rewrite elem_of_pairs, !elem_of_range in Hin.
    split; [done|]. split; [lia|]. split; [lia|]. split; [done|]. split.
    { intros E. rewrite E in Hp. simpl in Hp. lia. }
    intros r' c' y Hr' Hc' Hy Hne.
    assert ((r', c') ∈ coords s) as Hin'
      by (unfold coords; rewrite elem_of_pairs, !elem_of_range; lia).
    rewrite EL, elem_of_app, elem_of_cons in Hin'. split.
    + destruct Hin' as [Hin'|[[= -> ->]|Hin']].
      * specialize (HLa _ _ _ Hin' Hy Hne). lia.
      * rewrite Hx in Hy. by injection Hy as <-.
      * specialize (HLb _ _ _ Hin' Hy Hne). lia.
    + intros Hb. assert ((r', c') ∈ La) as HinLa
        by (by apply (coords_split s La Lb lr lc EL)).
      specialize (HLa _ _ _ HinLa Hy Hne). lia.
Qed.

Lemma X12_find_lowest_possibles_first_witness :
  ∃ r c x, find_lowest_possibles stuck_board = Ok (r, c) ∧
           0 ≤ r < max_val stuck_board ∧ 0 ≤ c < max_val stuck_board ∧
           get_cell stuck_board r c = Ok x ∧ possible x ≠ [] ∧
           ∀ r' c' y, 0 ≤ r' < max_val stuck_board → 0 ≤ c' < max_val stuck_board →
                      get_cell stuck_board r' c' = Ok y → possible y ≠ [] →
                      (length (possible x) ≤ length (possible y))%nat ∧
                      (before (r', c') (r, c) →
                       (length (possible x) < length (possible y))%nat).
Proof.
  destruct (X12_find_lowest_possibles_first stuck_board stuck_board_reachable)
    as [_ H].
  apply H. exists 2%nat, 0%nat, (mkCell 0 [2; 3; 4] 4).
  split; [reflexivity|discriminate].
Defined.

(** ** Cells and their display *)

Lemma list_remove_length (x : Z) (l : list Z) :
  (length l ≤ S (length (list_remove x l)))%nat.
Proof.
  induction l as [|y l IH]; simpl; [lia|]. case_bool_decide; simpl; lia.
Qed.

(** X13. [Cell.remove_from_possible] keeps the value of the cell, leaves
    the other candidates in their order, removes at most one occurrence,
    does nothing when the value is no candidate and, on a candidate list
    without duplicates, leaves a list without the value, so that a
    second call changes nothing. *)
Theorem X13_remove_from_possible (c : Cell) (v : Z) :
  value (remove_from_possible c v) = value c ∧
  possible (remove_from_possible c v) `sublist_of` possible c ∧
  (∀ w, w ≠ v → w ∈ possible (remove_from_possible c v) ↔ w ∈ possible c) ∧
  (length (possible c) ≤ S (length (possible (remove_from_possible c v))))%nat ∧
  (v ∉ possible c → remove_from_possible c v = c) ∧
  (NoDup (possible c) →
     (v ∉ possible (remove_from_possible c v)) ∧
     remove_from_possible (remove_from_possible c v) v = remove_from_possible c v).
Proof.
  split_and!.
  - apply rm_value.
  - apply rm_sublist.
  - intros w Hw. by apply rm_other.
  - unfold remove_from_possible. case_bool_decide; simpl; [|lia].
    apply list_remove_length.
  - apply rm_absent.
  - intros Hnd. pose proof (rm_notin v c Hnd) as Hn. split; [done|].
    by apply rm_absent.
Qed.

Lemma X13_remove_from_possible_witness :
(3 ∉ possible (remove_from_possible (mkCell 0 [1; 3; 4] 4) 3)) ∧
  remove_from_possible (remove_from_possible (mkCell 0 [1; 3; 4] 4) 3) 3 =
  remove_from_possible (mkCell 0 [1; 3; 4] 4) 3.
Proof.
  destruct (X13_remove_from_possible (mkCell 0 [1; 3; 4] 4) 3)
    as (_ & _ & _ & _ & _ & H).
  apply H. simpl. apply (ascending_NoDup [1; 3; 4]).
  repeat (constructor; [|repeat constructor; lia]). constructor.
Defined.

Lemma Cell_str_length (c : Cell) :
  0 ≤ value c → String.length (Cell_str c) = 1%nat.
Proof.
  rewrite Cell_str_value.
  assert (forallb (λ v, Nat.eqb (String.length (str_of_value v)) 1) (range 0 65) = true)
    as Hlen by (vm_compute; reflexivity).
  rewrite forallb_forall in Hlen.
  intros Hv. destruct (decide (value c ≤ 64)) as [Hle|Hgt].
  - apply Nat.eqb_eq, Hlen, list_elem_of_In, elem_of_range. lia.
  - unfold str_of_value, Cell_str. simpl. by rewrite !bool_decide_false by lia.
Qed.

(** X14. [Cell.__str__] shows every value from 0 on as one character,
    and tells the values 0 to 64 apart: two cells with values in that
    range that show the same character have the same value. *)
Theorem X14_Cell_str_injective (c1 c2 : Cell) :
  (0 ≤ value c1 → String.length (Cell_str c1) = 1%nat) ∧
  (0 ≤ value c1 ≤ 64 → 0 ≤ value c2 ≤ 64 →
   Cell_str c1 = Cell_str c2 → value c1 = value c2).
Proof.
  rewrite !Cell_str_value.
  assert (forallb (λ v, forallb (λ w,
            implb (String.eqb (str_of_value v) (str_of_value w)) (Z.eqb v w))
            (range 0 65)) (range 0 65) = true) as Hinj by (vm_compute; reflexivity).
  rewrite forallb_forall in Hinj. split.
  - rewrite <- Cell_str_value. apply Cell_str_length.
  - intros Hv1 Hv2 E.
    assert (In (value c1) (range 0 65)) as H1 by (apply list_elem_of_In, elem_of_range; lia).
    assert (In (value c2) (range 0 65)) as H2 by (apply list_elem_of_In, elem_of_range; lia).
    specialize (Hinj _ H1). rewrite forallb_forall in Hinj. specialize (Hinj _ H2).
    rewrite E, String.eqb_refl in Hinj. simpl in Hinj. by apply Z.eqb_eq.
Qed.

Lemma X14_Cell_str_injective_witness :
  String.length (Cell_str (mkCell 35 [] 64)) = 1%nat ∧
  (Cell_str (mkCell 35 [] 64) = Cell_str (mkCell 36 [] 64) → 35 = 36).
Proof.
  destruct (X14_Cell_str_injective (mkCell 35 [] 64) (mkCell 36 [] 64)) as [H1 H2].
  split; [apply H1|apply H2]; simpl; lia.
Defined.

(** ** The layout of [Sudoku.__str__] *)

Lemma string_length_append (s1 s2 : string) :
  String.length (s1 ++ s2)%string = (String.length s1 + String.length s2)%nat.
Proof. induction s1 as [|a s1 IH]; simpl; [done|]. by rewrite IH. Qed.

Lemma join_app (l1 l2 : list string) : join (l1 ++ l2) = (join l1 ++ join l2)%string.
Proof.
  induction l1 as [|x l1 IH]; simpl; [done|]. rewrite IH.
  induction x as [|a x IHx]; simpl; [done|]. by rewrite IHx.
Qed.

(** Joining strings that all have length [k]. *)
Lemma join_length (k : nat) (l : list string) :
  (∀ x, x ∈ l → String.length x = k) → String.length (join l) = (length l * k)%nat.
Proof.
  induction l as [|x l IH]; intros H; simpl; [done|].
  rewrite string_length_append, (H x (list_elem_of_here _ _)), IH; [done|].
  intros; apply H; by right.
Qed.

Lemma join_get (k : nat) (l : list string) (i j : nat) (x : string) :
  (∀ y, y ∈ l → String.length y = k) → l !! i = Some x → (j < k)%nat →
  String.get (i * k + j) (join l) = String.get j x.
Proof.
  revert i. induction l as [|y l IH]; intros i H Hi Hj; [done|].
  pose proof (H y (list_elem_of_here _ _)) as Hy. simpl.
  destruct i as [|i]; simpl in *.
  - injection Hi as <-. symmetry. apply append_correct1. lia.
  - replace (k + i * k + j)%nat with (i * k + j + String.length y)%nat by lia.
    rewrite <- append_correct2. apply IH; [|done..]. intros; apply H; by right.
Qed.

(** A row as [__str__] prints it. *)
Lemma Sudoku_str_rows (s : Sudoku) :
  Sudoku_str s =
  join ((λ row : list Cell,
           (join ((λ c, String.append (Cell_str c) " ") <$> row) ++ newline)%string)
        <$> cell s).
Proof.
  unfold Sudoku_str. induction (cell s) as [|row g IH]; [done|].
  rewrite !fmap_cons. simpl. by rewrite join_app, join_app, IH.
Qed.

Lemma row_str_get (row : list Cell) (j : nat) (c : Cell) :
  (∀ x, x ∈ row → 0 ≤ value x) → row !! j = Some c →
  let line := (join ((λ c, String.append (Cell_str c) " ") <$> row) ++ newline)%string in
  String.length line = (2 * length row + 1)%nat ∧
  String.get (2 * j) line = String.get 0 (Cell_str c) ∧
  String.get (2 * j + 1) line = String.get 0 " " ∧
  String.get (2 * length row) line = String.get 0 newline.
Proof.
  intros Hval Hj line. subst line.
  set (cells := (λ c, String.append (Cell_str c) " ") <$> row).
  assert (∀ y, y ∈ cells → String.length y = 2%nat) as Hk.
  { intros y (x & -> & Hx)%list_elem_of_fmap.
    rewrite string_length_append, (Cell_str_length x (Hval x Hx)). done. }
  pose proof (join_length 2 cells Hk) as Hlen.
  unfold cells in Hlen at 2. rewrite length_fmap in Hlen.
  assert (cells !! j = Some (String.append (Cell_str c) " ")) as Hcj
    by (unfold cells; by rewrite list_lookup_fmap, Hj).
  pose proof (lookup_lt_Some _ _ _ Hj) as Hjlt.
  assert (0 ≤ value c) as Hc by (apply Hval; by eapply list_elem_of_lookup_2).
  pose proof (Cell_str_length c Hc) as Hc1.
  split_and!.
  - rewrite string_length_append, Hlen. simpl. lia.
  - rewrite <- append_correct1 by lia.
    replace (2 * j)%nat with (j * 2 + 0)%nat by lia.
    rewrite (join_get 2 cells j 0 _ Hk Hcj) by lia.
    symmetry. apply append_correct1. lia.
  - rewrite <- append_correct1 by lia.
    replace (2 * j + 1)%nat with (j * 2 + 1)%nat by lia.
    rewrite (join_get 2 cells j 1 _ Hk Hcj) by lia.
    rewrite (append_correct2 (Cell_str c) " " 0). by rewrite Hc1.
  - rewrite (append_correct2 (join cells) newline 0). by rewrite Hlen, Nat.mul_comm.
Qed.

(** X15. [Sudoku.__str__] of a reachable board of side N is N lines of
    2N + 1 characters: the character at offset 2j of line i is the
    symbol of the cell at row i, column j, each symbol is followed by a
    blank, and each line ends with a line feed. *)
Theorem X15_Sudoku_str_layout (s : Sudoku) :
  reachable s →
  let n := dim s in
  String.length (Sudoku_str s) = (n * (2 * n + 1))%nat ∧
  ∀ i j c, cell_at (cell s) i j = Some c →
    String.get (i * (2 * n + 1) + 2 * j) (Sudoku_str s) = String.get 0 (Cell_str c) ∧
    String.get (i * (2 * n + 1) + 2 * j + 1) (Sudoku_str s) = Some " "%char ∧
    String.get (i * (2 * n + 1) + 2 * n) (Sudoku_str s) = Some (ascii_of_nat 10).
Proof.
  intros HI%reachable_Inv n. pose proof (inv_wf _ HI) as (_ & _ & [Hl Hrows]).
  fold n in Hl, Hrows. rewrite Sudoku_str_rows.
  set (line := λ row : list Cell,
         (join ((λ c, String.append (Cell_str c) " ") <$> row) ++ newline)%string).
  assert (∀ i row x, cell s !! i = Some row → x ∈ row → 0 ≤ value x) as Hval.
  { intros i row x Hrow Hx. apply list_elem_of_lookup in Hx as [j Hj].
    assert (cell_at (cell s) i j = Some x) as Hat by (unfold cell_at; by rewrite Hrow).
    destruct (inv_cells _ HI _ _ _ Hat) as (_ & _ & _ & ?). lia. }
  assert (∀ y, y ∈ line <$> cell s → String.length y = (2 * n + 1)%nat) as Hk.
  { intros y (row & -> & Hrow)%list_elem_of_fmap.
    apply list_elem_of_lookup in Hrow as [i Hi].
    destruct row as [|c0 row'] eqn:Erow.
    - pose proof (Hrows _ _ Hi) as Hn. simpl in Hn. rewrite <- Hn. done.
    - rewrite <- Erow in *.
      assert (row !! 0%nat = Some c0) as H0 by (by rewrite Erow).
      destruct (row_str_get row 0 c0 (λ x, Hval i row x Hi) H0) as (Hlen & _).
      unfold line. rewrite Hlen, (Hrows _ _ Hi). done. }
  split.
  - rewrite (join_length _ _ Hk), length_fmap, Hl. done.
  - intros i j c Hc. unfold cell_at in Hc.
    destruct (cell s !! i) as [row|] eqn:Hrow; [|done]. simpl in Hc.
    assert ((line <$> cell s) !! i = Some (line row)) as Hli
      by (by rewrite list_lookup_fmap, Hrow).
    pose proof (lookup_lt_Some _ _ _ Hc) as Hj. rewrite (Hrows _ _ Hrow) in Hj.
    destruct (row_str_get row j c (λ x, Hval i row x Hrow) Hc) as (_ & H0 & H1 & H2).
    rewrite (Hrows _ _ Hrow) in H2. fold (line row) in H0, H1, H2.
    split_and!.
    + rewrite (join_get _ _ i (2 * j) _ Hk Hli) by lia. done.
    + rewrite <- Nat.add_assoc. rewrite (join_get _ _ i (2 * j + 1) _ Hk Hli) by lia.
      done.
    + rewrite (join_get _ _ i (2 * n) _ Hk Hli) by lia. done.
Qed.

Lemma X15_Sudoku_str_layout_witness :
  String.length (Sudoku_str stuck_board) = (dim stuck_board * (2 * dim stuck_board + 1))%nat.
Proof.
  destruct (X15_Sudoku_str_layout stuck_board stuck_board_reachable) as [H _].
  exact H.
Defined.

(** ** The object [solve] returns *)

Lemma invoke_length (p : ref) (m : Sudoku → res Sudoku) (h h' : store) :
  invoke p m h = Ok h' → length h' = length h.
Proof.
  unfold invoke. intros H. inv_bind. subst. apply length_insert.
Qed.

Lemma fork_all_fresh (n : nat) (p : ref) (row col : Z) (values : list Z)
    (puzzles puzzles' : list ref) (h h' : store) :
  fork_all p row col values puzzles h = Ok (puzzles', h') →
  (n ≤ length h)%nat → (∀ q, q ∈ puzzles → (n ≤ q)%nat) →
  (n ≤ length h')%nat ∧ ∀ q, q ∈ puzzles' → (n ≤ q)%nat.
Proof.
  unfold fork_all. revert puzzles h.
  induction values as [|v values IH]; intros puzzles h H Hn Hps; cbn [for_each] in H.
  - injection H as -> ->. done.
  - apply bind_Ok in H as ([ps1 h1] & Hfork & H).
    unfold fork, deepcopy in Hfork.
    apply bind_Ok in Hfork as ([q0 h0] & Hcopy & Hfork).
    apply bind_Ok in Hcopy as (b0 & _ & [= <- <-]).
    apply bind_Ok in Hfork as (h2 & Hinv%invoke_length & [= <- <-]).
    rewrite length_app in Hinv. apply (IH _ _ H); [lia|].
    intros q [Hq| ->%list_elem_of_singleton]%elem_of_app; [by apply Hps|done].
Qed.

Lemma solve_loop_fresh (n fuel : nat) (puzzles : list ref) (cur out : option ref)
    (h h' : store) :
  solve_loop fuel puzzles cur h = Ok (out, h') →
  (n ≤ length h)%nat → (∀ q, q ∈ puzzles → (n ≤ q)%nat) →
  (∀ q, cur = Some q → (n ≤ q)%nat) →
  ∀ q, out = Some q → (n ≤ q)%nat.
Proof.
  revert puzzles cur h.
  induction fuel as [|fuel IH]; intros puzzles cur h H Hn Hps Hcur; [done|].
  cbn [solve_loop] in H.
  destruct (py_pop puzzles) as [[rest p]|] eqn:Epop.
  - apply py_pop_Some in Epop as ->.
    assert (n ≤ p)%nat as Hp by (apply Hps, elem_of_app; right; by left).
    assert (∀ q, q ∈ rest → (n ≤ q)%nat) as Hrest
      by (intros q Hq; apply Hps, elem_of_app; by left).
    apply bind_Ok in H as (h1 & Hinv & H). apply invoke_length in Hinv.
    apply bind_Ok in H as (b & _ & H).
    apply bind_Ok in H as (is_solved & _ & H).
    destruct is_solved.
    { apply (IH _ _ _ H); [lia|by intros q ?%elem_of_nil|by intros q [= <-]]. }
    apply bind_Ok in H as (dead & _ & H).
    destruct dead; cbn [andb] in H.
    + case_bool_decide.
      * apply (IH _ _ _ H); [lia|done|done].
      * apply (IH _ _ _ H); [lia|done|by intros q [= <-]].
    + apply bind_Ok in H as ([row col] & _ & H).
      apply bind_Ok in H as (c & _ & H).
      apply bind_Ok in H as ([ps2 h2] & Hfork & H).
      destruct (fork_all_fresh n _ _ _ _ _ _ _ _ Hfork) as [Hn2 Hps2]; [lia|done|].
      apply (IH _ _ _ H); [done|done|by intros q [= <-]].
  - injection H as <- <-. done.
Qed.

(** X16. A board returned by [solve] is an object created during the
    call: its reference is none of those the store held before, so it
    is not the receiver, and the receiver is as it was. *)
Theorem X16_solve_returns_copy (fuel : nat) (self p : ref) (h h' : store) :
  solve fuel self h = Ok (Some p, h') →
  (length h ≤ p)%nat ∧ p ≠ self ∧ h' !! self = h !! self.
Proof.
  intros H. pose proof H as H0.
  destruct (solve_Ok_inv _ _ _ _ H) as [b Hb].
  pose proof (lookup_lt_Some _ _ _ Hb) as Hlt.
  unfold solve, deepcopy in H. apply bind_Ok in H as ([p0 h0] & Hcopy & H).
  apply bind_Ok in Hcopy as (b0 & _ & [= <- <-]).
  assert (length h ≤ p)%nat as Hp.
  { apply (solve_loop_fresh (length h) _ _ _ _ _ _ H); [rewrite length_app; lia| |done|done].
    by intros q ->%list_elem_of_singleton. }
  split_and!; [done|lia|].
  pose proof (solve_refines fuel self h b Hb) as Hag. rewrite H0 in Hag.
  destruct (solve_boards fuel [b] None) as [rb| |]; simpl in Hag; try done.
  destruct Hag as (_ & _ & Hframe). by apply Hframe.
Qed.

Lemma X16_solve_returns_copy_witness :
  (1 ≤ 18)%nat ∧ 18%nat ≠ 0%nat ∧
  empty4_solved.2 !! 0%nat = [Sudoku_init 2] !! 0%nat.
Proof.
  apply (X16_solve_returns_copy 100 0 18 [Sudoku_init 2] empty4_solved.2).
  vm_compute. reflexivity.
Defined.
